(** * WebDNN, WebGL backend: loop-structure simplification and channel-mode
      conversion

    Shallow embedding of

    - [webdnn/backend/webgl/kernels/elementwise_add.py]
      ([_simplify_orders], [_optimize_loop_structure], the uniforms of the
      [elementwise_add] handler), in [Module ElementwiseAdd];
    - [webdnn/backend/webgl/optimize_rules/insert_channel_mode_conversion.py]
      ([_replace_input], [_replace_output], [_replace_input_all],
      [_replace_output_all], [InsertChannelModeConversion.optimize]), in
      [Module InsertChannelModeConversion];

    and their properties, in [Module ElementwiseAddSpec] and
    [Module InsertChannelModeConversionSpec].

    Python integers are unbounded and are modelled by [Z]; a raised
    exception ([KeyError], [TypeError], [ValueError]) is modelled by [None]
    in the option monad.  The
    classes the two files import ([Axis], [AxisKeyDict], [Order], [Variable],
    [Operator], [ChannelMode], the conversion operators) are modelled from
    the specification, each at its definition. *)

From stdpp Require Import gmap strings list fin_maps.

Open Scope Z_scope.

Module ElementwiseAdd.

(** ** Data model *)

(** [Axis] objects are compared by identity and are not hashable: they
    cannot be keys of a plain [dict], which is what [AxisKeyDict] is for.
    The objects the caller's Variables hold exist before the call;
    [Axis("Scalar")] (line 48) is created once per call, before any loop;
    [Axis(f"X{counter}")] (line 86) is created once per merge, [counter]
    being incremented right after. *)
Inductive Axis : Type :=
  | AxisGiven (id : nat)
  | AxisScalar
  | AxisX (counter : nat).

#[global] Instance Axis_eq_dec : EqDecision Axis.
Proof. solve_decision. Defined.

(** Modelled from the spec: the function [mul] of [webdnn.util.misc] is not
    among the sources; it is the product of a sequence of extents, the
    "total element count (product of extents)" of section 3. *)
Definition mul (l : list Z) : Z := foldr Z.mul 1 l.

(** Modelled from the spec: the class [AxisKeyDict] of [webdnn.graph.axis] is
    not among the sources; section 3 has it as "a mapping from each Axis ...
    to" a value.  It is modelled as an insertion-ordered association list.
    The constructor takes a sequence of keys and a sequence of values and
    pairs them by position; it raises ([ValueError]) when the two sequences
    differ in length.  [getitem] and [delitem] raise on an absent key,
    [setitem] overwrites the entry of a present key and appends an absent
    one. *)
Definition AxisKeyDict_new {T} (keys : list Axis) (values : list T)
  : option (list (Axis * T)) :=
  if decide (length keys = length values) then Some (zip keys values)
  else None.

Fixpoint getitem {T} (d : list (Axis * T)) (a : Axis) : option T :=
  match d with
  | [] => None
  | (k, x) :: d' => if decide (k = a) then Some x else getitem d' a
  end.

Fixpoint setitem {T} (d : list (Axis * T)) (a : Axis) (x : T)
  : list (Axis * T) :=
  match d with
  | [] => [(a, x)]
  | (k, y) :: d' =>
      if decide (k = a) then (k, x) :: d' else (k, y) :: setitem d' a x
  end.

Fixpoint delitem {T} (d : list (Axis * T)) (a : Axis)
  : option (list (Axis * T)) :=
  match d with
  | [] => None
  | (k, y) :: d' =>
      if decide (k = a) then Some d' else cons (k, y) <$> delitem d' a
  end.

(** Modelled from the spec: the class [Order] of [webdnn.graph.order] is not
    among the sources; it is "an ordered sequence of distinct Axis values"
    (section 3): [axes] is the sequence itself, [ndim] its length and
    [axes_dict] maps an axis to its position in it. *)
Fixpoint axes_dict (o : list Axis) (a : Axis) : option nat :=
  match o with
  | [] => None
  | k :: o' => if decide (k = a) then Some 0%nat else S <$> axes_dict o' a
  end.

(** Modelled from the spec: the class [Variable] of [webdnn.graph.variable] is
    not among the sources; it is "an Order, a mapping from each Axis in that
    Order to a positive integer extent, a total element count (product of
    extents)" (section 3).  [var_id] is the identity of the object: the
    dictionaries of the source are keyed by it.  ([Variable] is a reserved
    word, hence the lower case.) *)
Record variable : Type := mkVariable {
  var_id : nat;
  shape_dict : list (Axis * Z)
}.

Definition order (v : variable) : list Axis := (shape_dict v).*1.
Definition shape (v : variable) : list Z := (shape_dict v).*2.
Definition ndim (v : variable) : nat := length (order v).
Definition size (v : variable) : Z := mul (shape v).

(** ** [_simplify_orders] *)

(** The dictionaries [orders], [shape_dicts] and [var_dict] and the [counter]
    of lines 46-70. *)
Record State : Type := mkState {
  orders : gmap nat (list Axis);
  shape_dicts : gmap nat (list (Axis * Z));
  var_dict : list (Axis * gset nat);
  counter : nat
}.

(** A list comprehension with a condition that may raise. *)
Fixpoint filterM {A} (f : A → option bool) (l : list A) : option (list A) :=
  match l with
  | [] => Some []
  | x :: l' =>
      b ← f x;
      r ← filterM f l';
      Some (if b : bool then x :: r else r)
  end.

(** Lines 52-58: the body of the first loop, for one Variable.  When the
    condition of line 56 holds, line 58 evaluates the display
    [{axis_scalar: 1}], a plain [dict] with an [Axis] as key: an [Axis] is
    not hashable, so the display raises ([TypeError]), and the call of
    [_simplify_orders] ends there. *)
Definition drop_unit_axes (v : variable)
    (ords : gmap nat (list Axis)) (sds : gmap nat (list (Axis * Z)))
  : option (gmap nat (list Axis) * gmap nat (list (Axis * Z))) :=
  new_axes ← filterM (λ a, n ← getitem (shape_dict v) a;
                           Some (bool_decide (n ≠ 1))) (order v);
  extents ← mapM (getitem (shape_dict v)) new_axes;
  sd ← AxisKeyDict_new new_axes extents;
  if bool_decide (length new_axes = 0%nat ∧ size v = 1)
  then None
  else Some (<[var_id v := new_axes]> ords, <[var_id v := sd]> sds).

(** Lines 51-58. *)
Fixpoint drop_unit_axes_all (vs : list variable)
    (ords : gmap nat (list Axis)) (sds : gmap nat (list (Axis * Z)))
  : option (gmap nat (list Axis) * gmap nat (list (Axis * Z))) :=
  match vs with
  | [] => Some (ords, sds)
  | v :: vs' =>
      '(ords', sds') ← drop_unit_axes v ords sds;
      drop_unit_axes_all vs' ords' sds'
  end.

(** Lines 64-67: the body of the inner loop of the second phase;
    [axis in var_dict] holds exactly when [var_dict[axis]] does not raise. *)
Definition register_axis (v : nat) (vd : list (Axis * gset nat)) (a : Axis)
  : list (Axis * gset nat) :=
  match getitem vd a with
  | Some vars => setitem vd a (vars ∪ {[v]})
  | None => setitem vd a {[v]}
  end.

(** Lines 62-67. *)
Fixpoint list_up_axes (ords : gmap nat (list Axis)) (vs : list variable)
    (vd : list (Axis * gset nat)) : option (list (Axis * gset nat)) :=
  match vs with
  | [] => Some vd
  | v :: vs' =>
      o ← ords !! var_id v;
      list_up_axes ords vs' (foldl (register_axis (var_id v)) vd o)
  end.

(** [any] over a generator: the elements are evaluated one at a time and the
    evaluation stops at the first true one. *)
Fixpoint any_gen {A} (f : A → option bool) (l : list A) : option bool :=
  match l with
  | [] => Some false
  | x :: l' => b ← f x; if b : bool then Some true else any_gen f l'
  end.

(** Line 80, the generator's element:
    [orders[v].axes_dict[axis1] + 1 != orders[v].axes_dict[axis2]]. *)
Definition not_adjacent (ords : gmap nat (list Axis)) (axis1 axis2 : Axis)
    (v : nat) : option bool :=
  o ← ords !! v;
  i ← axes_dict o axis1;
  j ← axes_dict o axis2;
  Some (bool_decide ((i + 1)%nat ≠ j)).

(** Lines 77-82: [true] when the pair is skipped by one of the two
    [continue].  [or] evaluates its right operand only when the left one is
    false.  The members of the Python set [vars1] are visited in the order of
    [elements]. *)
Definition skip_pair (ords : gmap nat (list Axis))
    (axis1 : Axis) (vars1 : gset nat) (axis2 : Axis) (vars2 : gset nat)
  : option bool :=
  if decide (axis1 = axis2) then Some true
  else if decide (vars1 ≠ vars2) then Some true
  else any_gen (not_adjacent ords axis1 axis2) (elements vars1).

(** Lines 76-82: the inner [for], looking for the first [axis2] that is not
    skipped. *)
Fixpoint find_axis2 (ords : gmap nat (list Axis))
    (axis1 : Axis) (vars1 : gset nat) (items : list (Axis * gset nat))
  : option (option Axis) :=
  match items with
  | [] => Some None
  | (axis2, vars2) :: items' =>
      skip ← skip_pair ords axis1 vars1 axis2 vars2;
      if skip : bool then find_axis2 ords axis1 vars1 items'
      else Some (Some axis2)
  end.

(** Lines 75-82: the outer [for] over a snapshot of the items; the first
    pair, in iteration order, that reaches line 84. *)
Fixpoint find_pair_from (ords : gmap nat (list Axis))
    (items1 items : list (Axis * gset nat))
  : option (option (Axis * gset nat * Axis)) :=
  match items1 with
  | [] => Some None
  | (axis1, vars1) :: items1' =>
      r ← find_axis2 ords axis1 vars1 items;
      match r with
      | Some axis2 => Some (Some (axis1, vars1, axis2))
      | None => find_pair_from ords items1' items
      end
  end.

Definition find_pair (st : State)
  : option (option (Axis * gset nat * Axis)) :=
  find_pair_from (orders st) (var_dict st) (var_dict st).

(** Lines 90-93: the update of [shape_dicts[v]], in place. *)
Definition merge_shape_dict (axis1 axis2 axis_new : Axis)
    (sd : list (Axis * Z)) : option (list (Axis * Z)) :=
  n1 ← getitem sd axis1;
  n2 ← getitem sd axis2;
  sd1 ← delitem (setitem sd axis_new (n1 * n2)) axis1;
  delitem sd1 axis2.

(** Lines 95-96: the new order,
    [order.axes[:order.axes_dict[axis1]] + (axis_new,)
       + order.axes[order.axes_dict[axis2] + 1:]]. *)
Definition merge_order (axis1 axis2 axis_new : Axis) (o : list Axis)
  : option (list Axis) :=
  i ← axes_dict o axis1;
  j ← axes_dict o axis2;
  Some (take i o ++ [axis_new] ++ drop (j + 1) o).

(** Lines 90-96: the body of [for v in vars1]. *)
Definition merge_in_variable (axis1 axis2 axis_new : Axis)
    (ords : gmap nat (list Axis)) (sds : gmap nat (list (Axis * Z)))
    (v : nat)
  : option (gmap nat (list Axis) * gmap nat (list (Axis * Z))) :=
  sd ← sds !! v;
  sd' ← merge_shape_dict axis1 axis2 axis_new sd;
  o ← ords !! v;
  o' ← merge_order axis1 axis2 axis_new o;
  Some (<[v := o']> ords, <[v := sd']> sds).

(** Lines 89-96. *)
Fixpoint merge_in_variables (axis1 axis2 axis_new : Axis) (vs : list nat)
    (ords : gmap nat (list Axis)) (sds : gmap nat (list (Axis * Z)))
  : option (gmap nat (list Axis) * gmap nat (list (Axis * Z))) :=
  match vs with
  | [] => Some (ords, sds)
  | v :: vs' =>
      '(ords', sds') ← merge_in_variable axis1 axis2 axis_new ords sds v;
      merge_in_variables axis1 axis2 axis_new vs' ords' sds'
  end.

(** Lines 84-102. *)
Definition merge (st : State) (axis1 : Axis) (vars1 : gset nat)
    (axis2 : Axis) : option State :=
  let axis_new := AxisX (counter st) in
  '(ords, sds) ← merge_in_variables axis1 axis2 axis_new (elements vars1)
                   (orders st) (shape_dicts st);
  vd1 ← delitem (setitem (var_dict st) axis_new vars1) axis1;
  vd2 ← delitem vd1 axis2;
  Some (mkState ords sds vd2 (S (counter st))).

(** One iteration of the [while] loop of lines 72-106: [Some None] when the
    two [for] loops end without a merge ([flag_continue] stays false), the
    state after the merge otherwise. *)
Definition merge_step (st : State) : option (option State) :=
  r ← find_pair st;
  match r with
  | None => Some None
  | Some (axis1, vars1, axis2) => Some <$> merge st axis1 vars1 axis2
  end.

(** Lines 72-106.  A merge removes two keys of [var_dict] and adds at most
    one, so the loop cannot merge more often than [var_dict] has keys: it is
    run with one unit of fuel more ([merge_loop_total] shows that it then
    ends with [flag_continue] false). *)
Fixpoint merge_loop (fuel : nat) (st : State) : option State :=
  match fuel with
  | O => None
  | S fuel' =>
      r ← merge_step st;
      match r with
      | None => Some st
      | Some st' => merge_loop fuel' st'
      end
  end.

(** Lines 46-70: the state when the [while] loop is entered. *)
Definition initial_state (variables : list variable) : option State :=
  '(ords, sds) ← drop_unit_axes_all variables ∅ ∅;
  vd ← list_up_axes ords variables [];
  Some (mkState ords sds vd 0).

Definition _simplify_orders (variables : list variable)
  : option (gmap nat (list Axis) * gmap nat (list (Axis * Z))) :=
  st ← initial_state variables;
  st' ← merge_loop (S (length (var_dict st))) st;
  Some (orders st', shape_dicts st').

(** ** [_optimize_loop_structure] *)

(** A dictionary comprehension [{v: f(v) for v in variables}]: the entries
    are written from left to right, a later one overwriting an earlier one
    with the same key. *)
Fixpoint dict_comp_from {T} (f : variable → option T) (vs : list variable)
    (acc : gmap nat T) : option (gmap nat T) :=
  match vs with
  | [] => Some acc
  | v :: vs' => x ← f v; dict_comp_from f vs' (<[var_id v := x]> acc)
  end.

Definition dict_comp {T} (f : variable → option T) (vs : list variable)
  : option (gmap nat T) := dict_comp_from f vs ∅.

(** Line 124: [[shape_dicts[v][a] for a in orders[v].axes]]. *)
Definition shapes_of (ords : gmap nat (list Axis))
    (sds : gmap nat (list (Axis * Z))) (v : variable) : option (list Z) :=
  o ← ords !! var_id v;
  sd ← sds !! var_id v;
  mapM (getitem sd) o.

(** Line 125: [[mul(shapes[v][i + 1:]) for i in range(v.ndim)]]; a slice that
    starts past the end of the list is empty. *)
Definition strides_of (shapes : gmap nat (list Z)) (v : variable)
  : option (list Z) :=
  sh ← shapes !! var_id v;
  Some ((λ i, mul (drop (i + 1) sh)) <$> seq 0 (ndim v)).

(** Line 126: [AxisKeyDict(orders[v].axes, strides[v])].  Line 125 makes
    [v.ndim] strides, one per axis the Variable came with, while the keys are
    the axes of its simplified order: the constructor raises when the
    simplification has left the Variable fewer axes. *)
Definition stride_dict_of (ords : gmap nat (list Axis))
    (strides : gmap nat (list Z)) (v : variable)
  : option (list (Axis * Z)) :=
  o ← ords !! var_id v;
  st ← strides !! var_id v;
  AxisKeyDict_new o st.

(** [sorted(..., key=...)] is stable: an element is placed before the first
    element whose key is not smaller than its own among those that follow it
    in the input. *)
Fixpoint insert_by_key (x : nat * variable) (l : list (nat * variable))
  : list (nat * variable) :=
  match l with
  | [] => [x]
  | y :: l' =>
      if decide (x.1 ≤ y.1)%nat then x :: y :: l'
      else y :: insert_by_key x l'
  end.

(** Line 130: [sorted(variables, key=lambda v: orders[v].ndim)]; the keys are
    computed first, once per element. *)
Definition sorted_by_ndim (ords : gmap nat (list Axis))
    (vs : list variable) : option (list variable) :=
  keyed ← mapM (λ v, o ← ords !! var_id v; Some (length o, v)) vs;
  Some ((foldr insert_by_key [] keyed).*2).

(** Line 131: [axes += [axis for axis in o if axis not in axes]]; the
    right-hand side of [+=] is evaluated against the [axes] accumulated from
    the Variables before [v]. *)
Definition append_new_axes (axes : list Axis) (o : list Axis) : list Axis :=
  axes ++ filter (λ axis : Axis, axis ∉ axes) o.

(** Lines 129-131. *)
Fixpoint accumulate_axes (ords : gmap nat (list Axis)) (vs : list variable)
    (axes : list Axis) : option (list Axis) :=
  match vs with
  | [] => Some axes
  | v :: vs' =>
      o ← ords !! var_id v;
      accumulate_axes ords vs' (append_new_axes axes o)
  end.

(** Line 133: [list(filter(lambda x: x in o, axes))], the subsequence of
    [axes] made of the axes of the order [o]. *)
Definition restrict_to (o : list Axis) (axes : list Axis) : list Axis :=
  filter (λ x : Axis, x ∈ o) axes.

(** Line 133: the comprehension reads the [orders] of line 123; the name is
    bound to the new dictionary only after the comprehension has ended. *)
Definition reorder (ords : gmap nat (list Axis)) (axes : list Axis)
    (v : variable) : option (list Axis) :=
  o ← ords !! var_id v;
  Some (restrict_to o axes).

(** The global axis sequence [axes] of lines 129-131. *)
Definition global_axes (ords : gmap nat (list Axis))
    (variables : list variable) : option (list Axis) :=
  sorted ← sorted_by_ndim ords variables;
  accumulate_axes ords sorted [].

Definition _optimize_loop_structure (variables : list variable)
  : option (gmap nat (list Axis) * gmap nat (list (Axis * Z))
            * gmap nat (list (Axis * Z))) :=
  '(ords, sds) ← _simplify_orders variables;
  shapes ← dict_comp (shapes_of ords sds) variables;
  strides ← dict_comp (strides_of shapes) variables;
  stride_dicts ← dict_comp (stride_dict_of ords strides) variables;
  axes ← global_axes ords variables;
  ords' ← dict_comp (reorder ords axes) variables;
  Some (ords', sds, stride_dicts).

(** ** The uniforms of the [elementwise_add] handler *)

(** Line 176: ["W": y.size if y.size < 1024 else 1024]. *)
Definition uniform_W (y_size : Z) : Z :=
  if decide (y_size < 1024) then y_size else 1024.

(** Line 177: ["H": (y.size + 1024 - 1) // 1024]; [//] rounds towards
    minus infinity, as [Z.div] does. *)
Definition uniform_H (y_size : Z) : Z := (y_size + 1024 - 1) `div` 1024.

(** ** Vocabulary of the statements *)

(** The invariant of the [while] loop: every order has distinct axes and is
    the key set of the shape dictionary of its Variable; [var_dict] has one
    entry per axis in use, holding the Variables whose order has the axis;
    the axes [AxisX k] in use have [k] below [counter]. *)
Record Inv (st : State) : Prop := mkInv {
  inv_nodup : ∀ v o, orders st !! v = Some o → NoDup o;
  inv_shape : ∀ v o, orders st !! v = Some o →
    ∃ sd, shape_dicts st !! v = Some sd ∧ sd.*1 ≡ₚ o;
  inv_keys : NoDup (var_dict st).*1;
  inv_members : ∀ a vars, getitem (var_dict st) a = Some vars →
    ∀ v, v ∈ vars ↔ ∃ o, orders st !! v = Some o ∧ a ∈ o;
  inv_cover : ∀ v o a,
    orders st !! v = Some o → a ∈ o → a ∈ (var_dict st).*1;
  inv_fresh : ∀ k, AxisX k ∈ (var_dict st).*1 → (k < counter st)%nat
}.

(** The effect of one merge on the orders and the shape dictionaries: the
    Variables outside [vars1] keep theirs; in those of [vars1] the adjacent
    pair [a1], [a2] is replaced by the new axis, and the product of the
    extents is kept. *)
Definition merged_from (st st' : State) (a1 a2 : Axis) (vars1 : gset nat)
  : Prop :=
  (∀ v, v ∉ vars1 →
     orders st' !! v = orders st !! v ∧
     shape_dicts st' !! v = shape_dicts st !! v) ∧
  (∀ v, v ∈ vars1 →
     ∃ pre post sd sd',
       orders st !! v = Some (pre ++ a1 :: a2 :: post) ∧
       orders st' !! v = Some (pre ++ AxisX (counter st) :: post) ∧
       shape_dicts st !! v = Some sd ∧
       shape_dicts st' !! v = Some sd' ∧
       mul sd'.*2 = mul sd.*2).

(** One turn of the [while] loop that merges, and the states the loop goes
    through. *)
Definition merges_to (st st' : State) : Prop :=
  merge_step st = Some (Some st').

Definition visits (st0 st : State) : Prop := rtc merges_to st0 st.

(** The axes that exist before the call. *)
Definition is_given (a : Axis) : Prop :=
  match a with AxisGiven _ => True | _ => False end.

#[global] Instance is_given_dec a : Decision (is_given a).
Proof. destruct a; simpl; apply _. Defined.

#[global] Instance variable_eq_dec : EqDecision variable.
Proof. solve_decision. Defined.

(** The Variables a caller can pass: the axes of an Order are distinct
    (section 3) and exist before the call, and two entries of the list with
    the same identity are the same object. *)
Definition wf_variables (vs : list variable) : Prop :=
  Forall (λ v, NoDup (order v) ∧ Forall is_given (order v)) vs ∧
  Forall (λ v, Forall (λ w, var_id v = var_id w → v = w) vs) vs.

(** The entries of a Variable whose extent is not 1: its simplified shape
    dictionary before any merge. *)
Definition kept (v : variable) : list (Axis * Z) :=
  filter (λ p : Axis * Z, p.2 ≠ 1) (shape_dict v).

(** No Variable of the list is left without an axis once its unit axes are
    dropped: each has an extent that is not 1.  (A Variable that is left
    without an axis has the element count 1, and line 58 raises for it.) *)
Definition nonscalar (vs : list variable) : Prop :=
  Forall (λ v, kept v ≠ []) vs.

(** [var_dict] holds exactly the pairs of a relation between Variables and
    axes. *)
Definition VD (vd : list (Axis * gset nat)) (S : nat → Axis → Prop) : Prop :=
  NoDup vd.*1 ∧
  (∀ a, a ∈ vd.*1 ↔ ∃ v, S v a) ∧
  (∀ a vars, getitem vd a = Some vars → ∀ v, v ∈ vars ↔ S v a).

(** The Variables of the examples: the tensors of the docstring of
    [_simplify_orders] (axes N, H, W, C are 0, 1, 2, 3), two tensors with
    unit extents only, a tensor with one unit extent, and tensors with the
    same axes in different orders. *)
Definition nhwc : variable :=
  mkVariable 2 [(AxisGiven 0, 2); (AxisGiven 1, 5); (AxisGiven 2, 6);
                (AxisGiven 3, 4)].

Definition hw : variable := mkVariable 1 [(AxisGiven 1, 5); (AxisGiven 2, 6)].

Definition c : variable := mkVariable 0 [(AxisGiven 3, 4)].

Definition ones : variable := mkVariable 3 [(AxisGiven 0, 1); (AxisGiven 3, 1)].

Definition unit_c : variable := mkVariable 4 [(AxisGiven 3, 1)].

Definition batch1 : variable :=
  mkVariable 5 [(AxisGiven 0, 1); (AxisGiven 1, 5); (AxisGiven 2, 6);
                (AxisGiven 3, 4)].

(** The state in which the loop is entered for [c], [hw] and [nhwc], and the
    state after its first merge. *)
Definition example_state0 : State :=
  default (mkState ∅ ∅ [] 0) (initial_state [c; hw; nhwc]).

Definition example_state1 : State :=
  default example_state0 (merge_step example_state0 ≫= id).

(** A stride dictionary is row-major for an order and a shape dictionary:
    the stride of an axis is the product of the extents of the axes after
    it. *)
Definition row_major (o : list Axis) (sd strides : list (Axis * Z)) : Prop :=
  ∀ i a, o !! i = Some a →
    ∃ exts, mapM (getitem sd) (drop (S i) o) = Some exts ∧
            getitem strides a = Some (mul exts).

Definition ab : variable := mkVariable 0 [(AxisGiven 0, 2); (AxisGiven 1, 3)].

Definition ba : variable := mkVariable 1 [(AxisGiven 1, 3); (AxisGiven 0, 2)].

Definition cab : variable :=
  mkVariable 2 [(AxisGiven 2, 4); (AxisGiven 0, 2); (AxisGiven 1, 3)].

(** The order [_simplify_orders] returns for a Variable of the list. *)
Definition simplified_order (vs : list variable) (v : variable)
  : option (list Axis) :=
  '(ords, _) ← _simplify_orders vs; ords !! var_id v.

(** The order [_optimize_loop_structure] returns for a Variable of the
    list. *)
Definition final_order (vs : list variable) (v : variable)
  : option (list Axis) :=
  '(ords', _, _) ← _optimize_loop_structure vs; ords' !! var_id v.

(** [_simplify_orders] returns and leaves every Variable of the list the
    order it came with: no axis is dropped and no pair of axes is merged.
    (On any other list line 126 is given fewer axes than strides, and
    raises.) *)
Definition keeps_orders (vs : list variable) : Prop :=
  is_Some (_simplify_orders vs) ∧
  Forall (λ v, simplified_order vs v = Some (order v)) vs.

(** [a] comes before [b] in the sequence [l]. *)
Definition precedes (l : list Axis) (a b : Axis) : Prop :=
  ∃ l1 l2 l3, l = l1 ++ a :: l2 ++ b :: l3.

(** ** Vocabulary of the further properties *)

(** The entries of the shape dictionaries before and after one merge. *)
Definition merged_entries (st st' : State) (a1 a2 : Axis) (vars1 : gset nat)
  : Prop :=
  ∀ v, v ∈ vars1 →
    ∃ sd sd' rest n1 n2,
      shape_dicts st !! v = Some sd ∧
      shape_dicts st' !! v = Some sd' ∧
      sd ≡ₚ (a1, n1) :: (a2, n2) :: rest ∧
      sd' ≡ₚ (AxisX (counter st), n1 * n2) :: rest.

(** Every extent of every Variable is positive. *)
Definition positive_extents (vs : list variable) : Prop :=
  Forall (λ v, Forall (λ n, 0 < n) (shape v)) vs.

(** The Variables all have the same shape dictionary: the same axes in the
    same sequence, with the same extents. *)
Definition same_layout (vs : list variable) : Prop :=
  Forall (λ v, Forall (λ w, shape_dict v = shape_dict w) vs) vs.

(** A second Variable of the layout of [nhwc]. *)
Definition nhwc_twin : variable :=
  mkVariable 7 [(AxisGiven 0, 2); (AxisGiven 1, 5); (AxisGiven 2, 6);
                (AxisGiven 3, 4)].

(** The flat offset of the element at the coordinates [coord] (one
    coordinate per axis): the sum over the axes of [o] of coordinate times
    stride, as the loop nest over [o] addresses the buffer. *)
Fixpoint flat_offset (strides : list (Axis * Z)) (coord : Axis → Z)
    (o : list Axis) : option Z :=
  match o with
  | [] => Some 0
  | a :: o' =>
      s ← getitem strides a;
      r ← flat_offset strides coord o';
      Some (coord a * s + r)
  end.

(** The coordinates [coord] are within the extents of [sd]. *)
Definition in_bounds (sd : list (Axis * Z)) (coord : Axis → Z) : Prop :=
  Forall (λ e : Axis * Z, 0 ≤ coord e.1 < e.2) sd.

End ElementwiseAdd.

Module InsertChannelModeConversion.

(** ** Data model *)

Inductive ChannelModeEnum : Type := R | RGBA.

#[global] Instance ChannelModeEnum_eq_dec : EqDecision ChannelModeEnum.
Proof. solve_decision. Defined.

(** The classes [optimize] tells apart with [isinstance]; [Generic] stands
    for every other class. *)
Inductive OperatorClass : Type :=
  | Sgemm
  | ConvertRGBAtoR
  | ConvertRtoRGBA
  | Generic.

#[global] Instance OperatorClass_eq_dec : EqDecision OperatorClass.
Proof. solve_decision. Defined.

(** Modelled from the spec: the class [Variable] of [webdnn.graph.variable]
    and the attribute [ChannelMode] are not among the sources; a Variable is
    "an Order, ... extent, ... and a packing-format attribute (one of R ... or
    RGBA)" (section 3).  The order is a sequence of axis identifiers. *)
Record variable : Type := mkVariable {
  shape : list Z;
  order : list nat;
  channel_mode : ChannelModeEnum
}.

(** Modelled from the spec: the class [Operator] of [webdnn.graph.operator]
    is not among the sources; it is "a named computation with a mapping from
    parameter name to input Variable and from parameter name to output
    Variable" (section 3).  The two dictionaries keep their insertion order
    and hold references to Variables of the store. *)
Record Operator : Type := mkOperator {
  op_class : OperatorClass;
  inputs : list (string * nat);
  outputs : list (string * nat)
}.

(** The objects of the graph: a reference to a Variable or to an Operator is
    its position in the store, a new object is put at the end. *)
Record Store : Type := mkStore {
  variables : list variable;
  operators : list Operator
}.

(** State and exceptions: a computation changes the store and returns a
    value, or raises ([None]). *)
Definition M (A : Type) : Type := Store → option (A * Store).

#[global] Instance M_ret : MRet M := λ A x s, Some (x, s).
#[global] Instance M_bind : MBind M :=
  λ A B f m s, match m s with Some (x, s') => f x s' | None => None end.

Definition get_store : M Store := λ s, Some (s, s).
Definition put_store (s : Store) : M unit := λ _, Some (tt, s).
Definition raise {A} : M A := λ _, None.
Definition lift {A} (o : option A) : M A :=
  λ s, match o with Some x => Some (x, s) | None => None end.

(** [d[name]] on a dictionary of references. *)
Fixpoint dict_get (d : list (string * nat)) (name : string) : option nat :=
  match d with
  | [] => None
  | (k, v) :: d' => if decide (k = name) then Some v else dict_get d' name
  end.

(** The first entry of a dictionary that refers to [v_old] is taken out:
    its name, and the entries that are left. *)
Fixpoint pop_reference (d : list (string * nat)) (v_old : nat)
  : option (string * list (string * nat)) :=
  match d with
  | [] => None
  | (k, v) :: d' =>
      if decide (v = v_old) then Some (k, d')
      else '(name, rest) ← pop_reference d' v_old; Some (name, (k, v) :: rest)
  end.

(** Rewiring of the first entry of a dictionary that refers to [v_old]: the
    entry is removed and its name is added again, for [v_new]; the name is
    then the last key of the dictionary. *)
Definition rewire (d : list (string * nat)) (v_old v_new : nat)
  : option (list (string * nat)) :=
  '(name, rest) ← pop_reference d v_old; Some (rest ++ [(name, v_new)]).

(** Rewiring of every entry of a dictionary that refers to [v_old]. *)
Definition rewire_all (d : list (string * nat)) (v_old v_new : nat)
  : list (string * nat) :=
  (λ e : string * nat, if decide (e.2 = v_old) then (e.1, v_new) else e) <$> d.

Definition get_operator (op : nat) : M Operator :=
  s ← get_store; lift (operators s !! op).

Definition get_variable (v : nat) : M variable :=
  s ← get_store; lift (variables s !! v).

Definition set_operator (op : nat) (o : Operator) : M unit :=
  s ← get_store;
  put_store (mkStore (variables s) (<[op := o]> (operators s))).

(** [op.inputs[var_name]] and [op.outputs[var_name]]. *)
Definition op_input (op : nat) (var_name : string) : M nat :=
  o ← get_operator op; lift (dict_get (inputs o) var_name).

Definition op_output (op : nat) (var_name : string) : M nat :=
  o ← get_operator op; lift (dict_get (outputs o) var_name).

(** Modelled from the spec: [ChannelMode.get] reads the packing-format
    attribute of a Variable, [ChannelMode.set] writes it. *)
Definition ChannelMode_get (v : nat) : M ChannelModeEnum :=
  x ← get_variable v; mret (channel_mode x).

Definition ChannelMode_set (v : nat) (mode : ChannelModeEnum) : M unit :=
  x ← get_variable v;
  s ← get_store;
  put_store (mkStore (<[v := mkVariable (shape x) (order x) mode]> (variables s))
                     (operators s)).

(** Modelled from the spec: the constructor [Variable(shape, order)] makes a
    new Variable; its format is R, "the default/baseline format" (section
    4.4), until it is set. *)
Definition Variable_new (sh : list Z) (o : list nat) : M nat :=
  s ← get_store;
  _ ← put_store (mkStore (variables s ++ [mkVariable sh o R]) (operators s));
  mret (length (variables s)).

(** Modelled from the spec: [Operator.replace_input] and
    [Operator.replace_output] are not among the sources; they "rewire the
    consuming Operator's input reference from the old Variable to the new
    one", and the producing Operator's output reference likewise (section
    4.4).  They look up the name under which the Operator holds the old
    Variable, remove that entry and add the name again with the new Variable,
    so that the rewired name becomes the last key; they raise when the
    Operator holds no reference to the old Variable. *)
Definition replace_input (op v_old v_new : nat) : M unit :=
  o ← get_operator op;
  ins ← lift (rewire (inputs o) v_old v_new);
  set_operator op (mkOperator (op_class o) ins (outputs o)).

Definition replace_output (op v_old v_new : nat) : M unit :=
  o ← get_operator op;
  outs ← lift (rewire (outputs o) v_old v_new);
  set_operator op (mkOperator (op_class o) (inputs o) outs).

(** The format a conversion node is declared to produce. *)
Definition produced_mode (c : OperatorClass) : ChannelModeEnum :=
  match c with
  | ConvertRtoRGBA => RGBA
  | _ => R
  end.

(** Modelled from the spec: the call [ConvertRtoRGBA(None)(x)] or
    [ConvertRGBAtoR(None)(x)] is not among the sources; it constructs "a new
    conversion Operator consuming the existing Variable and producing a fresh
    Variable with format F" (section 4.4), of the shape and order of [x],
    under the names [x0] and [y] that [optimize] reads.  The call returns the
    1-tuple of the result; the reference to the new Operator is returned as
    well, for the statements about it. *)
Definition convert_call (c : OperatorClass) (x : nat) : M (nat * nat) :=
  vx ← get_variable x;
  y ← Variable_new (shape vx) (order vx);
  _ ← ChannelMode_set y (produced_mode c);
  s ← get_store;
  _ ← put_store (mkStore (variables s)
        (operators s ++ [mkOperator c [("x0"%string, x)] [("y"%string, y)]]));
  mret (y, length (operators s)).

(** Modelled from the spec: [Variable.replace] is not among the sources;
    [y.replace(v)] makes [v] take the place of [y] in the graph: the
    conversion's result "takes over the original Variable's identity"
    (section 4.4), every reference to [y], as an output or as an input,
    becoming a reference to [v]. *)
Definition Variable_replace (y v : nat) : M unit :=
  s ← get_store;
  put_store (mkStore (variables s)
    ((λ o : Operator, mkOperator (op_class o) (rewire_all (inputs o) y v)
                        (rewire_all (outputs o) y v)) <$> operators s)).

(** ** The rule *)

(** Lines 14-34. *)
Definition _replace_input (op : nat) (var_name : string)
    (target : ChannelModeEnum) : M bool :=
  v ← op_input op var_name;
  mode ← ChannelMode_get v;
  if decide (mode = target) then mret false
  else
    '(v_new, _) ← (if decide (target = RGBA) then convert_call ConvertRtoRGBA v
                   else convert_call ConvertRGBAtoR v);
    _ ← replace_input op v v_new;
    mret true.

(** Lines 37-60. *)
Definition _replace_output (op : nat) (var_name : string)
    (target : ChannelModeEnum) : M bool :=
  v ← op_output op var_name;
  mode ← ChannelMode_get v;
  if decide (mode = target) then mret false
  else
    x ← get_variable v;
    v_new ← Variable_new (shape x) (order x);
    _ ← ChannelMode_set v_new target;
    _ ← replace_output op v v_new;
    '(y, _) ← (if decide (target = RGBA) then convert_call ConvertRGBAtoR v_new
               else convert_call ConvertRtoRGBA v_new);
    _ ← Variable_replace y v;
    mret true.

(** [any] over a generator: the calls are made one at a time, and none is
    made after the first that returns true. *)
Fixpoint any_gen {A} (f : A → M bool) (l : list A) : M bool :=
  match l with
  | [] => mret false
  | x :: l' => b ← f x; if b : bool then mret true else any_gen f l'
  end.

(** Lines 63-64.  The keys are those of the dictionary when the call starts:
    the dictionary is not written before a call of [_replace_input] returns
    true, and the iteration ends there. *)
Definition _replace_input_all (op : nat) (target : ChannelModeEnum) : M bool :=
  o ← get_operator op;
  any_gen (λ var_name, _replace_input op var_name target) (inputs o).*1.

(** Lines 67-68. *)
Definition _replace_output_all (op : nat) (target : ChannelModeEnum) : M bool :=
  o ← get_operator op;
  any_gen (λ var_name, _replace_output op var_name target) (outputs o).*1.

(** Lines 75-88, the body of the loop: [flag_changed |= f()] calls [f]
    whatever the flag is. *)
Definition optimize_operator (op : nat) (flag_changed : bool) : M bool :=
  o ← get_operator op;
  match op_class o with
  | Sgemm => mret flag_changed
  | ConvertRGBAtoR =>
      b1 ← _replace_input op "x0" RGBA;
      b2 ← _replace_output op "y" R;
      mret (flag_changed || b1 || b2)
  | ConvertRtoRGBA =>
      b1 ← _replace_input op "x0" R;
      b2 ← _replace_output op "y" RGBA;
      mret (flag_changed || b1 || b2)
  | Generic =>
      b1 ← _replace_input_all op R;
      b2 ← _replace_output_all op R;
      mret (flag_changed || b1 || b2)
  end.

(** Lines 74-88: the loop over the operators listed before it starts. *)
Fixpoint optimize_loop (ops : list nat) (flag_changed : bool) : M bool :=
  match ops with
  | [] => mret flag_changed
  | op :: ops' =>
      flag ← optimize_operator op flag_changed;
      optimize_loop ops' flag
  end.

(** Lines 72-90.  [traverse.listup_operators] is not among the sources: its
    result, the list of the operators of the graph, is the argument
    [listed]; the graph returned is the store. *)
Definition optimize (listed : list nat) : M bool :=
  optimize_loop listed false.

(** ** Vocabulary of the statements *)

(** The channel mode of the Variable a reference points to. *)
Definition mode_of (s : Store) (v : nat) : option ChannelModeEnum :=
  channel_mode <$> variables s !! v.

(** Every reference held by an Operator points to a Variable of the
    store. *)
Definition wf_store (s : Store) : Prop :=
  Forall (λ o : Operator,
            Forall (λ e : string * nat, (e.2 < length (variables s))%nat)
                   (inputs o ++ outputs o))
         (operators s).

(** Lines 56-59: the class of the conversion node [_replace_output]
    constructs. *)
Definition spliced_class (target : ChannelModeEnum) : OperatorClass :=
  if decide (target = RGBA) then ConvertRGBAtoR else ConvertRtoRGBA.

(** The number of output references of an Operator to the Variable [v], and
    the graph invariant of section 3 for [v]: the Operator [p] refers to it
    as an output once, and no other Operator does. *)
Definition output_count (v : nat) (o : Operator) : nat :=
  length (filter (λ e : string * nat, e.2 = v) (outputs o)).

Definition sole_producer (s : Store) (v p : nat) : Prop :=
  output_count v <$> operators s =
  <[p := 1%nat]> (replicate (length (operators s)) 0%nat).

(** The channel modes the rule asks of an Operator, by class. *)
Definition satisfied (s : Store) (o : Operator) : Prop :=
  match op_class o with
  | Sgemm => True
  | ConvertRGBAtoR =>
      (∃ x0, dict_get (inputs o) "x0" = Some x0 ∧ mode_of s x0 = Some RGBA) ∧
      (∃ y, dict_get (outputs o) "y" = Some y ∧ mode_of s y = Some R)
  | ConvertRtoRGBA =>
      (∃ x0, dict_get (inputs o) "x0" = Some x0 ∧ mode_of s x0 = Some R) ∧
      (∃ y, dict_get (outputs o) "y" = Some y ∧ mode_of s y = Some RGBA)
  | Generic =>
      (∀ name v, dict_get (inputs o) name = Some v → mode_of s v = Some R) ∧
      (∀ name v, dict_get (outputs o) name = Some v → mode_of s v = Some R)
  end.

(** The graphs of the examples: a graph the rule leaves as it is; a graph
    where the first Operator writes an RGBA Variable that the second reads,
    before and after the splice on that output; a generic Operator with two
    RGBA inputs. *)
Definition converged_store : Store :=
  mkStore
    [mkVariable [2; 3] [0; 1]%nat R; mkVariable [2; 3] [0; 1]%nat R;
     mkVariable [2; 3] [0; 1]%nat RGBA; mkVariable [3; 3] [0; 1]%nat RGBA]
    [mkOperator Generic [("x0"%string, 0%nat)] [("y"%string, 1%nat)];
     mkOperator ConvertRtoRGBA [("x0"%string, 1%nat)] [("y"%string, 2%nat)];
     mkOperator Sgemm [("A"%string, 2%nat)] [("C"%string, 3%nat)]].

Definition rgba_output_store : Store :=
  mkStore
    [mkVariable [2; 3] [0; 1]%nat R; mkVariable [2; 3] [0; 1]%nat RGBA;
     mkVariable [3] [1]%nat R]
    [mkOperator Generic [("x0"%string, 0%nat)] [("y"%string, 1%nat)];
     mkOperator Generic [("x0"%string, 1%nat)] [("y"%string, 2%nat)]].

Definition rgba_output_store_spliced : Store :=
  mkStore
    [mkVariable [2; 3] [0; 1]%nat R; mkVariable [2; 3] [0; 1]%nat RGBA;
     mkVariable [3] [1]%nat R; mkVariable [2; 3] [0; 1]%nat R;
     mkVariable [2; 3] [0; 1]%nat RGBA]
    [mkOperator Generic [("x0"%string, 0%nat)] [("y"%string, 3%nat)];
     mkOperator Generic [("x0"%string, 1%nat)] [("y"%string, 2%nat)];
     mkOperator ConvertRtoRGBA [("x0"%string, 3%nat)] [("y"%string, 1%nat)]].

Definition two_rgba_inputs_store : Store :=
  mkStore
    [mkVariable [2; 3] [0; 1]%nat RGBA; mkVariable [2; 3] [0; 1]%nat RGBA;
     mkVariable [2; 3] [0; 1]%nat R]
    [mkOperator Generic [("x0"%string, 0%nat); ("x1"%string, 1%nat)]
                        [("y"%string, 2%nat)]].

(** ** Vocabulary of the further properties *)

(** Lines 29-32: the class of the conversion node [_replace_input]
    constructs. *)
Definition inserted_class (target : ChannelModeEnum) : OperatorClass :=
  if decide (target = RGBA) then ConvertRtoRGBA else ConvertRGBAtoR.

(** The graph after [_replace_input] has spliced a conversion on the
    reference of the Operator [op] to [v]. *)
Definition input_spliced (s : Store) (op : nat) (o : Operator) (v : nat)
    (x : variable) (ins : list (string * nat)) (target : ChannelModeEnum)
  : Store :=
  mkStore
    (variables s ++ [mkVariable (shape x) (order x) target])
    (<[op := mkOperator (op_class o) ins (outputs o)]> (operators s) ++
       [mkOperator (inserted_class target)
          [("x0"%string, v)] [("y"%string, length (variables s))]]).

(** The graph after [_replace_output] has spliced a conversion on the
    reference of the Operator [op] to [v]. *)
Definition output_spliced (s : Store) (op : nat) (o : Operator) (v : nat)
    (x : variable) (outs : list (string * nat)) (target : ChannelModeEnum)
  : Store :=
  mkStore
    (variables s ++
       [mkVariable (shape x) (order x) target;
        mkVariable (shape x) (order x) (produced_mode (spliced_class target))])
    (<[op := mkOperator (op_class o) (inputs o) outs]> (operators s) ++
       [mkOperator (spliced_class target)
          [("x0"%string, length (variables s))] [("y"%string, v)]]).

(** The modes [optimize] asks of the inputs and of the outputs of an
    Operator of a class (lines 78-88). *)
Definition wanted_input (c : OperatorClass) : ChannelModeEnum :=
  match c with ConvertRGBAtoR => RGBA | _ => R end.

Definition wanted_output (c : OperatorClass) : ChannelModeEnum :=
  match c with ConvertRtoRGBA => RGBA | _ => R end.

(** One splice of a conversion on a reference of the Operator [op], as
    [optimize] makes it: towards the mode it asks of the class of [op]. *)
Inductive splice (op : nat) (s : Store) : Store → Prop :=
  | splice_input o v x ins :
      operators s !! op = Some o →
      op_class o ≠ Sgemm →
      variables s !! v = Some x →
      channel_mode x ≠ wanted_input (op_class o) →
      rewire (inputs o) v (length (variables s)) = Some ins →
      splice op s (input_spliced s op o v x ins (wanted_input (op_class o)))
  | splice_output o v x outs :
      operators s !! op = Some o →
      op_class o ≠ Sgemm →
      variables s !! v = Some x →
      channel_mode x ≠ wanted_output (op_class o) →
      rewire (outputs o) v (length (variables s)) = Some outs →
      splice op s (output_spliced s op o v x outs (wanted_output (op_class o))).

(** The references of an Operator that are not in the mode [optimize] asks
    of its class, and their number over the graph. *)
Definition bad_refs (s : Store) (o : Operator) : nat :=
  match op_class o with
  | Sgemm => 0
  | c =>
      length (filter (λ e : string * nat,
                        mode_of s e.2 ≠ Some (wanted_input c)) (inputs o)) +
      length (filter (λ e : string * nat,
                        mode_of s e.2 ≠ Some (wanted_output c)) (outputs o))
  end%nat.

Definition unsatisfied (s : Store) : nat := sum_list (bad_refs s <$> operators s).

(** One splice on a listed Operator. *)
Definition splices (listed : list nat) (s s' : Store) : Prop :=
  ∃ op, op ∈ listed ∧ splice op s s'.

(** Every reference of the Operator is in the mode [optimize] asks of its
    class. *)
Definition all_converted (s : Store) (o : Operator) : Prop :=
  Forall (λ e : string * nat,
            mode_of s e.2 = Some (wanted_input (op_class o))) (inputs o) ∧
  Forall (λ e : string * nat,
            mode_of s e.2 = Some (wanted_output (op_class o))) (outputs o).

(** The graph [two_rgba_inputs_store] after one pass: a [ConvertRGBAtoR]
    has been spliced on the input [x0] of the Operator, and on no other; the
    rewired name [x0] is now the last key of its inputs. *)
Definition two_rgba_inputs_store_pass : Store :=
  mkStore
    [mkVariable [2; 3] [0; 1]%nat RGBA; mkVariable [2; 3] [0; 1]%nat RGBA;
     mkVariable [2; 3] [0; 1]%nat R; mkVariable [2; 3] [0; 1]%nat R]
    [mkOperator Generic [("x1"%string, 1%nat); ("x0"%string, 3%nat)]
                        [("y"%string, 2%nat)];
     mkOperator ConvertRGBAtoR [("x0"%string, 0%nat)] [("y"%string, 3%nat)]].

(** [n] passes in a row that each return the flag [True], each over the
    Operators listed for it. *)
Inductive true_passes : nat → Store → Store → Prop :=
  | true_passes_O s : true_passes 0 s s
  | true_passes_S n listed s s1 s2 :
      optimize listed s = Some (true, s1) →
      true_passes n s1 s2 →
      true_passes (S n) s s2.

End InsertChannelModeConversion.

(** * Properties of the loop-structure simplification *)

Module ElementwiseAddSpec.
Import ElementwiseAdd.

(** ** Dictionaries and orders *)

Section dictionaries.
Context {T : Type}.
Implicit Types (d : list (Axis * T)) (a b : Axis) (x : T).

Lemma getitem_elem_of d a x : getitem d a = Some x → (a, x) ∈ d.
Proof.
  induction d as [|[k y] d IH]; simpl; [done|].
  case_decide as Hk.
  - intros [= ->]. subst. apply elem_of_cons. by left.
  - intros H. apply elem_of_cons. right. by apply IH.
Qed.

Lemma getitem_None d a : getitem d a = None ↔ a ∉ d.*1.
Proof.
  induction d as [|[k y] d IH]; simpl.
  - split; [intros _; apply not_elem_of_nil | done].
  - rewrite not_elem_of_cons. case_decide as Hk.
    + split; [done|]. intros [? _]. by subst.
    + rewrite IH. split; [by intros; split; [congruence|]|by intros [_ ?]].
Qed.

Lemma getitem_is_Some d a : is_Some (getitem d a) ↔ a ∈ d.*1.
Proof.
  rewrite <- not_eq_None_Some, getitem_None.
  destruct (decide (a ∈ d.*1)); naive_solver.
Qed.

Lemma elem_of_getitem d a x : NoDup d.*1 → (a, x) ∈ d → getitem d a = Some x.
Proof.
  induction d as [|[k y] d IH]; simpl; [by intros _ ?%elem_of_nil|].
  intros [Hk Hd]%NoDup_cons [[= -> ->]|Hin]%elem_of_cons.
  - by rewrite decide_True.
  - rewrite decide_False; [by apply IH|].
    intros ->. apply Hk. apply list_elem_of_fmap. by exists (a, x).
Qed.

Lemma getitem_setitem d a b x :
  getitem (setitem d a x) b = if decide (a = b) then Some x else getitem d b.
Proof.
  induction d as [|[k y] d IH]; simpl.
  - repeat case_decide; naive_solver.
  - repeat (case_decide; simpl; subst); try done.
Qed.

Lemma setitem_fresh d a x : a ∉ d.*1 → setitem d a x = d ++ [(a, x)].
Proof.
  induction d as [|[k y] d IH]; simpl; [done|].
  intros [Hk Hd]%not_elem_of_cons. rewrite decide_False by done.
  by rewrite IH.
Qed.

Lemma setitem_keys d a x : a ∈ d.*1 → (setitem d a x).*1 = d.*1.
Proof.
  induction d as [|[k y] d IH]; simpl; [by intros ?%elem_of_nil|].
  case_decide as Hk; [done|]. intros [?|Hin]%elem_of_cons; [done|].
  simpl. f_equal. by apply IH.
Qed.

Lemma delitem_Some d a x :
  getitem d a = Some x →
  ∃ d1 d2, d = d1 ++ ((a, x) :: d2) ∧ (a ∉ d1.*1) ∧
           delitem d a = Some (d1 ++ d2).
Proof.
  induction d as [|[k y] d IH]; simpl; [done|].
  case_decide as Hk.
  - intros [= ->]. subst. exists [], d. split; [done|].
    split; [apply not_elem_of_nil|done].
  - intros (d1 & d2 & -> & Hd1 & ->)%IH. exists ((k, y) :: d1), d2.
    split; [done|]. split; [|done]. simpl. apply not_elem_of_cons. done.
Qed.

Lemma getitem_app d1 d2 a :
  getitem (d1 ++ d2) a =
  match getitem d1 a with Some x => Some x | None => getitem d2 a end.
Proof.
  induction d1 as [|[k y] d1 IH]; simpl; [done|]. by case_decide.
Qed.
End dictionaries.

(** [axes_dict] gives the position of the first occurrence of an axis. *)
Lemma axes_dict_Some o a i :
  axes_dict o a = Some i → o !! i = Some a ∧ a ∉ take i o.
Proof.
  revert i. induction o as [|k o IH]; intros i; simpl; [done|].
  case_decide as Hk.
  - intros [= <-]. subst. split; [done|apply not_elem_of_nil].
  - destruct (axes_dict o a) as [j|]; [|done]. simpl. intros [= <-].
    destruct (IH j eq_refl) as [Hj Hn]. split; [done|].
    simpl. apply not_elem_of_cons. done.
Qed.

Lemma axes_dict_is_Some o a : a ∈ o → is_Some (axes_dict o a).
Proof.
  induction o as [|k o IH]; simpl; [by intros ?%elem_of_nil|].
  case_decide as Hk; [by eexists|].
  intros [?|Hin]%elem_of_cons; [done|].
  destruct (IH Hin) as [j ->]. by eexists.
Qed.

Lemma axes_dict_lookup o a i :
  NoDup o → o !! i = Some a → axes_dict o a = Some i.
Proof.
  intros Hnd Hi.
  destruct (axes_dict_is_Some o a) as [j Hj]; [by eapply list_elem_of_lookup_2|].
  destruct (axes_dict_Some _ _ _ Hj) as [Hj' _].
  by rewrite (NoDup_lookup _ _ _ _ Hnd Hi Hj').
Qed.

(** Adjacent positions: the order splits around the two axes. *)
Lemma adjacent_split o a1 a2 i :
  axes_dict o a1 = Some i → axes_dict o a2 = Some (i + 1)%nat →
  o = take i o ++ a1 :: a2 :: drop (i + 1 + 1) o.
Proof.
  intros [H1 _]%axes_dict_Some [H2 _]%axes_dict_Some.
  rewrite <- (take_drop i o) at 1. f_equal.
  rewrite (drop_S _ _ _ H1). f_equal.
  rewrite Nat.add_1_r in H2. rewrite (drop_S _ _ _ H2). f_equal.
  f_equal. lia.
Qed.

(** The product of the extents does not depend on their order. *)
Lemma mul_perm l l' : l ≡ₚ l' → mul l = mul l'.
Proof.
  unfold mul. induction 1 as [|x l l' _ IH|x y l|l1 l2 l3 _ IH1 _ IH2]; simpl;
    [done|by rewrite IH|lia|congruence].
Qed.

Lemma mul_app l1 l2 : mul (l1 ++ l2) = mul l1 * mul l2.
Proof. unfold mul. induction l1 as [|x l1 IH]; simpl; [lia|]. rewrite IH. lia. Qed.

(** ** The search for a pair to merge *)

(** [any] is false when every element is, and does not raise when no
    element does. *)
Lemma any_gen_false {A} (f : A → option bool) l :
  any_gen f l = Some false → ∀ x, x ∈ l → f x = Some false.
Proof.
  induction l as [|y l IH]; simpl; [by intros _ x ?%elem_of_nil|].
  destruct (f y) as [[]|] eqn:Hy; simpl; [done| |done].
  intros Hl x [->|Hx]%elem_of_cons; [done|by apply IH].
Qed.

Lemma any_gen_is_Some {A} (f : A → option bool) l :
  (∀ x, x ∈ l → is_Some (f x)) → is_Some (any_gen f l).
Proof.
  induction l as [|y l IH]; intros Hf; simpl; [by eexists|].
  destruct (Hf y ltac:(by left)) as [[] ->]; simpl; [by eexists|].
  apply IH. intros x Hx. apply Hf. by right.
Qed.

Lemma not_adjacent_false ords a1 a2 v :
  not_adjacent ords a1 a2 v = Some false →
  ∃ o i, ords !! v = Some o ∧ axes_dict o a1 = Some i ∧
         axes_dict o a2 = Some (i + 1)%nat.
Proof.
  unfold not_adjacent. intros H.
  destruct (ords !! v) as [o|] eqn:Ho; [|done]. simpl in H.
  destruct (axes_dict o a1) as [i|] eqn:Hi; [|done]. simpl in H.
  destruct (axes_dict o a2) as [j|] eqn:Hj; [|done]. simpl in H.
  injection H as H. apply bool_decide_eq_false in H.
  exists o, i. repeat split; try done. rewrite Hj. f_equal.
  by destruct (decide ((i + 1)%nat = j)).
Qed.

Lemma skip_pair_false ords a1 vars1 a2 vars2 :
  skip_pair ords a1 vars1 a2 vars2 = Some false →
  a1 ≠ a2 ∧ vars1 = vars2 ∧
  ∀ v, v ∈ vars1 →
    ∃ o i, ords !! v = Some o ∧ axes_dict o a1 = Some i ∧
           axes_dict o a2 = Some (i + 1)%nat.
Proof.
  unfold skip_pair. case_decide as Ha; [done|].
  case_decide as Hv; [done|]. intros H.
  split; [done|]. split; [by destruct (decide (vars1 = vars2))|].
  intros v Hin. apply not_adjacent_false.
  eapply any_gen_false; [exact H|]. by apply elem_of_elements.
Qed.

Lemma find_axis2_Some ords a1 vars1 items a2 :
  find_axis2 ords a1 vars1 items = Some (Some a2) →
  ∃ vars2, (a2, vars2) ∈ items ∧
           skip_pair ords a1 vars1 a2 vars2 = Some false.
Proof.
  induction items as [|[b vars] items IH]; simpl; [done|].
  destruct (skip_pair ords a1 vars1 b vars) as [[]|] eqn:Hs; simpl; [| |done].
  - intros (vars2 & Hin & H)%IH. exists vars2. split; [by right|done].
  - intros [= <-]. exists vars. split; [by left|done].
Qed.

Lemma find_pair_from_Some ords items1 items a1 vars1 a2 :
  find_pair_from ords items1 items = Some (Some (a1, vars1, a2)) →
  (a1, vars1) ∈ items1 ∧
  ∃ vars2, (a2, vars2) ∈ items ∧
           skip_pair ords a1 vars1 a2 vars2 = Some false.
Proof.
  induction items1 as [|[b vars] items1 IH]; simpl; [done|].
  destruct (find_axis2 ords b vars items) as [[c|]|] eqn:Hf; simpl; [| |done].
  - intros [= <- <- <-]. split; [by left|]. by apply find_axis2_Some.
  - intros [Hin H]%IH. split; [by right|done].
Qed.

Lemma find_axis2_is_Some ords a1 vars1 items :
  (∀ a2 vars2, (a2, vars2) ∈ items →
     is_Some (skip_pair ords a1 vars1 a2 vars2)) →
  is_Some (find_axis2 ords a1 vars1 items).
Proof.
  induction items as [|[b vars] items IH]; intros Hs; simpl; [by eexists|].
  destruct (Hs b vars ltac:(by left)) as [[] ->]; simpl; [|by eexists].
  apply IH. intros a2 vars2 Hin. apply Hs. by right.
Qed.

Lemma find_pair_from_is_Some ords items1 items :
  (∀ a1 vars1 a2 vars2, (a1, vars1) ∈ items1 → (a2, vars2) ∈ items →
     is_Some (skip_pair ords a1 vars1 a2 vars2)) →
  is_Some (find_pair_from ords items1 items).
Proof.
  induction items1 as [|[b vars] items1 IH]; intros Hs; simpl; [by eexists|].
  destruct (find_axis2_is_Some ords b vars items) as [[c|] ->]; simpl.
  - intros a2 vars2 Hin. apply Hs; [by left|done].
  - by eexists.
  - apply IH. intros a1 vars1 a2 vars2 H1 H2. apply Hs; [by right|done].
Qed.

(** Under the invariant the search reads positions of axes that the orders
    hold: it does not raise. *)
Lemma find_pair_is_Some st : Inv st → is_Some (find_pair st).
Proof.
  intros HI. apply find_pair_from_is_Some.
  intros a1 vars1 a2 vars2 H1 H2.
  apply elem_of_getitem in H1; [|apply HI].
  apply elem_of_getitem in H2; [|apply HI].
  unfold skip_pair. case_decide; [by eexists|].
  case_decide as Hv; [by eexists|].
  assert (vars1 = vars2) as <- by (by destruct (decide (vars1 = vars2))).
  apply any_gen_is_Some. intros v Hv1%elem_of_elements.
  destruct (proj1 (inv_members _ HI _ _ H1 v) Hv1) as (o & Ho & Ha1).
  destruct (proj1 (inv_members _ HI _ _ H2 v) Hv1) as (o' & Ho' & Ha2).
  simplify_eq. unfold not_adjacent. rewrite Ho. simpl.
  destruct (axes_dict_is_Some _ _ Ha1) as [i ->].
  destruct (axes_dict_is_Some _ _ Ha2) as [j ->]. by eexists.
Qed.

(** What [find_pair] finds, in terms of [orders]. *)
Lemma find_pair_sound st a1 vars1 a2 :
  Inv st → find_pair st = Some (Some (a1, vars1, a2)) →
  a1 ≠ a2 ∧
  getitem (var_dict st) a1 = Some vars1 ∧
  getitem (var_dict st) a2 = Some vars1 ∧
  ∀ v, v ∈ vars1 →
    ∃ o i, orders st !! v = Some o ∧ axes_dict o a1 = Some i ∧
           axes_dict o a2 = Some (i + 1)%nat.
Proof.
  intros HI (H1 & vars2 & H2 & Hs)%find_pair_from_Some.
  apply skip_pair_false in Hs as (Hne & <- & Hadj).
  apply elem_of_getitem in H1; [|apply HI].
  apply elem_of_getitem in H2; [|apply HI]. done.
Qed.

(** ** One merge *)

Lemma merge_order_adjacent a1 a2 an o i :
  axes_dict o a1 = Some i → axes_dict o a2 = Some (i + 1)%nat →
  merge_order a1 a2 an o = Some (take i o ++ an :: drop (i + 1 + 1) o).
Proof. unfold merge_order. by intros -> ->. Qed.

Lemma getitem_remove {T} (d1 d2 : list (Axis * T)) a b x :
  a ≠ b → getitem (d1 ++ (a, x) :: d2) b = getitem (d1 ++ d2) b.
Proof.
  intros Hne. rewrite !getitem_app. simpl. by rewrite decide_False.
Qed.

(** Lines 91-93 and 98-100: an entry is added under a new key and the
    entries of two keys are deleted; up to the order of the entries, the
    dictionary loses the two and gains the one. *)
Lemma setitem_delitem_two {T} (d : list (Axis * T)) a1 a2 an x1 x2 x :
  a1 ≠ a2 → an ∉ d.*1 →
  getitem d a1 = Some x1 → getitem d a2 = Some x2 →
  ∃ d1 d2 rest,
    delitem (setitem d an x) a1 = Some d1 ∧
    delitem d1 a2 = Some d2 ∧
    d ≡ₚ (a1, x1) :: (a2, x2) :: rest ∧
    d2 ≡ₚ (an, x) :: rest.
Proof.
  intros Hne Hfresh H1 H2. rewrite setitem_fresh by done.
  assert (an ≠ a1) as Hn1.
  { intros ->. apply Hfresh, getitem_is_Some. by eexists. }
  assert (an ≠ a2) as Hn2.
  { intros ->. apply Hfresh, getitem_is_Some. by eexists. }
  destruct (delitem_Some (d ++ [(an, x)]) a1 x1)
    as (d1 & d2 & Hd & _ & Hdel1).
  { by rewrite getitem_app, H1. }
  destruct (delitem_Some (d1 ++ d2) a2 x2) as (e1 & e2 & He & _ & Hdel2).
  { rewrite <- (getitem_remove d1 d2 a1 a2 x1) by done.
    by rewrite <- Hd, getitem_app, H2. }
  assert (d ++ [(an, x)] ≡ₚ (a1, x1) :: (a2, x2) :: (e1 ++ e2)) as Hp.
  { rewrite Hd. rewrite <- Permutation_middle. apply Permutation_skip.
    rewrite He. by rewrite <- Permutation_middle. }
  assert ((an, x) ∈ e1 ++ e2) as Hin.
  { assert ((an, x) ∈ (a1, x1) :: (a2, x2) :: (e1 ++ e2)) as Hin.
    { rewrite <- Hp. apply elem_of_app. right. by left. }
    apply elem_of_cons in Hin as [[= ? _]|Hin]; [done|].
    apply elem_of_cons in Hin as [[= ? _]|Hin]; [done|]. done. }
  apply elem_of_Permutation in Hin as [rest Hrest].
  exists (d1 ++ d2), (e1 ++ e2), rest. do 2 (split; [done|]). split; [|done].
  apply (Permutation_cons_inv (a := (an, x))).
  etrans; [apply Permutation_cons_append|]. rewrite Hp, Hrest.
  symmetry. apply (Permutation_middle [(a1, x1); (a2, x2)]).
Qed.

Lemma merge_shape_dict_spec a1 a2 an sd n1 n2 :
  a1 ≠ a2 → an ∉ sd.*1 →
  getitem sd a1 = Some n1 → getitem sd a2 = Some n2 →
  ∃ sd' rest,
    merge_shape_dict a1 a2 an sd = Some sd' ∧
    sd ≡ₚ (a1, n1) :: (a2, n2) :: rest ∧
    sd' ≡ₚ (an, n1 * n2) :: rest.
Proof.
  intros Hne Hfresh H1 H2. unfold merge_shape_dict.
  rewrite H1, H2. simpl.
  destruct (setitem_delitem_two sd a1 a2 an n1 n2 (n1 * n2))
    as (d1 & d2 & rest & -> & Hd2 & Hp1 & Hp2); try done.
  simpl. eauto.
Qed.

Lemma elem_of_swap_axes (pre post : list Axis) a a1 a2 an :
  a ≠ a1 → a ≠ a2 → a ≠ an →
  a ∈ pre ++ a1 :: a2 :: post ↔ a ∈ pre ++ an :: post.
Proof. intros. rewrite !elem_of_app, !elem_of_cons. tauto. Qed.

Lemma NoDup_swap_axes (pre post : list Axis) a1 a2 an :
  NoDup (pre ++ a1 :: a2 :: post) → an ∉ pre ++ a1 :: a2 :: post →
  NoDup (pre ++ an :: post).
Proof.
  intros Hnd Hn.
  apply NoDup_app in Hnd as (Hpre & Hdisj & Hmid).
  apply NoDup_cons in Hmid as [_ Hmid]. apply NoDup_cons in Hmid as [_ Hpost].
  apply NoDup_app. split; [done|]. split.
  - intros a Ha [->|Hb]%elem_of_cons.
    + apply Hn. apply elem_of_app. by left.
    + apply (Hdisj a Ha). by do 2 right.
  - apply NoDup_cons. split; [|done].
    intros Hb. apply Hn. apply elem_of_app. right. by do 2 right.
Qed.

Lemma Permutation_swap_axes (pre post keys rest keys' : list Axis) a1 a2 an :
  keys ≡ₚ pre ++ a1 :: a2 :: post →
  keys ≡ₚ a1 :: a2 :: rest →
  keys' ≡ₚ an :: rest →
  keys' ≡ₚ pre ++ an :: post.
Proof.
  intros Hk1 Hk2 ->. rewrite <- Permutation_middle. apply Permutation_skip.
  rewrite Hk2 in Hk1.
  rewrite <- (Permutation_middle pre), <- (Permutation_middle pre) in Hk1.
  by do 2 apply Permutation_cons_inv in Hk1.
Qed.

(** The loop of lines 89-96 rewrites the entries of the Variables of
    [vars1], each from its own entry, and no other. *)
Lemma merge_in_variables_spec a1 a2 an vs ords sds :
  NoDup vs →
  (∀ v, v ∈ vs →
     is_Some (sds !! v ≫= merge_shape_dict a1 a2 an) ∧
     is_Some (ords !! v ≫= merge_order a1 a2 an)) →
  ∃ ords' sds',
    merge_in_variables a1 a2 an vs ords sds = Some (ords', sds') ∧
    ∀ v,
      (v ∉ vs → ords' !! v = ords !! v ∧ sds' !! v = sds !! v) ∧
      (v ∈ vs → ords' !! v = (ords !! v ≫= merge_order a1 a2 an) ∧
                sds' !! v = (sds !! v ≫= merge_shape_dict a1 a2 an)).
Proof.
  intros Hnd. revert ords sds.
  induction Hnd as [|v vs Hv Hnd IH]; intros ords sds Hok; simpl.
  - eexists _, _. split; [done|]. intros v. split; [done|by intros ?%elem_of_nil].
  - destruct (Hok v ltac:(by left)) as [[sd' Hsd] [o' Ho]].
    unfold merge_in_variable.
    destruct (sds !! v) as [sd|] eqn:Hsdv; [|done].
    destruct (ords !! v) as [o|] eqn:Hov; [|done].
    simpl in Hsd, Ho. simpl. rewrite Hsd. simpl. rewrite Ho. simpl.
    destruct (IH (<[v:=o']> ords) (<[v:=sd']> sds)) as (ords' & sds' & -> & Hspec).
    { intros w Hw. assert (v ≠ w) by (by intros ->).
      rewrite !lookup_insert_ne by done. apply Hok. by right. }
    exists ords', sds'. split; [done|]. intros w.
    destruct (Hspec w) as [Hout Hin]. split.
    + intros [Hne Hw]%not_elem_of_cons. destruct (Hout Hw) as [-> ->].
      by rewrite !lookup_insert_ne.
    + intros [->|Hw]%elem_of_cons.
      * destruct (Hout Hv) as [-> ->].
        by rewrite !lookup_insert_eq, Hsdv, Hov.
      * destruct (Hin Hw) as [-> ->]. assert (v ≠ w) by (by intros ->).
        by rewrite !lookup_insert_ne.
Qed.

(** Membership in a list written with [++] and [::]. *)
Ltac elem_solver :=
  rewrite ?elem_of_app, ?not_elem_of_cons, ?elem_of_cons in *;
  intuition (subst; auto; congruence).

Lemma counter_fresh st : Inv st → AxisX (counter st) ∉ (var_dict st).*1.
Proof. intros HI Hin. apply (inv_fresh _ HI) in Hin. lia. Qed.

(** A merge of a pair found by the search does not raise, keeps the
    invariant, and leaves [var_dict] with one key less. *)
Lemma merge_spec st a1 vars1 a2 :
  Inv st → find_pair st = Some (Some (a1, vars1, a2)) →
  ∃ st', merge st a1 vars1 a2 = Some st' ∧ Inv st' ∧
         S (length (var_dict st')) = length (var_dict st) ∧
         merged_from st st' a1 a2 vars1.
Proof.
  intros HI Hfind.
  destruct (find_pair_sound _ _ _ _ HI Hfind) as (Hne & Hg1 & Hg2 & Hadj).
  pose proof (counter_fresh _ HI) as Hfresh.
  set (an := AxisX (counter st)) in *.
  (* what happens in each variable of [vars1] *)
  assert (∀ v, v ∈ vars1 →
    ∃ pre post sd sd' rest n1 n2,
      orders st !! v = Some (pre ++ a1 :: a2 :: post) ∧
      merge_order a1 a2 an (pre ++ a1 :: a2 :: post)
        = Some (pre ++ an :: post) ∧
      shape_dicts st !! v = Some sd ∧
      merge_shape_dict a1 a2 an sd = Some sd' ∧
      sd ≡ₚ (a1, n1) :: (a2, n2) :: rest ∧
      sd' ≡ₚ (an, n1 * n2) :: rest) as Hvar.
  { intros v Hv. destruct (Hadj v Hv) as (o & i & Ho & Hi1 & Hi2).
    destruct (inv_shape _ HI _ _ Ho) as (sd & Hsd & Hkeys).
    pose proof (adjacent_split _ _ _ _ Hi1 Hi2) as Hsplit.
    assert (a1 ∈ o) as Ha1 by (rewrite Hsplit; elem_solver).
    assert (a2 ∈ o) as Ha2 by (rewrite Hsplit; elem_solver).
    assert (an ∉ sd.*1) as Hn.
    { rewrite Hkeys. intros Hin. by apply Hfresh, (inv_cover _ HI v o). }
    destruct (proj2 (getitem_is_Some sd a1)) as [n1 Hn1]; [by rewrite Hkeys|].
    destruct (proj2 (getitem_is_Some sd a2)) as [n2 Hn2]; [by rewrite Hkeys|].
    destruct (merge_shape_dict_spec a1 a2 an sd n1 n2)
      as (sd' & rest & Hm & Hp1 & Hp2); try done.
    exists (take i o), (drop (i + 1 + 1) o), sd, sd', rest, n1, n2.
    rewrite <- Hsplit. split; [done|]. split; [|done].
    by apply merge_order_adjacent. }
  destruct (merge_in_variables_spec a1 a2 an (elements vars1)
              (orders st) (shape_dicts st)) as (ords' & sds' & Hmerge & Hspec).
  { apply NoDup_elements. }
  { intros v Hv%elem_of_elements.
    destruct (Hvar v Hv) as (pre & post & sd & sd' & rest & n1 & n2 &
                             -> & Ho & -> & Hsd & _).
    simpl. rewrite Ho, Hsd. split; by eexists. }
  destruct (setitem_delitem_two (var_dict st) a1 a2 an vars1 vars1 vars1)
    as (vd1 & vd2 & vrest & Hd1 & Hd2 & Hp1 & Hp2); try done.
  unfold merge. fold an. rewrite Hmerge. simpl. rewrite Hd1. simpl.
  rewrite Hd2. simpl. eexists. split; [done|].
  assert (merged_from st (mkState ords' sds' vd2 (S (counter st))) a1 a2 vars1)
    as Hmf.
  { split; simpl.
    - intros v Hv. apply Hspec. by rewrite elem_of_elements.
    - intros v Hv.
      destruct (Hvar v Hv) as (pre & post & sd & sd' & rest & n1 & n2 &
                               Ho & Hmo & Hsd & Hmsd & Hq1 & Hq2).
      destruct (Hspec v) as [_ Hin].
      destruct Hin as [Ho' Hsd']; [by apply elem_of_elements|].
      rewrite Ho in Ho'. rewrite Hsd in Hsd'. simpl in *.
      exists pre, post, sd, sd'. fold an. rewrite Ho', Hsd', Hmo, Hmsd.
      do 4 (split; [done|]).
      rewrite (mul_perm _ _ (fmap_Permutation snd _ _ Hq1)).
      rewrite (mul_perm _ _ (fmap_Permutation snd _ _ Hq2)).
      unfold mul. simpl. lia. }
  assert (NoDup (a1 :: a2 :: vrest.*1)) as Hnd.
  { change (NoDup (((a1, vars1) :: (a2, vars1) :: vrest).*1)).
    rewrite <- Hp1. apply HI. }
  assert (vd2.*1 ≡ₚ an :: vrest.*1) as Hk2.
  { by rewrite Hp2. }
  assert ((var_dict st).*1 ≡ₚ a1 :: a2 :: vrest.*1) as Hk1.
  { by rewrite Hp1. }
  assert (∀ a, a ∈ vrest.*1 → a ≠ a1 ∧ a ≠ a2 ∧ a ≠ an) as Hrest.
  { intros a Ha. apply NoDup_cons in Hnd as [Hn1 Hnd].
    apply NoDup_cons in Hnd as [Hn2 _].
    repeat split; intros ->; try done.
    - apply Hn1. by right.
    - apply Hfresh. rewrite Hk1. by do 2 right. }
  pose proof Hmf as [Hout Hin]. simpl in Hout, Hin.
  split; [|split; [|done]].
  - constructor; simpl.
    + (* inv_nodup *)
      intros v o' Ho'. destruct (decide (v ∈ vars1)) as [Hv|Hv].
      * destruct (Hin v Hv) as (pre & post & sd & sd' & Ho & Hn & _).
        simpl in Hn. rewrite Ho' in Hn. injection Hn as ->.
        eapply NoDup_swap_axes; [by eapply (inv_nodup _ HI)|].
        intros Hc. by apply Hfresh, (inv_cover _ HI v _ _ Ho).
      * destruct (Hout v Hv) as [Hsame _]. simpl in Hsame.
        rewrite Hsame in Ho'. by eapply (inv_nodup _ HI).
    + (* inv_shape *)
      intros v o' Ho'. destruct (decide (v ∈ vars1)) as [Hv|Hv].
      * destruct (Hvar v Hv) as (pre & post & sd & sd' & rest & n1 & n2 &
                                 Ho & Hmo & Hsd & Hmsd & Hq1 & Hq2).
        destruct (Hspec v) as [_ Hs]. destruct Hs as [Hs1 Hs2];
          [by apply elem_of_elements|].
        rewrite Ho in Hs1. rewrite Hsd in Hs2. simpl in Hs1, Hs2.
        rewrite Hmo in Hs1. rewrite Hmsd in Hs2.
        rewrite Hs1 in Ho'. injection Ho' as <-.
        exists sd'. split; [exact Hs2|].
        destruct (inv_shape _ HI _ _ Ho) as (sd1 & Hsd1 & Hkeys).
        rewrite Hsd in Hsd1. injection Hsd1 as <-.
        eapply (Permutation_swap_axes _ _ sd.*1 rest.*1); [done| |].
        -- by rewrite Hq1.
        -- by rewrite Hq2.
      * destruct (Hout v Hv) as [Hs1 Hs2]. simpl in *.
        rewrite Hs1 in Ho'. rewrite Hs2. by eapply (inv_shape _ HI).
    + (* inv_keys *)
      rewrite Hk2. apply NoDup_cons. split.
      * intros Hc. by destruct (Hrest _ Hc) as (_ & _ & ?).
      * apply NoDup_cons in Hnd as [_ Hnd]. by apply NoDup_cons in Hnd as [_ ?].
    + (* inv_members *)
      intros a vars Hg v.
      apply getitem_elem_of in Hg. rewrite Hp2 in Hg.
      apply elem_of_cons in Hg as [[= -> ->]|Hg].
      * split.
        -- intros Hv. destruct (Hin v Hv) as (pre & post & _ & _ & _ & Hn & _).
           simpl in Hn. eexists. split; [exact Hn|]. elem_solver.
        -- intros (o' & Ho' & Ha). destruct (decide (v ∈ vars1)) as [|Hv]; [done|].
           destruct (Hout v Hv) as [Hs1 _]. simpl in Hs1. rewrite Hs1 in Ho'.
           exfalso. by apply Hfresh, (inv_cover _ HI v o').
      * assert (a ∈ vrest.*1) as Har.
        { apply list_elem_of_fmap. by exists (a, vars). }
        destruct (Hrest a Har) as (Hn1 & Hn2 & Hn3).
        assert (getitem (var_dict st) a = Some vars) as Hold.
        { apply elem_of_getitem; [apply HI|]. rewrite Hp1. by do 2 right. }
        rewrite (inv_members _ HI _ _ Hold v).
        destruct (decide (v ∈ vars1)) as [Hv|Hv].
        -- destruct (Hin v Hv) as (pre & post & _ & _ & Ho & Hn & _).
           simpl in Hn. rewrite Ho, Hn.
           split; intros (o' & [= <-] & Ha); eexists; (split; [done|]);
             by apply (elem_of_swap_axes pre post a a1 a2 an Hn1 Hn2 Hn3).
        -- destruct (Hout v Hv) as [Hs1 _]. simpl in Hs1. by rewrite Hs1.
    + (* inv_cover *)
      intros v o' a Ho' Ha. rewrite Hk2.
      destruct (decide (a = an)) as [->|Hna]; [by left|]. right.
      assert (∃ o, orders st !! v = Some o ∧ a ∈ o ∧ a ≠ a1 ∧ a ≠ a2)
        as (o & Ho & Hao & Hn1 & Hn2).
      { destruct (decide (v ∈ vars1)) as [Hv|Hv].
        - destruct (Hin v Hv) as (pre & post & _ & _ & Ho & Hn & _).
          simpl in Hn. rewrite Ho' in Hn. injection Hn as ->.
          pose proof (inv_nodup _ HI _ _ Ho) as Hnd'.
          eexists. split; [done|].
          apply NoDup_app in Hnd' as (_ & Hdisj & Hmid).
          apply NoDup_cons in Hmid as [Hm1 Hmid].
          apply NoDup_cons in Hmid as [Hm2 _].
          apply elem_of_app in Ha as [Ha|Ha].
          + split; [elem_solver|].
            split; intros ->; apply (Hdisj _ Ha); elem_solver.
          + apply elem_of_cons in Ha as [?|Ha]; [done|].
            split; [elem_solver|]. split; intros ->; elem_solver.
        - destruct (Hout v Hv) as [Hs1 _]. simpl in Hs1. rewrite Hs1 in Ho'.
          exists o'. split; [done|]. split; [done|].
          split; intros ->; apply Hv.
          + apply (inv_members _ HI _ _ Hg1). eauto.
          + apply (inv_members _ HI _ _ Hg2). eauto. }
      pose proof (inv_cover _ HI _ _ _ Ho Hao) as Hk. rewrite Hk1 in Hk.
      elem_solver.
    + (* inv_fresh *)
      intros k Hk. rewrite Hk2 in Hk.
      apply elem_of_cons in Hk as [[= ->]|Hk]; [lia|].
      assert (k < counter st)%nat; [|lia].
      apply (inv_fresh _ HI). rewrite Hk1. by do 2 right.
  - simpl. apply Permutation_length in Hp1, Hp2. simpl in *. lia.
Qed.

(** ** The loop *)

Lemma merge_step_spec st :
  Inv st →
  (merge_step st = Some None ∧ find_pair st = Some None) ∨
  ∃ a1 vars1 a2 st',
    find_pair st = Some (Some (a1, vars1, a2)) ∧
    merges_to st st' ∧ Inv st' ∧
    S (length (var_dict st')) = length (var_dict st) ∧
    merged_from st st' a1 a2 vars1.
Proof.
  intros HI. unfold merges_to, merge_step.
  destruct (find_pair_is_Some st HI) as [[[[a1 vars1] a2]|] Hf]; rewrite Hf; simpl.
  - right. destruct (merge_spec st a1 vars1 a2 HI Hf) as (st' & Hm & HI' & Hlen & Hmf).
    exists a1, vars1, a2, st'. rewrite Hm. done.
  - by left.
Qed.

Lemma visits_Inv st0 st : Inv st0 → visits st0 st → Inv st.
Proof.
  intros HI Hv. induction Hv as [|st1 st2 st3 Hstep _ IH]; [done|].
  apply IH. destruct (merge_step_spec st1 HI) as [[Hn _]|(a1 & vars1 & a2 & st' & _ & Hm & HI' & _)].
  - unfold merges_to in Hstep. congruence.
  - unfold merges_to in *. congruence.
Qed.

(** With more fuel than [var_dict] has keys the loop ends, in a state where
    no pair can be merged. *)
Lemma merge_loop_total fuel st :
  Inv st → (length (var_dict st) < fuel)%nat →
  ∃ st', merge_loop fuel st = Some st' ∧ visits st st' ∧ Inv st' ∧
         merge_step st' = Some None.
Proof.
  revert st. induction fuel as [|fuel IH]; intros st HI Hlen; [lia|]. simpl.
  destruct (merge_step_spec st HI)
    as [[Hn _]|(a1 & vars1 & a2 & st1 & _ & Hm & HI1 & Hl & _)].
  - rewrite Hn. simpl. exists st. split; [done|]. split; [apply rtc_refl|done].
  - unfold merges_to in Hm. rewrite Hm. simpl.
    destruct (IH st1 HI1) as (st' & Hloop & Hvis & HI' & Hend); [lia|].
    exists st'. split; [done|]. split; [|done].
    eapply rtc_l; [exact Hm|exact Hvis].
Qed.

(** ** The state when the loop is entered *)

(** Lines 52-54 on a dictionary with distinct keys: the comprehensions keep
    the entries whose extent is not 1. *)
Lemma filterM_keys (d l : list (Axis * Z)) :
  (∀ a n, (a, n) ∈ l → getitem d a = Some n) →
  filterM (λ a, n ← getitem d a; Some (bool_decide (n ≠ 1))) l.*1
  = Some (filter (λ p : Axis * Z, p.2 ≠ 1) l).*1.
Proof.
  induction l as [|[a n] l IH]; intros Hl; [done|].
  rewrite fmap_cons. cbn [filterM fst].
  rewrite (Hl a n) by (by left). cbn [mbind option_bind].
  rewrite IH by (intros; apply Hl; by right). cbn [mbind option_bind].
  rewrite filter_cons. simpl. by case_bool_decide; case_decide.
Qed.

Lemma mapM_getitem {T} (d l : list (Axis * T)) :
  (∀ a n, (a, n) ∈ l → getitem d a = Some n) →
  mapM (getitem d) l.*1 = Some l.*2.
Proof.
  induction l as [|[a n] l IH]; intros Hl; [done|].
  rewrite !fmap_cons. cbn [mapM fst snd].
  rewrite (Hl a n) by (by left). cbn [mbind option_bind].
  rewrite IH by (intros; apply Hl; by right). done.
Qed.

Lemma mul_cons x l : mul (x :: l) = x * mul l.
Proof. done. Qed.

Lemma filter_nil_mul (d : list (Axis * Z)) :
  filter (λ p : Axis * Z, p.2 ≠ 1) d = [] → mul d.*2 = 1.
Proof.
  induction d as [|[a n] d IH]; [done|].
  rewrite filter_cons, fmap_cons, mul_cons. cbn [snd].
  case_decide as Hn; [done|]. intros Hd.
  rewrite IH by done. destruct (decide (n = 1)); [lia|done].
Qed.

Lemma filter_mul (d : list (Axis * Z)) :
  mul (filter (λ p : Axis * Z, p.2 ≠ 1) d).*2 = mul d.*2.
Proof.
  induction d as [|[a n] d IH]; [done|].
  rewrite filter_cons, !fmap_cons, mul_cons. cbn [snd].
  case_decide as Hn.
  - by rewrite fmap_cons, mul_cons, IH.
  - rewrite IH. destruct (decide (n = 1)); [lia|done].
Qed.

Lemma kept_mul v : mul (kept v).*2 = size v.
Proof. apply filter_mul. Qed.

Lemma kept_keys_sublist v : (kept v).*1 `sublist_of` order v.
Proof. apply fmap_sublist, sublist_filter. Qed.

Lemma drop_unit_axes_eval v ords sds :
  NoDup (order v) →
  drop_unit_axes v ords sds
  = if decide (kept v = []) then None
    else Some (<[var_id v := (kept v).*1]> ords, <[var_id v := kept v]> sds).
Proof.
  intros Hnd. unfold drop_unit_axes, order.
  assert (∀ a n, (a, n) ∈ shape_dict v → getitem (shape_dict v) a = Some n)
    as Hget by (intros; by apply elem_of_getitem).
  rewrite filterM_keys by done. simpl. fold (kept v).
  rewrite mapM_getitem; simpl.
  2:{ intros a n Hin. apply Hget. by apply list_elem_of_filter in Hin as [_ ?]. }
  unfold AxisKeyDict_new. rewrite decide_True by (by rewrite !length_fmap).
  simpl. rewrite zip_fst_snd.
  case_bool_decide as Hc; case_decide as Hk; try done.
  - destruct Hc as [Hc _]. rewrite length_fmap in Hc.
    by apply nil_length_inv in Hc.
  - exfalso. apply Hc. split; [by rewrite Hk|].
    by apply filter_nil_mul.
Qed.

(** Lines 52-54: a Variable with an extent that is not 1 gets its order and
    its shape dictionary without the unit axes. *)
Lemma drop_unit_axes_spec v ords sds :
  NoDup (order v) → kept v ≠ [] →
  drop_unit_axes v ords sds
  = Some (<[var_id v := (kept v).*1]> ords, <[var_id v := kept v]> sds).
Proof. intros Hnd Hk. rewrite drop_unit_axes_eval by done. by case_decide. Qed.

(** Lines 56-58: for a Variable with unit extents only, the call raises. *)
Lemma drop_unit_axes_None v ords sds :
  NoDup (order v) → kept v = [] → drop_unit_axes v ords sds = None.
Proof. intros Hnd Hk. rewrite drop_unit_axes_eval by done. by case_decide. Qed.

(** Lines 51-58: each Variable of the list gets its entries, the others
    keep theirs. *)
Lemma drop_unit_axes_all_spec vs ords sds :
  Forall (λ v, NoDup (order v)) vs → nonscalar vs →
  ∃ ords' sds',
    drop_unit_axes_all vs ords sds = Some (ords', sds') ∧
    (∀ i, (∀ v, v ∈ vs → var_id v ≠ i) →
       ords' !! i = ords !! i ∧ sds' !! i = sds !! i) ∧
    (∀ v, v ∈ vs → (∀ w, w ∈ vs → var_id v = var_id w → v = w) →
       ords' !! var_id v = Some (kept v).*1 ∧
       sds' !! var_id v = Some (kept v)).
Proof.
  intros Hnd. revert ords sds.
  induction Hnd as [|v0 vs Hv0 _ IH]; intros ords sds Hns; simpl.
  - eexists _, _. split; [done|]. split; [done|]. by intros v ?%elem_of_nil.
  - apply Forall_cons in Hns as [Hk0 Hns].
    rewrite drop_unit_axes_spec by done. simpl.
    destruct (IH (<[var_id v0:=(kept v0).*1]> ords)
                 (<[var_id v0:=kept v0]> sds) Hns)
      as (ords' & sds' & -> & Hout & Hin).
    eexists _, _. split; [done|]. split.
    + intros i Hi. destruct (Hout i) as [-> ->].
      { intros v Hv. apply Hi. by right. }
      assert (var_id v0 ≠ i) by (apply Hi; by left).
      by rewrite !lookup_insert_ne.
    + intros v Hv Hcons. destruct (decide (v ∈ vs)) as [Hvs|Hvs].
      * apply Hin; [done|]. intros w Hw. apply Hcons. by right.
      * apply elem_of_cons in Hv as [->|?]; [|done].
        destruct (Hout (var_id v0)) as [-> ->].
        { intros w Hw Heq. apply Hvs.
          rewrite (Hcons w); [done|by right|done]. }
        by rewrite !lookup_insert_eq.
Qed.

(** Lines 51-58: the loop raises when it comes to a Variable with unit
    extents only. *)
Lemma drop_unit_axes_all_None vs ords sds :
  Forall (λ v, NoDup (order v)) vs → ¬ nonscalar vs →
  drop_unit_axes_all vs ords sds = None.
Proof.
  intros Hnd. revert ords sds.
  induction Hnd as [|v0 vs Hv0 _ IH]; intros ords sds Hns; simpl.
  - destruct Hns. constructor.
  - rewrite drop_unit_axes_eval by done. case_decide as Hk0; [done|]. simpl.
    apply IH. intros Hvs. apply Hns. by constructor.
Qed.

Lemma VD_iff vd (S S' : nat → Axis → Prop) :
  (∀ v a, S v a ↔ S' v a) → VD vd S → VD vd S'.
Proof.
  intros Heq (Hnd & Hk & Hm). split; [done|]. split.
  - intros a. rewrite Hk. by setoid_rewrite Heq.
  - intros a vars Hg v. rewrite (Hm a vars Hg). apply Heq.
Qed.

Lemma register_axis_VD v vd a S :
  VD vd S → VD (register_axis v vd a) (λ v' a', S v' a' ∨ (v' = v ∧ a' = a)).
Proof.
  intros (Hnd & Hk & Hm). unfold register_axis.
  destruct (getitem vd a) as [vars|] eqn:Hg.
  - assert (a ∈ vd.*1) as Ha by (apply getitem_is_Some; by eexists).
    split; [by rewrite setitem_keys|]. split.
    + intros a'. rewrite setitem_keys by done. rewrite Hk. split.
      * intros [v' ?]. exists v'. by left.
      * intros [v' [?|[-> ->]]]; [by exists v'|]. by apply Hk.
    + intros a' vars'. rewrite getitem_setitem. case_decide as Heq.
      * subst a'. intros [= <-] v'. rewrite elem_of_union, elem_of_singleton.
        rewrite (Hm a vars Hg v'). tauto.
      * intros Hg' v'. rewrite (Hm a' vars' Hg' v'). split; [tauto|].
        intros [?|[_ ?]]; [done|]. by subst.
  - assert (a ∉ vd.*1) as Ha by (by apply getitem_None).
    rewrite setitem_fresh by done. split; [|split].
    + rewrite fmap_app. simpl. apply NoDup_app. split; [done|].
      split; [|apply NoDup_singleton].
      intros b Hb ->%list_elem_of_singleton. done.
    + intros a'. rewrite fmap_app, elem_of_app. simpl.
      rewrite list_elem_of_singleton, Hk. split.
      * intros [[v' ?]| ->]; [exists v'; by left|exists v; by right].
      * intros [v' [?|[_ ->]]]; [left; by exists v'|by right].
    + intros a' vars'. rewrite getitem_app. simpl.
      destruct (getitem vd a') as [vars0|] eqn:Hg0.
      * intros [= <-] v'. rewrite (Hm a' vars0 Hg0 v'). split; [tauto|].
        intros [?|[_ ->]]; [done|]. exfalso. apply Ha.
        apply getitem_is_Some. by eexists.
      * case_decide as Heq; [|done]. subst a'. intros [= <-] v'.
        rewrite elem_of_singleton. split; [tauto|].
        intros [HS|[? _]]; [|done]. exfalso. apply Ha. apply Hk. by exists v'.
Qed.

Lemma foldl_register_VD v o vd S :
  VD vd S →
  VD (foldl (register_axis v) vd o) (λ v' a', S v' a' ∨ (v' = v ∧ a' ∈ o)).
Proof.
  revert vd S. induction o as [|a o IH]; intros vd S HVD; simpl.
  - eapply VD_iff; [|exact HVD]. intros v' a'. split; [tauto|].
    intros [?|[_ ?%elem_of_nil]]; done.
  - eapply VD_iff; [|apply IH, register_axis_VD, HVD].
    intros v' a'. simpl. rewrite elem_of_cons. tauto.
Qed.

(** Lines 62-67. *)
Lemma list_up_axes_spec ords vs vd S :
  VD vd S → (∀ w, w ∈ vs → is_Some (ords !! var_id w)) →
  ∃ vd', list_up_axes ords vs vd = Some vd' ∧
    VD vd' (λ v' a', S v' a' ∨
              ∃ w o, w ∈ vs ∧ var_id w = v' ∧ ords !! v' = Some o ∧ a' ∈ o).
Proof.
  revert vd S. induction vs as [|w vs IH]; intros vd S HVD Hok; simpl.
  - exists vd. split; [done|]. eapply VD_iff; [|exact HVD].
    intros v' a'. split; [tauto|].
    intros [?|(w & o & ?%elem_of_nil & _)]; done.
  - destruct (Hok w ltac:(by left)) as [o Ho]. rewrite Ho. simpl.
    destruct (IH _ _ (foldl_register_VD (var_id w) o vd S HVD))
      as (vd' & -> & HVD').
    { intros w' Hw'. apply Hok. by right. }
    exists vd'. split; [done|]. eapply VD_iff; [|exact HVD'].
    intros v' a'. simpl. split.
    + intros [[?|[-> Ha]]|(w' & o' & Hw' & Hid & Ho' & Ha)]; [by left| |].
      * right. exists w, o. split; [by left|done].
      * right. exists w', o'. split; [by right|done].
    + intros [?|(w' & o' & [->|Hw']%elem_of_cons & Hid & Ho' & Ha)].
      * by do 2 left.
      * left. right. subst v'. rewrite Ho in Ho'. by injection Ho' as <-.
      * right. by exists w', o'.
Qed.

Lemma kept_keys_elem v a : a ∈ (kept v).*1 → a ∈ order v.
Proof.
  intros Ha. eapply elem_of_sublist; [done|apply kept_keys_sublist].
Qed.

Lemma kept_keys_NoDup v : NoDup (order v) → NoDup (kept v).*1.
Proof.
  intros Hnd. apply (sublist_NoDup _ _ Hnd (kept_keys_sublist v)).
Qed.

Lemma wf_variables_same vs v w :
  wf_variables vs → v ∈ vs → w ∈ vs → var_id v = var_id w → v = w.
Proof.
  intros [_ Hc] Hv Hw. eapply Forall_forall in Hc; [|exact Hv].
  eapply Forall_forall in Hc; [|exact Hw]. done.
Qed.

(** The loop is entered in a state that satisfies the invariant. *)
Lemma initial_state_spec vs :
  wf_variables vs → nonscalar vs →
  ∃ st0, initial_state vs = Some st0 ∧ Inv st0 ∧
    (∀ v, v ∈ vs →
       orders st0 !! var_id v = Some (kept v).*1 ∧
       shape_dicts st0 !! var_id v = Some (kept v)) ∧
    (∀ i o, orders st0 !! i = Some o → ∃ v, v ∈ vs ∧ var_id v = i).
Proof.
  intros Hwf Hns. pose proof Hwf as [Hwf1 _].
  destruct (drop_unit_axes_all_spec vs ∅ ∅) as (ords & sds & Hdrop & Hout & Hin).
  { eapply Forall_impl; [exact Hwf1|]. by intros v [? _]. }
  { done. }
  assert (∀ v, v ∈ vs →
            ords !! var_id v = Some (kept v).*1 ∧
            sds !! var_id v = Some (kept v)) as F1.
  { intros v Hv. apply Hin; [done|]. intros w Hw. by apply (wf_variables_same vs). }
  assert (∀ i o, ords !! i = Some o → ∃ v, v ∈ vs ∧ var_id v = i) as F2.
  { intros i o Ho.
    destruct (decide (Exists (λ v, var_id v = i) vs)) as [Hex|Hnex].
    - apply Exists_exists in Hex as (v & ? & ?). by exists v.
    - destruct (Hout i) as [Hnone _].
      { intros v Hv Hid. apply Hnex, Exists_exists. by exists v. }
      rewrite Ho in Hnone. by rewrite lookup_empty in Hnone. }
  destruct (list_up_axes_spec ords vs [] (λ _ _, False))
    as (vd & Hvd & Hnd & Hkeys & Hmem).
  { split; [apply NoDup_nil_2|]. split; [|done].
    intros a. split; [by intros ?%elem_of_nil|by intros [_ []]]. }
  { intros w Hw. destruct (F1 w Hw) as [-> _]. by eexists. }
  unfold initial_state. rewrite Hdrop. simpl. rewrite Hvd. simpl.
  eexists. split; [done|]. split; [|by split].
  assert (∀ v a, (False ∨
              ∃ w o, w ∈ vs ∧ var_id w = v ∧ ords !! v = Some o ∧ a ∈ o)
            ↔ ∃ o, ords !! v = Some o ∧ a ∈ o) as Hrel.
  { intros v a. split.
    - intros [[]|(w & o & _ & _ & ? & ?)]. by exists o.
    - intros (o & Ho & Ha). right. destruct (F2 v o Ho) as (w & Hw & Hid).
      by exists w, o. }
  constructor; simpl.
  - intros i o Ho. destruct (F2 i o Ho) as (v & Hv & <-).
    destruct (F1 v Hv) as [Ho' _]. rewrite Ho in Ho'. injection Ho' as ->.
    apply kept_keys_NoDup.
    eapply Forall_forall in Hwf1; [|exact Hv]. by destruct Hwf1.
  - intros i o Ho. destruct (F2 i o Ho) as (v & Hv & <-).
    destruct (F1 v Hv) as [Ho' Hsd]. rewrite Ho in Ho'. injection Ho' as ->.
    by exists (kept v).
  - done.
  - intros a vars Hg v. rewrite (Hmem a vars Hg v). apply Hrel.
  - intros v o a Ho Ha. apply Hkeys. exists v. apply Hrel. by exists o.
  - intros k Hk. apply Hkeys in Hk as [v Hk]. apply Hrel in Hk as (o & Ho & Ha).
    destruct (F2 v o Ho) as (w & Hw & <-).
    destruct (F1 w Hw) as [Ho' _]. rewrite Ho in Ho'. injection Ho' as ->.
    apply kept_keys_elem in Ha.
    eapply Forall_forall in Hwf1; [|exact Hw]. destruct Hwf1 as [_ Hg].
    eapply Forall_forall in Hg; [|exact Ha]. done.
Qed.

(** The loop is entered only when no Variable of the list has unit extents
    only: otherwise the call has raised on line 58. *)
Lemma initial_state_None vs :
  wf_variables vs → ¬ nonscalar vs → initial_state vs = None.
Proof.
  intros [Hwf1 _] Hns. unfold initial_state.
  rewrite drop_unit_axes_all_None; [done| |done].
  eapply Forall_impl; [exact Hwf1|]. by intros v [? _].
Qed.

Lemma initial_state_nonscalar vs st0 :
  wf_variables vs → initial_state vs = Some st0 → nonscalar vs.
Proof.
  intros Hwf H0.
  destruct (decide (Forall (λ v, kept v ≠ []) vs)) as [?|Hns]; [done|].
  by rewrite initial_state_None in H0.
Qed.

(** A property of the entry state that each merge keeps holds in every
    state the loop goes through. *)
Lemma visits_invariant (P : State → Prop) st0 st :
  (∀ s s' a1 vars1 a2,
     Inv s → P s → find_pair s = Some (Some (a1, vars1, a2)) →
     merged_from s s' a1 a2 vars1 → P s') →
  Inv st0 → P st0 → visits st0 st → P st.
Proof.
  intros Hstep HI HP Hv.
  induction Hv as [|st1 st2 st3 Hm _ IH]; [done|].
  destruct (merge_step_spec st1 HI)
    as [[Hn _]|(a1 & vars1 & a2 & st' & Hf & Hm' & HI' & _ & Hmf)];
    unfold merges_to in *; [congruence|].
  assert (st' = st2) as -> by congruence.
  apply IH; [done|]. by apply (Hstep st1 st2 a1 vars1 a2).
Qed.

(** [_simplify_orders] returns when no Variable has unit extents only, with
    the orders and the shape dictionaries of the state in which the loop
    ends. *)
Lemma _simplify_orders_spec vs :
  wf_variables vs → nonscalar vs →
  ∃ st0 st,
    initial_state vs = Some st0 ∧ Inv st0 ∧ visits st0 st ∧ Inv st ∧
    merge_step st = Some None ∧
    _simplify_orders vs = Some (orders st, shape_dicts st) ∧
    (∀ v, v ∈ vs →
       orders st0 !! var_id v = Some (kept v).*1 ∧
       shape_dicts st0 !! var_id v = Some (kept v)) ∧
    (∀ i o, orders st0 !! i = Some o → ∃ v, v ∈ vs ∧ var_id v = i).
Proof.
  intros Hwf Hns.
  destruct (initial_state_spec vs Hwf Hns) as (st0 & H0 & HI0 & F1 & F2).
  destruct (merge_loop_total (S (length (var_dict st0))) st0 HI0)
    as (st & Hloop & Hvis & HI & Hend); [lia|].
  exists st0, st. unfold _simplify_orders. rewrite H0. cbn [mbind option_bind].
  rewrite Hloop. simpl. done.
Qed.

(** C5.  For every Variable of the list given to [_simplify_orders], the
    product of the extents of its returned shape dictionary is the product of
    the extents of its original Order, its element count: dropping the unit
    axes and merging adjacent axes keep it.  The call returns when no
    Variable of the list has unit extents only. *)
Theorem simplify_preserves_element_count vs :
  wf_variables vs → nonscalar vs →
  ∃ ords sds,
    _simplify_orders vs = Some (ords, sds) ∧
    ∀ v, v ∈ vs →
      ∃ sd, sds !! var_id v = Some sd ∧ mul sd.*2 = mul (shape v).
Proof.
  intros Hwf Hns.
  destruct (_simplify_orders_spec vs Hwf Hns)
    as (st0 & st & _ & HI0 & Hvis & _ & _ & Hres & F1 & _).
  exists (orders st), (shape_dicts st). split; [done|].
  apply (visits_invariant
           (λ s, ∀ v, v ∈ vs →
              ∃ sd, shape_dicts s !! var_id v = Some sd ∧
                    mul sd.*2 = mul (shape v)) st0 st); [| done | | done].
  - intros s s' a1 vars1 a2 _ HP _ [Hout Hin] v Hv.
    destruct (HP v Hv) as (sd & Hsd & Hmul).
    destruct (decide (var_id v ∈ vars1)) as [Hm|Hm].
    + destruct (Hin _ Hm) as (_ & _ & sd0 & sd' & _ & _ & Hsd0 & Hsd' & Heq).
      exists sd'. split; [done|]. rewrite Hsd in Hsd0. injection Hsd0 as <-.
      by rewrite Heq.
    + destruct (Hout _ Hm) as [_ Hsame]. exists sd. by rewrite Hsame.
  - intros v Hv. destruct (F1 v Hv) as [_ Hsd]. exists (kept v).
    split; [done|]. apply kept_mul.
Qed.

(** C5 on the tensors of the docstring and on a tensor with a unit axis. *)
Lemma simplify_preserves_element_count_witness :
  wf_variables [c; hw; nhwc; batch1] ∧ nonscalar [c; hw; nhwc; batch1] ∧
  ∃ ords sds,
    _simplify_orders [c; hw; nhwc; batch1] = Some (ords, sds) ∧
    ∀ v, v ∈ [c; hw; nhwc; batch1] →
      ∃ sd, sds !! var_id v = Some sd ∧ mul sd.*2 = mul (shape v).
Proof.
  assert (wf_variables [c; hw; nhwc; batch1]) as Hwf by compute_done.
  assert (nonscalar [c; hw; nhwc; batch1]) as Hns by compute_done.
  split; [exact Hwf|]. split; [exact Hns|].
  exact (simplify_preserves_element_count [c; hw; nhwc; batch1] Hwf Hns).
Defined.

(** C10 fails on the code: a call of [_simplify_orders] on a list with a
    Variable that is left with no axis once its unit axes are dropped (its
    element count is then 1) raises.  Line 57 gives the Variable the order
    made of the sentinel axis, but line 58 writes its shape dictionary as the
    plain [dict] [{axis_scalar: 1}], which cannot have an [Axis] as key; no
    Variable is given the sentinel axis in a result. *)
Theorem scalar_variable_raises vs v :
  wf_variables vs → v ∈ vs → kept v = [] → _simplify_orders vs = None.
Proof.
  intros Hwf Hv Hk. unfold _simplify_orders.
  rewrite initial_state_None; [done|done|].
  intros Hns. eapply Forall_forall in Hns; [|exact Hv]. done.
Qed.

(** C10 on two tensors of unit extents and a third tensor. *)
Lemma scalar_variable_raises_witness :
  wf_variables [ones; unit_c; nhwc] ∧ kept unit_c = [] ∧
  _simplify_orders [ones; unit_c; nhwc] = None.
Proof.
  assert (wf_variables [ones; unit_c; nhwc]) as Hwf by compute_done.
  assert (unit_c ∈ [ones; unit_c; nhwc]) as Hin by (right; left).
  split; [exact Hwf|]. split; [reflexivity|].
  exact (scalar_variable_raises [ones; unit_c; nhwc] unit_c Hwf Hin eq_refl).
Defined.

(** C4.  Whenever the loop of [_simplify_orders] merges, it replaces two
    distinct axes [a1] and [a2] such that the Variables whose order holds
    [a1] are exactly those whose order holds [a2], and in every one of them
    [a2] comes right after [a1]; the new axis takes their place there, and
    the other orders are left as they are. *)
Theorem merge_requires_same_variables_and_adjacency vs st0 st st' :
  wf_variables vs →
  initial_state vs = Some st0 →
  visits st0 st →
  merge_step st = Some (Some st') →
  ∃ (a1 a2 : Axis) (vars1 : gset nat),
    a1 ≠ a2 ∧
    (∀ v, v ∈ vars1 ↔ ∃ o, orders st !! v = Some o ∧ a1 ∈ o) ∧
    (∀ v, v ∈ vars1 ↔ ∃ o, orders st !! v = Some o ∧ a2 ∈ o) ∧
    (∀ v, v ∈ vars1 →
       ∃ pre post,
         orders st !! v = Some (pre ++ a1 :: a2 :: post) ∧
         orders st' !! v = Some (pre ++ AxisX (counter st) :: post)) ∧
    (∀ v, v ∉ vars1 → orders st' !! v = orders st !! v).
Proof.
  intros Hwf H0 Hvis Hstep.
  destruct (initial_state_spec vs Hwf (initial_state_nonscalar vs st0 Hwf H0))
    as (st0' & H0' & HI0 & _).
  assert (st0' = st0) as -> by congruence.
  pose proof (visits_Inv _ _ HI0 Hvis) as HI.
  destruct (merge_step_spec st HI)
    as [[Hn _]|(a1 & vars1 & a2 & st1 & Hf & Hm & _ & _ & Hout & Hin)];
    unfold merges_to in *; [congruence|].
  assert (st1 = st') as -> by congruence.
  destruct (find_pair_sound _ _ _ _ HI Hf) as (Hne & Hg1 & Hg2 & _).
  exists a1, a2, vars1. split; [done|].
  split; [apply (inv_members _ HI _ _ Hg1)|].
  split; [apply (inv_members _ HI _ _ Hg2)|]. split.
  - intros v Hv. destruct (Hin v Hv) as (pre & post & _ & _ & ? & ? & _).
    by exists pre, post.
  - intros v Hv. by destruct (Hout v Hv).
Qed.

(** C4 on the first merge for the tensors of the docstring. *)
Lemma merge_requires_same_variables_and_adjacency_witness :
  wf_variables [c; hw; nhwc] ∧
  initial_state [c; hw; nhwc] = Some example_state0 ∧
  merge_step example_state0 = Some (Some example_state1) ∧
  ∃ (a1 a2 : Axis) (vars1 : gset nat),
    a1 ≠ a2 ∧
    (∀ v, v ∈ vars1 ↔ ∃ o, orders example_state0 !! v = Some o ∧ a1 ∈ o) ∧
    (∀ v, v ∈ vars1 ↔ ∃ o, orders example_state0 !! v = Some o ∧ a2 ∈ o) ∧
    (∀ v, v ∈ vars1 →
       ∃ pre post,
         orders example_state0 !! v = Some (pre ++ a1 :: a2 :: post) ∧
         orders example_state1 !! v
           = Some (pre ++ AxisX (counter example_state0) :: post)) ∧
    (∀ v, v ∉ vars1 →
       orders example_state1 !! v = orders example_state0 !! v).
Proof.
  assert (wf_variables [c; hw; nhwc]) as Hwf by compute_done.
  assert (initial_state [c; hw; nhwc] = Some example_state0) as H0
    by (vm_compute; reflexivity).
  assert (merge_step example_state0 = Some (Some example_state1)) as Hs
    by (vm_compute; reflexivity).
  split; [exact Hwf|]. split; [exact H0|]. split; [exact Hs|].
  exact (merge_requires_same_variables_and_adjacency [c; hw; nhwc]
           example_state0 example_state0 example_state1
           Hwf H0 (rtc_refl _ _) Hs).
Defined.

(** ** [_optimize_loop_structure] *)

(** A dictionary comprehension over the Variables holds, for each of them,
    the value computed for it. *)
Lemma dict_comp_from_spec {T} (f : variable → option T) vs acc :
  (∀ v, v ∈ vs → is_Some (f v)) →
  ∃ d, dict_comp_from f vs acc = Some d ∧
    (∀ i, (∀ v, v ∈ vs → var_id v ≠ i) → d !! i = acc !! i) ∧
    (∀ v, v ∈ vs → (∀ w, w ∈ vs → var_id v = var_id w → v = w) →
       d !! var_id v = f v).
Proof.
  revert acc. induction vs as [|v0 vs IH]; intros acc Hok; simpl.
  - exists acc. split; [done|]. split; [done|]. by intros v ?%elem_of_nil.
  - destruct (Hok v0 ltac:(by left)) as [x Hx]. rewrite Hx. simpl.
    destruct (IH (<[var_id v0:=x]> acc)) as (d & -> & Hout & Hin).
    { intros v Hv. apply Hok. by right. }
    exists d. split; [done|]. split.
    + intros i Hi. rewrite Hout by (intros v Hv; apply Hi; by right).
      apply lookup_insert_ne. apply Hi. by left.
    + intros v Hv Hcons. destruct (decide (v ∈ vs)) as [Hvs|Hvs].
      * apply Hin; [done|]. intros w Hw. apply Hcons. by right.
      * apply elem_of_cons in Hv as [->|?]; [|done].
        rewrite Hout.
        { by rewrite lookup_insert_eq. }
        intros w Hw Heq. apply Hvs.
        rewrite (Hcons w); [done|by right|done].
Qed.

Lemma dict_comp_spec {T} (f : variable → option T) vs :
  wf_variables vs →
  (∀ v, v ∈ vs → is_Some (f v)) →
  ∃ d, dict_comp f vs = Some d ∧ ∀ v, v ∈ vs → d !! var_id v = f v.
Proof.
  intros Hwf Hok. destruct (dict_comp_from_spec f vs ∅ Hok) as (d & Hd & _ & Hin).
  exists d. split; [done|]. intros v Hv. apply Hin; [done|].
  intros w Hw. by apply (wf_variables_same vs).
Qed.

Lemma insert_by_key_perm x l : insert_by_key x l ≡ₚ x :: l.
Proof.
  induction l as [|y l IH]; simpl; [done|].
  case_decide; [done|]. rewrite IH. apply Permutation_swap.
Qed.

(** [sorted] returns a permutation of the list. *)
Lemma sorted_by_ndim_spec ords vs :
  (∀ v, v ∈ vs → is_Some (ords !! var_id v)) →
  ∃ sorted, sorted_by_ndim ords vs = Some sorted ∧ sorted ≡ₚ vs.
Proof.
  intros Hok. unfold sorted_by_ndim.
  assert (∃ keyed,
            mapM (λ v, o ← ords !! var_id v; Some (length o, v)) vs
              = Some keyed ∧ keyed.*2 = vs) as (keyed & -> & Hk).
  { induction vs as [|v vs IH]; simpl; [by exists []|].
    destruct (Hok v ltac:(by left)) as [o ->]. simpl.
    destruct IH as (keyed & -> & Hk); [intros; apply Hok; by right|].
    simpl. exists ((length o, v) :: keyed). split; [done|].
    rewrite fmap_cons. by f_equal. }
  simpl. eexists. split; [done|]. subst vs.
  apply fmap_Permutation. clear Hok.
  induction keyed as [|x l IH]; simpl; [done|].
  by rewrite insert_by_key_perm, IH.
Qed.

Lemma accumulate_axes_is_Some ords vs axes :
  (∀ v, v ∈ vs → is_Some (ords !! var_id v)) →
  is_Some (accumulate_axes ords vs axes).
Proof.
  revert axes. induction vs as [|v vs IH]; intros axes Hok; simpl; [by eexists|].
  destruct (Hok v ltac:(by left)) as [o ->]. simpl.
  apply IH. intros; apply Hok; by right.
Qed.

Lemma global_axes_is_Some ords vs :
  (∀ v, v ∈ vs → is_Some (ords !! var_id v)) →
  is_Some (global_axes ords vs).
Proof.
  intros Hok. unfold global_axes.
  destruct (sorted_by_ndim_spec ords vs Hok) as (sorted & -> & Hp). simpl.
  apply accumulate_axes_is_Some. intros v Hv. apply Hok. by rewrite <- Hp.
Qed.

(** No order grows in the loop: it has at most as many axes as the Variable
    has. *)
Lemma simplified_order_length (vs : list variable) st0 st :
  Inv st0 → visits st0 st →
  (∀ v, v ∈ vs → orders st0 !! var_id v = Some (kept v).*1) →
  ∀ v, v ∈ vs →
    ∃ o, orders st !! var_id v = Some o ∧ (length o ≤ ndim v)%nat.
Proof.
  intros HI0 Hvis F1.
  apply (visits_invariant
           (λ s, ∀ v, v ∈ vs →
              ∃ o, orders s !! var_id v = Some o ∧
                   (length o ≤ ndim v)%nat) st0 st); [| done | | done].
  - intros s s' a1 vars1 a2 _ HP _ [Hout Hin] v Hv.
    destruct (HP v Hv) as (o & Ho & Hlen).
    destruct (decide (var_id v ∈ vars1)) as [Hm|Hm].
    + destruct (Hin _ Hm) as (pre & post & _ & _ & Ho' & Hn & _).
      rewrite Ho in Ho'. injection Ho' as ->. eexists. split; [done|].
      rewrite length_app in *. simpl in *. lia.
    + destruct (Hout _ Hm) as [Hsame _]. exists o. by rewrite Hsame.
  - intros v Hv. eexists. split; [by apply F1|].
    pose proof (sublist_length _ _ (kept_keys_sublist v)). unfold ndim. lia.
Qed.

(** The product of the extents of a shape dictionary is the element count of
    its Variable, in every state the loop goes through. *)
Lemma simplified_product (vs : list variable) st0 st :
  Inv st0 → visits st0 st →
  (∀ v, v ∈ vs → shape_dicts st0 !! var_id v = Some (kept v)) →
  ∀ v, v ∈ vs →
    ∃ sd, shape_dicts st !! var_id v = Some sd ∧ mul sd.*2 = size v.
Proof.
  intros HI0 Hvis F1.
  apply (visits_invariant
           (λ s, ∀ v, v ∈ vs →
              ∃ sd, shape_dicts s !! var_id v = Some sd ∧
                    mul sd.*2 = size v) st0 st); [| done | | done].
  - intros s s' a1 vars1 a2 _ HP _ [Hout Hin] v Hv.
    destruct (HP v Hv) as (sd & Hsd & Hmul).
    destruct (decide (var_id v ∈ vars1)) as [Hm|Hm].
    + destruct (Hin _ Hm) as (_ & _ & sd0 & sd' & _ & _ & Hsd0 & Hsd' & Heq).
      exists sd'. split; [done|]. rewrite Hsd in Hsd0. injection Hsd0 as <-.
      by rewrite Heq.
    + destruct (Hout _ Hm) as [_ Hsame]. exists sd. by rewrite Hsame.
  - intros v Hv. exists (kept v). split; [by apply F1|]. apply kept_mul.
Qed.

(** When [_simplify_orders] leaves the orders as they are, no Variable has
    unit extents only. *)
Lemma keeps_orders_nonscalar vs :
  wf_variables vs → keeps_orders vs → nonscalar vs.
Proof.
  intros Hwf [[r Hr] _]. unfold _simplify_orders in Hr.
  destruct (initial_state vs) as [st0|] eqn:H0; [|done].
  by eapply initial_state_nonscalar.
Qed.

(** The state in which the loop ends when [_simplify_orders] leaves the
    orders as they are. *)
Lemma keeps_orders_spec vs :
  wf_variables vs → keeps_orders vs →
  ∃ st,
    Inv st ∧
    _simplify_orders vs = Some (orders st, shape_dicts st) ∧
    ∀ v, v ∈ vs →
      orders st !! var_id v = Some (order v) ∧
      ∃ sd, shape_dicts st !! var_id v = Some sd ∧
            sd.*1 ≡ₚ order v ∧ mul sd.*2 = size v.
Proof.
  intros Hwf Hkeep.
  destruct (_simplify_orders_spec vs Hwf (keeps_orders_nonscalar vs Hwf Hkeep))
    as (st0 & st & _ & HI0 & Hvis & HI & _ & Hres & F1 & _).
  exists st. do 2 (split; [done|]). intros v Hv.
  destruct Hkeep as [_ Hkeep].
  eapply Forall_forall in Hkeep; [|exact Hv].
  unfold simplified_order in Hkeep. rewrite Hres in Hkeep. simpl in Hkeep.
  split; [done|].
  destruct (inv_shape _ HI _ _ Hkeep) as (sd & Hsd & Hkeys).
  destruct (simplified_product vs st0 st HI0 Hvis
              (λ w Hw, proj2 (F1 w Hw)) v Hv) as (sd' & Hsd' & Hmul).
  rewrite Hsd in Hsd'. injection Hsd' as <-. by exists sd.
Qed.

(** [_optimize_loop_structure] returns when [_simplify_orders] leaves the
    orders as they are; what its three dictionaries hold for a Variable of
    the list. *)
Lemma _optimize_loop_structure_spec vs :
  wf_variables vs → keeps_orders vs →
  ∃ st axes ords' strides,
    Inv st ∧
    _simplify_orders vs = Some (orders st, shape_dicts st) ∧
    global_axes (orders st) vs = Some axes ∧
    _optimize_loop_structure vs = Some (ords', shape_dicts st, strides) ∧
    ∀ v, v ∈ vs →
      ∃ o sd sh,
        orders st !! var_id v = Some o ∧
        o = order v ∧
        shape_dicts st !! var_id v = Some sd ∧
        sd.*1 ≡ₚ o ∧
        mul sd.*2 = size v ∧
        mapM (getitem sd) o = Some sh ∧
        strides !! var_id v =
          Some (zip o ((λ i, mul (drop (i + 1) sh)) <$> seq 0 (ndim v))) ∧
        ords' !! var_id v = Some (restrict_to o axes).
Proof.
  intros Hwf Hkeep.
  destruct (keeps_orders_spec vs Hwf Hkeep) as (st & HI & Hres & Hst0).
  assert (∀ v, v ∈ vs → is_Some (orders st !! var_id v)) as Hdom.
  { intros v Hv. destruct (Hst0 v Hv) as [-> _]. by eexists. }
  assert (∀ v, v ∈ vs →
            ∃ sd sh, shape_dicts st !! var_id v = Some sd ∧
                     sd.*1 ≡ₚ order v ∧ mul sd.*2 = size v ∧
                     mapM (getitem sd) (order v) = Some sh) as Hshape.
  { intros v Hv. destruct (Hst0 v Hv) as (Ho & sd & Hsd & Hkeys & Hmul).
    destruct (proj2 (mapM_is_Some (getitem sd) (order v))) as [sh Hsh].
    { apply Forall_forall. intros a Ha. apply getitem_is_Some.
      by rewrite Hkeys. }
    by exists sd, sh. }
  destruct (dict_comp_spec (shapes_of (orders st) (shape_dicts st)) vs Hwf)
    as (shapes & Hshapes & Hsh).
  { intros v Hv. destruct (Hshape v Hv) as (sd & sh & Hsd & _ & _ & Hm).
    unfold shapes_of. rewrite (proj1 (Hst0 v Hv)), Hsd. simpl. rewrite Hm.
    by eexists. }
  destruct (dict_comp_spec (strides_of shapes) vs Hwf)
    as (strides & Hstrides & Hst).
  { intros v Hv. destruct (Hshape v Hv) as (sd & sh & Hsd & _ & _ & Hm).
    unfold strides_of. rewrite (Hsh v Hv). unfold shapes_of.
    rewrite (proj1 (Hst0 v Hv)), Hsd. simpl. rewrite Hm. by eexists. }
  assert (∀ v, v ∈ vs →
            ∃ sd sh, shape_dicts st !! var_id v = Some sd ∧
              mapM (getitem sd) (order v) = Some sh ∧
              stride_dict_of (orders st) strides v =
                Some (zip (order v)
                        ((λ i, mul (drop (i + 1) sh)) <$> seq 0 (ndim v))))
    as Hsdict.
  { intros v Hv. destruct (Hshape v Hv) as (sd & sh & Hsd & _ & _ & Hm).
    exists sd, sh. do 2 (split; [done|]).
    unfold stride_dict_of. rewrite (proj1 (Hst0 v Hv)), (Hst v Hv).
    unfold strides_of. rewrite (Hsh v Hv). unfold shapes_of.
    rewrite (proj1 (Hst0 v Hv)), Hsd. simpl. rewrite Hm. simpl.
    unfold AxisKeyDict_new. rewrite decide_True; [done|].
    by rewrite length_fmap, length_seq. }
  destruct (dict_comp_spec (stride_dict_of (orders st) strides) vs Hwf)
    as (stride_dicts & Hsdicts & Hsd).
  { intros v Hv. destruct (Hsdict v Hv) as (sd & sh & _ & _ & ->).
    by eexists. }
  destruct (global_axes_is_Some (orders st) vs Hdom) as [axes Haxes].
  destruct (dict_comp_spec (reorder (orders st) axes) vs Hwf)
    as (ords' & Hords' & Hre).
  { intros v Hv. destruct (Hdom v Hv) as [o Ho].
    unfold reorder. rewrite Ho. by eexists. }
  exists st, axes, ords', stride_dicts. split; [done|]. split; [done|].
  split; [done|]. split.
  - unfold _optimize_loop_structure. rewrite Hres. simpl.
    rewrite Hshapes. simpl. rewrite Hstrides. simpl. rewrite Hsdicts. simpl.
    rewrite Haxes. simpl. by rewrite Hords'.
  - intros v Hv. destruct (Hshape v Hv) as (sd & sh & Hsd' & Hkeys & Hmul & Hm).
    destruct (Hsdict v Hv) as (sd2 & sh2 & Hsd2 & Hm2 & Hsdv).
    rewrite Hsd' in Hsd2. injection Hsd2 as <-.
    rewrite Hm in Hm2. injection Hm2 as <-.
    exists (order v), sd, sh. split; [by apply Hst0|].
    do 5 (split; [done|]). split.
    + by rewrite (Hsd v Hv).
    + rewrite (Hre v Hv). unfold reorder. by rewrite (proj1 (Hst0 v Hv)).
Qed.

Lemma getitem_zip (o : list Axis) (xs : list Z) i a x :
  NoDup o → o !! i = Some a → xs !! i = Some x →
  getitem (zip o xs) a = Some x.
Proof.
  intros Hnd. revert i xs.
  induction Hnd as [|k o Hk Hnd IH]; intros i xs Ho Hx; [done|].
  destruct xs as [|y xs]; [by destruct i|]. destruct i as [|i]; simpl in *.
  - simplify_eq. by rewrite decide_True.
  - rewrite decide_False; [by eapply IH|].
    intros ->. apply Hk. by eapply list_elem_of_lookup_2.
Qed.

Lemma mapM_drop {A B} (f : A → option B) l k n :
  mapM f l = Some k → mapM f (drop n l) = Some (drop n k).
Proof. rewrite !mapM_Some. apply Forall2_drop. Qed.

(** C2, amended.  On a list of Variables whose orders [_simplify_orders]
    leaves as they are (no axis is dropped, none is merged),
    [_optimize_loop_structure] returns, and the stride dictionary of every
    Variable is row-major with respect to the order [_simplify_orders]
    returns for it, the order of the Variable itself, which the strides are
    computed from on lines 124-126 before the re-ordering of line 133: the
    stride of an axis is the product of the extents of the axes after it in
    that order, and the stride of its last axis is 1. *)
Theorem strides_row_major_in_simplified_order vs :
  wf_variables vs → keeps_orders vs →
  ∃ ords' ords sds stride_dicts,
    _optimize_loop_structure vs = Some (ords', sds, stride_dicts) ∧
    _simplify_orders vs = Some (ords, sds) ∧
    ∀ v, v ∈ vs →
      ∃ sd strides,
        ords !! var_id v = Some (order v) ∧
        sds !! var_id v = Some sd ∧
        stride_dicts !! var_id v = Some strides ∧
        row_major (order v) sd strides ∧
        (∀ a, last (order v) = Some a → getitem strides a = Some 1).
Proof.
  intros Hwf Hkeep.
  destruct (_optimize_loop_structure_spec vs Hwf Hkeep)
    as (st & axes & ords' & stride_dicts & HI & Hsimp & _ & Hopt & Hper).
  exists ords', (orders st), (shape_dicts st), stride_dicts.
  do 2 (split; [done|]). intros v Hv.
  destruct (Hper v Hv)
    as (o & sd & sh & Ho & -> & Hsd & _ & _ & Hsh & Hst & _).
  assert (row_major (order v) sd
            (zip (order v)
               ((λ i, mul (drop (i + 1) sh)) <$> seq 0 (ndim v)))) as Hrm.
  { intros i a Hi. exists (drop (S i) sh). split; [by apply mapM_drop|].
    apply (getitem_zip _ _ i); [by eapply (inv_nodup _ HI)|done|].
    pose proof (lookup_lt_Some _ _ _ Hi). unfold ndim.
    rewrite list_lookup_fmap, lookup_seq_lt by lia. simpl.
    by rewrite Nat.add_1_r. }
  eexists sd, _. do 3 (split; [done|]). split; [done|].
  intros a Ha. rewrite last_lookup in Ha.
  destruct (Hrm _ _ Ha) as (exts & Hexts & ->).
  rewrite drop_ge in Hexts by lia. by injection Hexts as <-.
Qed.

(** C2, amended, on three tensors that share axes in different orders. *)
Lemma strides_row_major_in_simplified_order_witness :
  wf_variables [ab; ba; cab] ∧ keeps_orders [ab; ba; cab] ∧
  ∃ ords' ords sds stride_dicts,
    _optimize_loop_structure [ab; ba; cab] = Some (ords', sds, stride_dicts) ∧
    _simplify_orders [ab; ba; cab] = Some (ords, sds) ∧
    ∀ v, v ∈ [ab; ba; cab] →
      ∃ sd strides,
        ords !! var_id v = Some (order v) ∧
        sds !! var_id v = Some sd ∧
        stride_dicts !! var_id v = Some strides ∧
        row_major (order v) sd strides ∧
        (∀ a, last (order v) = Some a → getitem strides a = Some 1).
Proof.
  assert (wf_variables [ab; ba; cab]) as Hwf by compute_done.
  assert (keeps_orders [ab; ba; cab]) as Hkeep.
  { split; [by eexists|]. repeat apply Forall_cons_2; [..|apply Forall_nil_2];
      vm_compute; reflexivity. }
  split; [exact Hwf|]. split; [exact Hkeep|].
  exact (strides_row_major_in_simplified_order [ab; ba; cab] Hwf Hkeep).
Defined.

(** C2 as stated fails: for [ab] and [ba], which hold the same two axes in
    opposite orders, the final order of [ba] is that of [ab], and in it the
    stride of the last axis is 2. *)
Lemma strides_not_row_major_in_final_order :
  wf_variables [ab; ba] ∧
  ∃ ords' sds stride_dicts o' sd strides,
    _optimize_loop_structure [ab; ba] = Some (ords', sds, stride_dicts) ∧
    ords' !! var_id ba = Some o' ∧
    sds !! var_id ba = Some sd ∧
    stride_dicts !! var_id ba = Some strides ∧
    o' = [AxisGiven 0; AxisGiven 1] ∧
    getitem strides (AxisGiven 1) = Some 2 ∧
    ¬ row_major o' sd strides.
Proof.
  split; [compute_done|].
  eexists _, _, _, _, _, _.
  split; [vm_compute; reflexivity|].
  do 3 (split; [vm_compute; reflexivity|]).
  split; [reflexivity|]. split; [reflexivity|].
  intros Hrm. destruct (Hrm 1%nat (AxisGiven 1) eq_refl) as (exts & He & Hs).
  vm_compute in He. injection He as <-. vm_compute in Hs. done.
Qed.

(** Filtering a sequence keeps the relative order of what it keeps. *)
Lemma precedes_sublist l k a b :
  l `sublist_of` k → precedes l a b → precedes k a b.
Proof.
  intros Hs (l1 & l2 & l3 & ->).
  apply sublist_app_l in Hs as (k1 & k2 & -> & _ & Hs).
  apply sublist_cons_l in Hs as (m1 & m2 & -> & Hs).
  apply sublist_app_l in Hs as (n1 & n2 & -> & _ & Hs).
  apply sublist_cons_l in Hs as (p1 & p2 & -> & _).
  exists (k1 ++ m1), (n1 ++ p1), p2. by rewrite <- !app_assoc.
Qed.

Lemma precedes_restrict_to o axes a b :
  a ∈ o → b ∈ o → precedes axes a b → precedes (restrict_to o axes) a b.
Proof.
  intros Ha Hb (l1 & l2 & l3 & ->). unfold restrict_to.
  rewrite filter_app, filter_cons, decide_True by done.
  rewrite filter_app, filter_cons, decide_True by done.
  by eexists _, _, _.
Qed.

Lemma elem_of_restrict_to o axes a :
  a ∈ restrict_to o axes ↔ a ∈ o ∧ a ∈ axes.
Proof. unfold restrict_to. by rewrite list_elem_of_filter. Qed.

Lemma append_new_axes_NoDup axes o :
  NoDup axes → NoDup o → NoDup (append_new_axes axes o).
Proof.
  intros Ha Ho. unfold append_new_axes. apply NoDup_app. split; [done|].
  split; [|by apply NoDup_filter].
  intros a Hin [Hn _]%list_elem_of_filter. done.
Qed.

Lemma elem_of_append_new_axes axes o a :
  a ∈ append_new_axes axes o ↔ a ∈ axes ∨ a ∈ o.
Proof.
  unfold append_new_axes. rewrite elem_of_app, list_elem_of_filter.
  destruct (decide (a ∈ axes)); tauto.
Qed.

(** Lines 129-131: the global sequence has no repeated axis and holds every
    axis of every order. *)
Lemma accumulate_axes_spec ords vs axes0 axes :
  (∀ v o, v ∈ vs → ords !! var_id v = Some o → NoDup o) →
  NoDup axes0 →
  accumulate_axes ords vs axes0 = Some axes →
  NoDup axes ∧
  (∀ a, a ∈ axes0 → a ∈ axes) ∧
  (∀ v o a, v ∈ vs → ords !! var_id v = Some o → a ∈ o → a ∈ axes).
Proof.
  revert axes0. induction vs as [|v vs IH]; intros axes0 Hnd H0; simpl.
  - intros [= <-]. split; [done|]. split; [done|].
    by intros v o a ?%elem_of_nil.
  - destruct (ords !! var_id v) as [o|] eqn:Ho; [|done]. simpl. intros Hacc.
    apply IH in Hacc as (Hnd' & Hmono & Hcov).
    + split; [done|]. split.
      * intros a Ha. apply Hmono, elem_of_append_new_axes. by left.
      * intros w o' a [->|Hw]%elem_of_cons Ho' Ha.
        -- rewrite Ho in Ho'. injection Ho' as <-.
           apply Hmono, elem_of_append_new_axes. by right.
        -- by eapply Hcov.
    + intros w o' Hw. apply Hnd. by right.
    + apply append_new_axes_NoDup; [done|]. eapply Hnd; [by left|done].
Qed.

(** C6.  In [_optimize_loop_structure] the final order of every Variable is
    the subsequence of the global axis sequence made of the axes of its
    simplified order, a permutation of that order; hence two Variables of the
    list place any two axes they both hold in the same relative order.  The
    call returns on the lists whose orders [_simplify_orders] leaves as they
    are. *)
Theorem final_orders_follow_global_sequence vs :
  wf_variables vs → keeps_orders vs →
  ∃ ords' sds stride_dicts ords axes,
    _optimize_loop_structure vs = Some (ords', sds, stride_dicts) ∧
    _simplify_orders vs = Some (ords, sds) ∧
    global_axes ords vs = Some axes ∧
    (∀ v, v ∈ vs →
       ∃ o, ords !! var_id v = Some o ∧
            ords' !! var_id v = Some (restrict_to o axes) ∧
            restrict_to o axes ≡ₚ o) ∧
    (∀ v w o_v o_w a b,
       v ∈ vs → w ∈ vs →
       ords' !! var_id v = Some o_v → ords' !! var_id w = Some o_w →
       a ∈ o_v → b ∈ o_v → a ∈ o_w → b ∈ o_w →
       precedes o_v a b ↔ precedes o_w a b).
Proof.
  intros Hwf Hkeep.
  destruct (_optimize_loop_structure_spec vs Hwf Hkeep)
    as (st & axes & ords' & stride_dicts & HI & Hsimp & Haxes & Hopt & Hper).
  exists ords', (shape_dicts st), stride_dicts, (orders st), axes.
  do 3 (split; [done|]).
  assert (∀ v, v ∈ vs →
            ∃ o, orders st !! var_id v = Some o ∧
                 ords' !! var_id v = Some (restrict_to o axes)) as Hfinal.
  { intros v Hv.
    destruct (Hper v Hv) as (o & _ & _ & Ho & _ & _ & _ & _ & _ & _ & Hre).
    by exists o. }
  split.
  - intros v Hv. destruct (Hfinal v Hv) as (o & Ho & Hre).
    exists o. do 2 (split; [done|]).
    unfold global_axes in Haxes.
    destruct (sorted_by_ndim (orders st) vs) as [sorted|] eqn:Hsorted; [|done].
    simpl in Haxes.
    destruct (sorted_by_ndim_spec (orders st) vs) as (sorted' & Hs' & Hperm).
    { intros w Hw. destruct (Hfinal w Hw) as (? & -> & _). by eexists. }
    rewrite Hsorted in Hs'. injection Hs' as <-.
    apply accumulate_axes_spec in Haxes as (Hnd & _ & Hcov);
      [| intros w o' _; apply (inv_nodup _ HI) | apply NoDup_nil_2].
    apply NoDup_Permutation.
    + by apply NoDup_filter.
    + by eapply (inv_nodup _ HI).
    + intros a. rewrite elem_of_restrict_to. split; [tauto|].
      intros Ha. split; [done|]. eapply (Hcov v); [by rewrite Hperm|done..].
  - intros v w o_v o_w a b Hv Hw Hov How Hav Hbv Haw Hbw.
    destruct (Hfinal v Hv) as (ov & _ & Hrv). rewrite Hov in Hrv.
    injection Hrv as ->.
    destruct (Hfinal w Hw) as (ow & _ & Hrw). rewrite How in Hrw.
    injection Hrw as ->.
    apply elem_of_restrict_to in Hav as [Hav _], Hbv as [Hbv _].
    apply elem_of_restrict_to in Haw as [Haw _], Hbw as [Hbw _].
    split; intros Hp; apply precedes_restrict_to; try done;
      (eapply precedes_sublist; [|exact Hp]); apply sublist_filter.
Qed.

(** C6 on three tensors that share axes in different orders. *)
Lemma final_orders_follow_global_sequence_witness :
  wf_variables [ab; ba; cab] ∧ keeps_orders [ab; ba; cab] ∧
  ∃ ords' sds stride_dicts ords axes,
    _optimize_loop_structure [ab; ba; cab]
      = Some (ords', sds, stride_dicts) ∧
    _simplify_orders [ab; ba; cab] = Some (ords, sds) ∧
    global_axes ords [ab; ba; cab] = Some axes ∧
    (∀ v, v ∈ [ab; ba; cab] →
       ∃ o, ords !! var_id v = Some o ∧
            ords' !! var_id v = Some (restrict_to o axes) ∧
            restrict_to o axes ≡ₚ o) ∧
    (∀ v w o_v o_w a b,
       v ∈ [ab; ba; cab] → w ∈ [ab; ba; cab] →
       ords' !! var_id v = Some o_v → ords' !! var_id w = Some o_w →
       a ∈ o_v → b ∈ o_v → a ∈ o_w → b ∈ o_w →
       precedes o_v a b ↔ precedes o_w a b).
Proof.
  assert (wf_variables [ab; ba; cab]) as Hwf by compute_done.
  assert (keeps_orders [ab; ba; cab]) as Hkeep.
  { split; [by eexists|]. repeat apply Forall_cons_2; [..|apply Forall_nil_2];
      vm_compute; reflexivity. }
  split; [exact Hwf|]. split; [exact Hkeep|].
  exact (final_orders_follow_global_sequence [ab; ba; cab] Hwf Hkeep).
Defined.

(** C8.  The uniform [W] is [y.size] when it is below 1024 and 1024
    otherwise, and [H] is the ceiling of [y.size / 1024]; for a positive
    element count, [W] is at most 1024 and [W * H] is at least [y.size]. *)
Theorem texture_uniforms_cover_output (y_size : Z) :
  0 < y_size →
  (y_size < 1024 → uniform_W y_size = y_size) ∧
  (1024 ≤ y_size → uniform_W y_size = 1024) ∧
  (1024 * (uniform_H y_size - 1) < y_size ≤ 1024 * uniform_H y_size) ∧
  uniform_W y_size ≤ 1024 ∧
  y_size ≤ uniform_W y_size * uniform_H y_size.
Proof.
  intros Hpos. unfold uniform_W, uniform_H.
  pose proof (Z.div_mod (y_size + 1024 - 1) 1024 ltac:(lia)) as Hdm.
  pose proof (Z.mod_pos_bound (y_size + 1024 - 1) 1024 ltac:(lia)) as Hb.
  destruct (decide (y_size < 1024)) as [Hlt|Hge].
  - assert ((y_size + 1024 - 1) `div` 1024 = 1) as Hone.
    { symmetry. apply (Z.div_unique _ _ 1 (y_size - 1)); lia. }
    rewrite Hone. lia.
  - lia.
Qed.

(** C8 for 2500 elements: 1024 by 3. *)
Lemma texture_uniforms_cover_output_witness :
  0 < 2500 ∧
  uniform_W 2500 ≤ 1024 ∧ 2500 ≤ uniform_W 2500 * uniform_H 2500.
Proof.
  split; [lia | apply (texture_uniforms_cover_output 2500); lia].
Defined.

(** ** Further properties of [_simplify_orders] *)

Lemma merge_entries st a1 vars1 a2 st' :
  Inv st → find_pair st = Some (Some (a1, vars1, a2)) →
  merge st a1 vars1 a2 = Some st' →
  merged_entries st st' a1 a2 vars1.
Proof.
  intros HI Hfind Hmerge v Hv.
  destruct (find_pair_sound _ _ _ _ HI Hfind) as (Hne & Hg1 & Hg2 & Hadj).
  pose proof (counter_fresh _ HI) as Hfresh.
  destruct (Hadj v Hv) as (o & i & Ho & Hi1 & Hi2).
  destruct (inv_shape _ HI _ _ Ho) as (sd & Hsd & Hkeys).
  pose proof (adjacent_split _ _ _ _ Hi1 Hi2) as Hsplit.
  assert (a1 ∈ o) as Ha1 by (rewrite Hsplit; elem_solver).
  assert (a2 ∈ o) as Ha2 by (rewrite Hsplit; elem_solver).
  assert (AxisX (counter st) ∉ sd.*1) as Hn.
  { rewrite Hkeys. intros Hin. by apply Hfresh, (inv_cover _ HI v o). }
  destruct (proj2 (getitem_is_Some sd a1)) as [n1 Hn1]; [by rewrite Hkeys|].
  destruct (proj2 (getitem_is_Some sd a2)) as [n2 Hn2]; [by rewrite Hkeys|].
  destruct (merge_shape_dict_spec a1 a2 (AxisX (counter st)) sd n1 n2)
    as (sd' & rest & Hm & Hp1 & Hp2); try done.
  exists sd, sd', rest, n1, n2. split; [done|]. split; [|done].
  unfold merge in Hmerge.
  destruct (merge_in_variables a1 a2 (AxisX (counter st)) (elements vars1)
              (orders st) (shape_dicts st)) as [[ords' sds']|] eqn:Hmv; [|done].
  simpl in Hmerge.
  destruct (delitem (setitem (var_dict st) (AxisX (counter st)) vars1) a1)
    as [vd1|]; [|done]. simpl in Hmerge.
  destruct (delitem vd1 a2) as [vd2|]; [|done]. simpl in Hmerge.
  injection Hmerge as <-. simpl.
  destruct (merge_in_variables_spec a1 a2 (AxisX (counter st)) (elements vars1)
              (orders st) (shape_dicts st)) as (ords'' & sds'' & Hmv' & Hspec).
  { apply NoDup_elements. }
  { intros w Hw%elem_of_elements.
    destruct (Hadj w Hw) as (ow & iw & How & Hiw1 & Hiw2).
    destruct (inv_shape _ HI _ _ How) as (sdw & Hsdw & Hkw).
    pose proof (adjacent_split _ _ _ _ Hiw1 Hiw2) as Hsw.
    rewrite How, Hsdw. simpl. split.
    - destruct (proj2 (getitem_is_Some sdw a1)) as [m1 Hm1];
        [rewrite Hkw, Hsw; elem_solver|].
      destruct (proj2 (getitem_is_Some sdw a2)) as [m2 Hm2];
        [rewrite Hkw, Hsw; elem_solver|].
      assert (AxisX (counter st) ∉ sdw.*1) as Hnw.
      { rewrite Hkw. intros Hin. by apply Hfresh, (inv_cover _ HI w ow). }
      destruct (merge_shape_dict_spec a1 a2 (AxisX (counter st)) sdw m1 m2)
        as (sdw' & ? & -> & _); by try eexists.
    - rewrite (merge_order_adjacent _ _ _ _ _ Hiw1 Hiw2). by eexists. }
  rewrite Hmv in Hmv'. injection Hmv' as <- <-.
  destruct (Hspec v) as [_ Hin]. destruct Hin as [_ Hs];
    [by apply elem_of_elements|].
  rewrite Hs, Hsd. simpl. done.
Qed.

(** A property of the entry state that each merge keeps, the entries of the
    shape dictionaries being given as well. *)
Lemma visits_invariant_entries (P : State → Prop) st0 st :
  (∀ s s' a1 vars1 a2,
     Inv s → P s → find_pair s = Some (Some (a1, vars1, a2)) →
     merged_from s s' a1 a2 vars1 → merged_entries s s' a1 a2 vars1 → P s') →
  Inv st0 → P st0 → visits st0 st → P st.
Proof.
  intros Hstep HI HP Hv.
  induction Hv as [|st1 st2 st3 Hm _ IH]; [done|].
  destruct (merge_step_spec st1 HI)
    as [[Hn _]|(a1 & vars1 & a2 & st' & Hf & Hm' & HI' & _ & Hmf)];
    unfold merges_to in *; [congruence|].
  assert (st' = st2) as -> by congruence.
  apply IH; [done|]. apply (Hstep st1 st2 a1 vars1 a2); try done.
  apply merge_entries; try done.
  unfold merge_step in Hm. rewrite Hf in Hm. simpl in Hm.
  destruct (merge st1 a1 vars1 a2); [|done]. simpl in Hm. congruence.
Qed.

(** X1.  For Variables with distinct axes and positive extents, none of
    which has unit extents only, no extent 1 is left in the shape
    dictionaries [_simplify_orders] returns: every returned extent is at
    least 2. *)
Theorem simplify_leaves_no_unit_extent vs :
  wf_variables vs → nonscalar vs → positive_extents vs →
  ∃ ords sds,
    _simplify_orders vs = Some (ords, sds) ∧
    ∀ v, v ∈ vs →
      ∃ sd, sds !! var_id v = Some sd ∧
            Forall (λ p : Axis * Z, 2 ≤ p.2) sd.
Proof.
  intros Hwf Hns Hpos.
  destruct (_simplify_orders_spec vs Hwf Hns)
    as (st0 & st & _ & HI0 & Hvis & _ & _ & Hres & F1 & _).
  exists (orders st), (shape_dicts st). split; [done|].
  apply (visits_invariant_entries
           (λ s, ∀ v, v ∈ vs →
              ∃ sd, shape_dicts s !! var_id v = Some sd ∧
                    Forall (λ p : Axis * Z, 2 ≤ p.2) sd) st0 st);
    [| done | | done].
  - intros s s' a1 vars1 a2 _ HP _ [Hout _] Hent v Hv.
    destruct (HP v Hv) as (sd & Hsd & Hall).
    destruct (decide (var_id v ∈ vars1)) as [Hm|Hm].
    + destruct (Hent _ Hm) as (sd0 & sd' & rest & n1 & n2 & Hsd0 & Hsd' & Hp & Hp').
      rewrite Hsd in Hsd0. injection Hsd0 as <-.
      exists sd'. split; [done|].
      rewrite Hp in Hall. rewrite Hp'.
      apply Forall_cons in Hall as [H1 Hall]. apply Forall_cons in Hall as [H2 Hall].
      apply Forall_cons. simpl in *. split; [nia|done].
    + destruct (Hout _ Hm) as [_ Hsame]. exists sd. by rewrite Hsame.
  - intros v Hv. destruct (F1 v Hv) as [_ Hsd]. exists (kept v).
    split; [done|].
    unfold kept. apply Forall_forall. intros [a n] [Hn Hin]%list_elem_of_filter.
    simpl in *. eapply Forall_forall in Hpos; [|exact Hv].
    eapply Forall_forall in Hpos; [|]. 2:{ apply list_elem_of_fmap. by exists (a, n). }
    simpl in Hpos. lia.
Qed.

(** X1 on the tensors of the docstring and a tensor with a unit axis. *)
Lemma simplify_leaves_no_unit_extent_witness :
  wf_variables [c; hw; nhwc; batch1] ∧ nonscalar [c; hw; nhwc; batch1] ∧
  positive_extents [c; hw; nhwc; batch1] ∧
  ∃ ords sds,
    _simplify_orders [c; hw; nhwc; batch1] = Some (ords, sds) ∧
    ∀ v, v ∈ [c; hw; nhwc; batch1] →
      ∃ sd, sds !! var_id v = Some sd ∧
            Forall (λ p : Axis * Z, 2 ≤ p.2) sd.
Proof.
  assert (wf_variables [c; hw; nhwc; batch1]) as Hwf by compute_done.
  assert (nonscalar [c; hw; nhwc; batch1]) as Hns by compute_done.
  assert (positive_extents [c; hw; nhwc; batch1]) as Hpos by compute_done.
  split; [exact Hwf|]. split; [exact Hns|]. split; [exact Hpos|].
  exact (simplify_leaves_no_unit_extent [c; hw; nhwc; batch1] Hwf Hns Hpos).
Defined.

(** The loop keeps the keys of [orders], the Variables of the list, and
    leaves no order empty. *)
Lemma simplified_orders_domain (vs : list variable) st0 st :
  Inv st0 → visits st0 st → nonscalar vs →
  (∀ v, v ∈ vs → orders st0 !! var_id v = Some (kept v).*1) →
  (∀ i o, orders st0 !! i = Some o → ∃ v, v ∈ vs ∧ var_id v = i) →
  ∀ i o, orders st !! i = Some o →
    (∃ v, v ∈ vs ∧ var_id v = i) ∧ (1 ≤ length o)%nat.
Proof.
  intros HI0 Hvis Hns F1 F2.
  apply (visits_invariant
           (λ s, ∀ i o, orders s !! i = Some o →
              (∃ v, v ∈ vs ∧ var_id v = i) ∧ (1 ≤ length o)%nat) st0 st);
    [| done | | done].
  - intros s s' a1 vars1 a2 _ HP _ [Hout Hin] i o Ho.
    destruct (decide (i ∈ vars1)) as [Hm|Hm].
    + destruct (Hin _ Hm) as (pre & post & _ & _ & Ho0 & Ho' & _).
      rewrite Ho in Ho'. injection Ho' as ->.
      split; [by eapply HP|]. rewrite length_app. simpl. lia.
    + destruct (Hout _ Hm) as [Hsame _]. rewrite Hsame in Ho. by eapply HP.
  - intros i o Ho. split; [by eapply F2|].
    destruct (F2 i o Ho) as (v & Hv & <-). pose proof (F1 v Hv) as Ho'.
    rewrite Ho in Ho'. injection Ho' as ->.
    eapply Forall_forall in Hns; [|exact Hv].
    rewrite length_fmap. destruct (kept v); [done|simpl; lia].
Qed.

(** X2.  When no Variable of the list has unit extents only,
    [_simplify_orders] returns an order and a shape dictionary for the
    Variables of the list and for no other key; the axes of a returned order
    are distinct and are the keys of the returned shape dictionary; a
    returned order is never empty, and never longer than the order the
    Variable came with. *)
Theorem simplify_result_well_formed vs :
  wf_variables vs → nonscalar vs →
  ∃ ords sds,
    _simplify_orders vs = Some (ords, sds) ∧
    (∀ i, is_Some (ords !! i) ↔ ∃ v, v ∈ vs ∧ var_id v = i) ∧
    ∀ v, v ∈ vs →
      ∃ o sd,
        ords !! var_id v = Some o ∧
        sds !! var_id v = Some sd ∧
        NoDup o ∧ sd.*1 ≡ₚ o ∧
        (1 ≤ length o ≤ ndim v)%nat.
Proof.
  intros Hwf Hns.
  destruct (_simplify_orders_spec vs Hwf Hns)
    as (st0 & st & _ & HI0 & Hvis & HI & _ & Hres & F1 & F2).
  exists (orders st), (shape_dicts st). split; [done|].
  pose proof (simplified_order_length vs st0 st HI0 Hvis
                (λ v Hv, proj1 (F1 v Hv))) as Hlen.
  pose proof (simplified_orders_domain vs st0 st HI0 Hvis Hns
                (λ v Hv, proj1 (F1 v Hv)) F2) as Hdom.
  split.
  - intros i. split.
    + intros [o Ho]. by destruct (Hdom i o Ho).
    + intros (v & Hv & <-). destruct (Hlen v Hv) as (o & -> & _). by eexists.
  - intros v Hv. destruct (Hlen v Hv) as (o & Ho & Hle).
    destruct (inv_shape _ HI _ _ Ho) as (sd & Hsd & Hkeys).
    exists o, sd. do 2 (split; [done|]). split; [by eapply (inv_nodup _ HI)|].
    split; [done|]. split; [|done]. by destruct (Hdom _ _ Ho).
Qed.

(** X2 on the tensors of the docstring. *)
Lemma simplify_result_well_formed_witness :
  wf_variables [c; hw; nhwc] ∧ nonscalar [c; hw; nhwc] ∧
  ∃ ords sds,
    _simplify_orders [c; hw; nhwc] = Some (ords, sds) ∧
    (∀ i, is_Some (ords !! i) ↔ ∃ v, v ∈ [c; hw; nhwc] ∧ var_id v = i) ∧
    ∀ v, v ∈ [c; hw; nhwc] →
      ∃ o sd,
        ords !! var_id v = Some o ∧
        sds !! var_id v = Some sd ∧
        NoDup o ∧ sd.*1 ≡ₚ o ∧
        (1 ≤ length o ≤ ndim v)%nat.
Proof.
  assert (wf_variables [c; hw; nhwc]) as Hwf by compute_done.
  assert (nonscalar [c; hw; nhwc]) as Hns by compute_done.
  split; [exact Hwf|]. split; [exact Hns|].
  exact (simplify_result_well_formed [c; hw; nhwc] Hwf Hns).
Defined.

Lemma filter_given_swap (pre post : list Axis) a1 a2 k :
  filter is_given (pre ++ AxisX k :: post)
  `sublist_of` filter is_given (pre ++ a1 :: a2 :: post).
Proof.
  rewrite !filter_app. apply sublist_app; [done|].
  rewrite (filter_cons_False _ (AxisX k)) by (by intros []).
  change (a1 :: a2 :: post) with ([a1; a2] ++ post).
  rewrite filter_app. by apply sublist_inserts_l.
Qed.

(** X3.  When no Variable of the list has unit extents only, an axis of a
    Variable that is still in its returned order was neither dropped nor
    merged: the original axes left in the returned order come in the
    sequence of the Variable's own order, and each has its original extent,
    which is not 1. *)
Theorem simplify_keeps_surviving_axes vs :
  wf_variables vs → nonscalar vs →
  ∃ ords sds,
    _simplify_orders vs = Some (ords, sds) ∧
    ∀ v, v ∈ vs →
      ∃ o sd,
        ords !! var_id v = Some o ∧
        sds !! var_id v = Some sd ∧
        filter is_given o `sublist_of` order v ∧
        ∀ a n, is_given a → getitem sd a = Some n →
               getitem (shape_dict v) a = Some n ∧ n ≠ 1.
Proof.
  intros Hwf Hns.
  destruct (_simplify_orders_spec vs Hwf Hns)
    as (st0 & st & _ & HI0 & Hvis & HI & _ & Hres & F1 & _).
  exists (orders st), (shape_dicts st). split; [done|].
  assert (∀ v, v ∈ vs →
            ∃ o sd, orders st !! var_id v = Some o ∧
                    shape_dicts st !! var_id v = Some sd ∧
                    filter is_given o `sublist_of` order v ∧
                    ∀ a n, is_given a → (a, n) ∈ sd → (a, n) ∈ kept v)
    as Hinv.
  { apply (visits_invariant_entries
             (λ s, ∀ v, v ∈ vs →
                ∃ o sd, orders s !! var_id v = Some o ∧
                        shape_dicts s !! var_id v = Some sd ∧
                        filter is_given o `sublist_of` order v ∧
                        ∀ a n, is_given a → (a, n) ∈ sd → (a, n) ∈ kept v)
             st0 st); [| done | | done].
    - intros s s' a1 vars1 a2 _ HP _ [Hout Hin] Hent v Hv.
      destruct (HP v Hv) as (o & sd & Ho & Hsd & Hsub & Hext).
      destruct (decide (var_id v ∈ vars1)) as [Hm|Hm].
      + destruct (Hin _ Hm) as (pre & post & _ & _ & Ho0 & Ho' & _).
        destruct (Hent _ Hm)
          as (sd0 & sd' & rest & n1 & n2 & Hsd0 & Hsd' & Hp & Hp').
        rewrite Ho in Ho0. injection Ho0 as ->.
        rewrite Hsd in Hsd0. injection Hsd0 as <-.
        eexists _, sd'. do 2 (split; [done|]). split.
        * etrans; [apply filter_given_swap|done].
        * intros a n Hg Han. apply Hext; [done|]. rewrite Hp.
          rewrite Hp' in Han. apply elem_of_cons in Han as [[= -> _]|Han];
            [done|]. by do 2 right.
      + destruct (Hout _ Hm) as [Ho' Hsd']. exists o, sd.
        by rewrite Ho', Hsd'.
    - intros v Hv. destruct (F1 v Hv) as [Ho Hsd].
      eexists _, _. do 2 (split; [done|]). split; [|done].
      etrans; [apply sublist_filter|apply kept_keys_sublist]. }
  intros v Hv. destruct (Hinv v Hv) as (o & sd & Ho & Hsd & Hsub & Hext).
  exists o, sd. do 3 (split; [done|]). intros a n Hg Hget.
  apply getitem_elem_of in Hget. apply Hext in Hget; [|done].
  apply list_elem_of_filter in Hget as [Hn Hin]. split; [|done].
  apply elem_of_getitem; [|done].
  destruct Hwf as [Hwf _]. eapply Forall_forall in Hwf; [|exact Hv].
  by destruct Hwf.
Qed.

(** X3 on the tensors of the docstring. *)
Lemma simplify_keeps_surviving_axes_witness :
  wf_variables [c; hw; nhwc] ∧ nonscalar [c; hw; nhwc] ∧
  ∃ ords sds,
    _simplify_orders [c; hw; nhwc] = Some (ords, sds) ∧
    ∀ v, v ∈ [c; hw; nhwc] →
      ∃ o sd,
        ords !! var_id v = Some o ∧
        sds !! var_id v = Some sd ∧
        filter is_given o `sublist_of` order v ∧
        ∀ a n, is_given a → getitem sd a = Some n →
               getitem (shape_dict v) a = Some n ∧ n ≠ 1.
Proof.
  assert (wf_variables [c; hw; nhwc]) as Hwf by compute_done.
  assert (nonscalar [c; hw; nhwc]) as Hns by compute_done.
  split; [exact Hwf|]. split; [exact Hns|].
  exact (simplify_keeps_surviving_axes [c; hw; nhwc] Hwf Hns).
Defined.

Lemma any_gen_true {A} (f : A → option bool) l :
  any_gen f l = Some true → ∃ x, x ∈ l ∧ f x = Some true.
Proof.
  induction l as [|y l IH]; simpl; [done|].
  destruct (f y) as [[]|] eqn:Hy; simpl; [| |done].
  - intros _. exists y. split; [by left|done].
  - intros (x & Hx & Hfx)%IH. exists x. split; [by right|done].
Qed.

Lemma find_axis2_None ords a1 vars1 items :
  find_axis2 ords a1 vars1 items = Some None →
  ∀ a2 vars2, (a2, vars2) ∈ items →
    skip_pair ords a1 vars1 a2 vars2 = Some true.
Proof.
  induction items as [|[b vars] items IH]; simpl;
    [by intros _ a2 vars2 ?%elem_of_nil|].
  destruct (skip_pair ords a1 vars1 b vars) as [[]|] eqn:Hs; simpl; [|done..].
  intros Hrest a2 vars2 [[= -> ->]|Hin]%elem_of_cons; [done|by apply IH].
Qed.

Lemma find_pair_from_None ords items1 items :
  find_pair_from ords items1 items = Some None →
  ∀ a1 vars1 a2 vars2, (a1, vars1) ∈ items1 → (a2, vars2) ∈ items →
    skip_pair ords a1 vars1 a2 vars2 = Some true.
Proof.
  induction items1 as [|[b vars] items1 IH]; simpl;
    [by intros _ a1 vars1 a2 vars2 ?%elem_of_nil|].
  destruct (find_axis2 ords b vars items) as [[c|]|] eqn:Hf; simpl; [done| |done].
  intros Hrest a1 vars1 a2 vars2 [[= -> ->]|Hin]%elem_of_cons H2.
  - by eapply find_axis2_None.
  - by eapply IH.
Qed.

Lemma axes_dict_middle (pre post : list Axis) a :
  NoDup (pre ++ a :: post) → axes_dict (pre ++ a :: post) a = Some (length pre).
Proof.
  intros Hnd. apply axes_dict_lookup; [done|].
  by rewrite lookup_app_r, Nat.sub_diag by lia.
Qed.

(** In a state where the search finds no pair, two distinct axes held by the
    same Variables are not adjacent in one of them. *)
Lemma no_pair_left st (a1 a2 : Axis) :
  Inv st → find_pair st = Some None → a1 ≠ a2 →
  (∃ v o, orders st !! v = Some o ∧ a1 ∈ o) →
  (∀ v o, orders st !! v = Some o → (a1 ∈ o ↔ a2 ∈ o)) →
  ∃ v o, orders st !! v = Some o ∧ a1 ∈ o ∧
         ¬ ∃ pre post, o = pre ++ a1 :: a2 :: post.
Proof.
  intros HI Hnone Hne (v0 & o0 & Ho0 & Ha0) Hsame.
  destruct (proj2 (getitem_is_Some (var_dict st) a1)) as [vars1 Hg1].
  { by eapply (inv_cover _ HI). }
  destruct (proj2 (getitem_is_Some (var_dict st) a2)) as [vars2 Hg2].
  { eapply (inv_cover _ HI); [done|]. by apply (Hsame v0 o0). }
  assert (vars1 = vars2) as <-.
  { apply set_eq. intros v.
    rewrite (inv_members _ HI _ _ Hg1 v), (inv_members _ HI _ _ Hg2 v).
    split; intros (o & Ho & Ha); exists o; (split; [done|]);
      by apply (Hsame v o). }
  pose proof (find_pair_from_None _ _ _ Hnone a1 vars1 a2 vars1
                (getitem_elem_of _ _ _ Hg1) (getitem_elem_of _ _ _ Hg2))
    as Hskip.
  unfold skip_pair in Hskip. rewrite decide_False in Hskip by done.
  rewrite decide_False in Hskip by (by intros ?).
  apply any_gen_true in Hskip as (v & Hv%elem_of_elements & Hna).
  unfold not_adjacent in Hna.
  destruct (orders st !! v) as [o|] eqn:Ho; [|done]. simpl in Hna.
  destruct (axes_dict o a1) as [i|] eqn:Hi; [|done]. simpl in Hna.
  destruct (axes_dict o a2) as [j|] eqn:Hj; [|done]. simpl in Hna.
  injection Hna as Hna. apply bool_decide_eq_true in Hna.
  exists v, o. split; [done|]. split.
  { destruct (proj1 (inv_members _ HI _ _ Hg1 v) Hv) as (o' & Ho' & ?).
    by simplify_eq. }
  intros (pre & post & ->). pose proof (inv_nodup _ HI _ _ Ho) as Hnd.
  rewrite (axes_dict_middle pre (a2 :: post) a1 Hnd) in Hi.
  change (pre ++ a1 :: a2 :: post) with (pre ++ [a1] ++ a2 :: post) in Hj, Hnd.
  rewrite app_assoc in Hj, Hnd.
  rewrite (axes_dict_middle _ _ _ Hnd), length_app in Hj. simpl in Hj.
  simplify_eq.
Qed.

Lemma loop_end_no_pair st : Inv st → merge_step st = Some None →
  find_pair st = Some None.
Proof.
  intros HI Hend.
  destruct (merge_step_spec st HI)
    as [[_ ?]|(? & ? & ? & ? & _ & Hm & _)]; [done|].
  unfold merges_to in Hm. congruence.
Qed.

(** X4.  When no Variable of the list has unit extents only,
    [_simplify_orders] returns and no pair is left to merge: of two distinct
    axes in use that are in the orders of the same Variables, the second does
    not come right after the first in at least one of these orders. *)
Theorem simplify_result_is_maximal vs :
  wf_variables vs → nonscalar vs →
  ∃ ords sds,
    _simplify_orders vs = Some (ords, sds) ∧
    ∀ a1 a2 : Axis, a1 ≠ a2 →
      (∃ v o, ords !! v = Some o ∧ a1 ∈ o) →
      (∀ v o, ords !! v = Some o → (a1 ∈ o ↔ a2 ∈ o)) →
      ∃ v o, ords !! v = Some o ∧ a1 ∈ o ∧
             ¬ ∃ pre post, o = pre ++ a1 :: a2 :: post.
Proof.
  intros Hwf Hns.
  destruct (_simplify_orders_spec vs Hwf Hns)
    as (st0 & st & _ & _ & _ & HI & Hend & Hres & _).
  exists (orders st), (shape_dicts st). split; [done|].
  intros a1 a2. apply no_pair_left; [done|]. by apply loop_end_no_pair.
Qed.

(** X4 on the tensors of the docstring. *)
Lemma simplify_result_is_maximal_witness :
  wf_variables [c; hw; nhwc] ∧ nonscalar [c; hw; nhwc] ∧
  ∃ ords sds,
    _simplify_orders [c; hw; nhwc] = Some (ords, sds) ∧
    ∀ a1 a2 : Axis, a1 ≠ a2 →
      (∃ v o, ords !! v = Some o ∧ a1 ∈ o) →
      (∀ v o, ords !! v = Some o → (a1 ∈ o ↔ a2 ∈ o)) →
      ∃ v o, ords !! v = Some o ∧ a1 ∈ o ∧
             ¬ ∃ pre post, o = pre ++ a1 :: a2 :: post.
Proof.
  assert (wf_variables [c; hw; nhwc]) as Hwf by compute_done.
  assert (nonscalar [c; hw; nhwc]) as Hns by compute_done.
  split; [exact Hwf|]. split; [exact Hns|].
  exact (simplify_result_is_maximal [c; hw; nhwc] Hwf Hns).
Defined.

Lemma split_unique (pre post pre' post' : list Axis) a :
  NoDup (pre ++ a :: post) → pre ++ a :: post = pre' ++ a :: post' →
  pre = pre' ∧ post = post'.
Proof.
  intros Hnd Heq. pose proof (axes_dict_middle _ _ _ Hnd) as H1.
  rewrite Heq in Hnd, H1. rewrite (axes_dict_middle _ _ _ Hnd) in H1.
  injection H1 as Hlen. apply app_inj_1 in Heq as [-> Heq]; [|done].
  by injection Heq as ->.
Qed.

(** X5.  Variables that all have the same shape dictionary (the same axes
    in the same sequence with the same extents), with an extent that is not
    1, are flattened by [_simplify_orders] to one shared axis, whose extent
    is the element count. *)
Theorem simplify_same_layout_one_axis vs :
  wf_variables vs → nonscalar vs → vs ≠ [] → same_layout vs →
  ∃ ords sds (a : Axis),
    _simplify_orders vs = Some (ords, sds) ∧
    ∀ v, v ∈ vs →
      ords !! var_id v = Some [a] ∧
      sds !! var_id v = Some [(a, mul (shape v))].
Proof.
  intros Hwf Hns Hne Hlay.
  assert (∀ v w, v ∈ vs → w ∈ vs → shape_dict v = shape_dict w) as Hsame.
  { intros v w Hv Hw. eapply Forall_forall in Hlay; [|exact Hv].
    by eapply Forall_forall in Hlay. }
  destruct (_simplify_orders_spec vs Hwf Hns)
    as (st0 & st & _ & HI0 & Hvis & HI & Hend & Hres & F1 & F2).
  pose proof (simplified_orders_domain vs st0 st HI0 Hvis Hns
                (λ v Hv, proj1 (F1 v Hv)) F2) as Hdom.
  pose proof (simplified_product vs st0 st HI0 Hvis
                (λ v Hv, proj2 (F1 v Hv))) as Hprod.
  assert (∀ v w, v ∈ vs → w ∈ vs →
            orders st !! var_id v = orders st !! var_id w) as Heq.
  { apply (visits_invariant
             (λ s, ∀ v w, v ∈ vs → w ∈ vs →
                orders s !! var_id v = orders s !! var_id w) st0 st);
      [| done | | done].
    - intros s s' a1 vars1 a2 HIs HP Hf [Hout Hin].
      destruct (find_pair_sound _ _ _ _ HIs Hf) as (_ & Hg1 & _ & _).
      assert (∀ v w, v ∈ vs → w ∈ vs → var_id v ∈ vars1 →
                orders s' !! var_id v = orders s' !! var_id w) as Hcase.
      { intros v w Hv Hw Hm.
        destruct (Hin _ Hm) as (pre & post & _ & _ & Ho & Ho' & _).
        assert (var_id w ∈ vars1) as Hmw.
        { apply (inv_members _ HIs _ _ Hg1). eexists. split.
          - rewrite <- (HP v w Hv Hw). exact Ho.
          - elem_solver. }
        destruct (Hin _ Hmw) as (pre' & post' & _ & _ & How & How' & _).
        rewrite <- (HP v w Hv Hw), Ho in How. injection How as How.
        apply split_unique in How as [-> Hp];
          [|by eapply (inv_nodup _ HIs)].
        injection Hp as ->. by rewrite Ho', How'. }
      intros v w Hv Hw.
      destruct (decide (var_id v ∈ vars1)) as [Hm|Hm]; [by apply Hcase|].
      destruct (decide (var_id w ∈ vars1)) as [Hmw|Hmw];
        [symmetry; by apply Hcase|].
      destruct (Hout _ Hm) as [-> _]. destruct (Hout _ Hmw) as [-> _].
      by apply HP.
    - intros v w Hv Hw. destruct (F1 v Hv) as [-> _].
      destruct (F1 w Hw) as [-> _]. unfold kept.
      by rewrite (Hsame v w Hv Hw). }
  destruct vs as [|v0 vs']; [done|]. set (vs := v0 :: vs') in *.
  assert (v0 ∈ vs) as Hv0 by (by left).
  destruct (Hprod v0 Hv0) as (sd0 & Hsd0 & Hmul0).
  destruct (simplified_order_length vs st0 st HI0 Hvis
              (λ v Hv, proj1 (F1 v Hv)) v0 Hv0) as (o0 & Ho0 & _).
  assert (∃ a, o0 = [a]) as [a ->].
  { destruct (Hdom _ _ Ho0) as [_ Hlen].
    destruct o0 as [|x [|y rest]]; [simpl in Hlen; lia|by exists x|].
    exfalso. pose proof (inv_nodup _ HI _ _ Ho0) as Hnd.
    destruct (no_pair_left st x y HI (loop_end_no_pair st HI Hend))
      as (v & o & Ho & _ & Hnot).
    - intros ->. apply NoDup_cons in Hnd as [Hx _]. apply Hx. by left.
    - exists (var_id v0), (x :: y :: rest). split; [done|by left].
    - intros i o Ho. destruct (Hdom _ _ Ho) as [(w & Hw & <-) _].
      rewrite (Heq w v0 Hw Hv0), Ho0 in Ho. injection Ho as <-.
      split; intros _; elem_solver.
    - apply Hnot. destruct (Hdom _ _ Ho) as [(w & Hw & <-) _].
      rewrite (Heq w v0 Hw Hv0), Ho0 in Ho. injection Ho as <-.
      by exists [], rest. }
  exists (orders st), (shape_dicts st), a. split; [done|].
  intros v Hv. split; [by rewrite (Heq v v0 Hv Hv0)|].
  destruct (Hprod v Hv) as (sd & Hsd & Hmul).
  rewrite Hsd. f_equal.
  assert (orders st !! var_id v = Some [a]) as Ho
    by (by rewrite (Heq v v0 Hv Hv0)).
  destruct (inv_shape _ HI _ _ Ho) as (sd' & Hsd' & Hkeys).
  rewrite Hsd in Hsd'. injection Hsd' as <-.
  apply Permutation_singleton_r in Hkeys.
  destruct sd as [|[k n] [|? ?]]; try done.
  simpl in Hkeys. injection Hkeys as ->.
  unfold size, mul in Hmul. simpl in Hmul. unfold mul. f_equal. f_equal. lia.
Qed.

(** X5 on two Variables of the layout of [nhwc]. *)
Lemma simplify_same_layout_one_axis_witness :
  wf_variables [nhwc; nhwc_twin] ∧ nonscalar [nhwc; nhwc_twin] ∧
  same_layout [nhwc; nhwc_twin] ∧
  ∃ ords sds (a : Axis),
    _simplify_orders [nhwc; nhwc_twin] = Some (ords, sds) ∧
    ∀ v, v ∈ [nhwc; nhwc_twin] →
      ords !! var_id v = Some [a] ∧
      sds !! var_id v = Some [(a, mul (shape v))].
Proof.
  assert (wf_variables [nhwc; nhwc_twin]) as Hwf by compute_done.
  assert (nonscalar [nhwc; nhwc_twin]) as Hns by compute_done.
  assert (same_layout [nhwc; nhwc_twin]) as Hlay by compute_done.
  split; [exact Hwf|]. split; [exact Hns|]. split; [exact Hlay|].
  by apply (simplify_same_layout_one_axis [nhwc; nhwc_twin] Hwf Hns).
Defined.

(** ** More on [_optimize_loop_structure] *)

Lemma accumulate_axes_elem ords vs axes0 axes a :
  accumulate_axes ords vs axes0 = Some axes → a ∈ axes →
  a ∈ axes0 ∨ ∃ v o, v ∈ vs ∧ ords !! var_id v = Some o ∧ a ∈ o.
Proof.
  revert axes0. induction vs as [|v vs IH]; intros axes0; simpl.
  - intros [= <-] Ha. by left.
  - destruct (ords !! var_id v) as [o|] eqn:Ho; [|done]. simpl.
    intros Hacc Ha. destruct (IH _ Hacc Ha) as [Hin|(w & o' & Hw & Ho' & Hin)].
    + apply elem_of_append_new_axes in Hin as [?|?]; [by left|].
      right. exists v, o. split; [by left|done].
    + right. exists w, o'. split; [by right|done].
Qed.

(** X6.  On a list of Variables whose orders [_simplify_orders] leaves as
    they are, [_optimize_loop_structure] returns, and the global axis
    sequence of lines 129-131 holds every axis of the Variables of the list,
    each once, and nothing else. *)
Theorem global_axes_lists_each_axis_once vs :
  wf_variables vs → keeps_orders vs →
  ∃ ords' ords sds stride_dicts axes,
    _optimize_loop_structure vs = Some (ords', sds, stride_dicts) ∧
    _simplify_orders vs = Some (ords, sds) ∧
    global_axes ords vs = Some axes ∧
    NoDup axes ∧
    ∀ a, a ∈ axes ↔ ∃ v, v ∈ vs ∧ a ∈ order v.
Proof.
  intros Hwf Hkeep.
  destruct (_optimize_loop_structure_spec vs Hwf Hkeep)
    as (st & axes & ords' & stride_dicts & HI & Hsimp & Haxes & Hopt & Hper).
  exists ords', (orders st), (shape_dicts st), stride_dicts, axes.
  do 3 (split; [done|]).
  assert (∀ v, v ∈ vs → orders st !! var_id v = Some (order v)) as Hown.
  { intros v Hv. by destruct (Hper v Hv) as (? & ? & ? & ? & -> & _). }
  unfold global_axes in Haxes.
  destruct (sorted_by_ndim (orders st) vs) as [sorted|] eqn:Hsorted; [|done].
  simpl in Haxes.
  destruct (sorted_by_ndim_spec (orders st) vs) as (sorted' & Hs' & Hperm).
  { intros w Hw. rewrite (Hown w Hw). by eexists. }
  rewrite Hsorted in Hs'. injection Hs' as <-.
  pose proof (accumulate_axes_spec _ _ _ _
                (λ w o' _, inv_nodup _ HI (var_id w) o')
                (NoDup_nil_2) Haxes) as (Hnd & _ & Hcov).
  split; [done|]. intros a. split.
  - intros Ha.
    destruct (accumulate_axes_elem _ _ _ _ _ Haxes Ha)
      as [?%elem_of_nil|(v & o & Hv & Ho & Hin)]; [done|].
    rewrite Hperm in Hv. rewrite (Hown v Hv) in Ho. injection Ho as <-.
    by exists v.
  - intros (v & Hv & Hin). eapply (Hcov v); [by rewrite Hperm| |done].
    by apply Hown.
Qed.

(** X6 on three tensors that share axes in different orders. *)
Lemma global_axes_lists_each_axis_once_witness :
  wf_variables [ab; ba; cab] ∧ keeps_orders [ab; ba; cab] ∧
  ∃ ords' ords sds stride_dicts axes,
    _optimize_loop_structure [ab; ba; cab] = Some (ords', sds, stride_dicts) ∧
    _simplify_orders [ab; ba; cab] = Some (ords, sds) ∧
    global_axes ords [ab; ba; cab] = Some axes ∧
    NoDup axes ∧
    ∀ a, a ∈ axes ↔ ∃ v, v ∈ [ab; ba; cab] ∧ a ∈ order v.
Proof.
  assert (wf_variables [ab; ba; cab]) as Hwf by compute_done.
  assert (keeps_orders [ab; ba; cab]) as Hkeep.
  { split; [by eexists|]. repeat apply Forall_cons_2; [..|apply Forall_nil_2];
      vm_compute; reflexivity. }
  split; [exact Hwf|]. split; [exact Hkeep|].
  exact (global_axes_lists_each_axis_once [ab; ba; cab] Hwf Hkeep).
Defined.

Lemma insert_by_key_least x l :
  (∀ y, y ∈ l → (x.1 ≤ y.1)%nat) → insert_by_key x l = x :: l.
Proof.
  destruct l as [|y l]; [done|]. intros Hle. simpl.
  rewrite decide_True; [done|]. apply Hle. by left.
Qed.

Lemma accumulate_axes_extends ords vs axes0 axes :
  accumulate_axes ords vs axes0 = Some axes →
  ∃ more, axes = axes0 ++ more ∧ ∀ a, a ∈ more → a ∉ axes0.
Proof.
  revert axes0. induction vs as [|v vs IH]; intros axes0; simpl.
  - intros [= <-]. exists []. split; [by rewrite app_nil_r|].
    by intros a ?%elem_of_nil.
  - destruct (ords !! var_id v) as [o|] eqn:Ho; [|done]. simpl.
    intros (more & -> & Hmore)%IH. unfold append_new_axes in *.
    exists (filter (λ axis : Axis, axis ∉ axes0) o ++ more).
    split; [by rewrite app_assoc|].
    intros a [[? _]%list_elem_of_filter|Ha]%elem_of_app; [done|].
    intros Hin. apply (Hmore a Ha). apply elem_of_app. by left.
Qed.

Lemma filter_all_in (o l : list Axis) :
  (∀ a, a ∈ l → a ∈ o) → filter (λ x : Axis, x ∈ o) l = l.
Proof.
  induction l as [|x l IH]; intros Hl; [done|].
  rewrite filter_cons_True by (apply Hl; by left).
  f_equal. apply IH. intros a Ha. apply Hl. by right.
Qed.

Lemma filter_none_in (o l : list Axis) :
  (∀ a, a ∈ l → a ∉ o) → filter (λ x : Axis, x ∈ o) l = [].
Proof.
  induction l as [|x l IH]; intros Hl; [done|].
  rewrite filter_cons_False by (apply Hl; by left).
  apply IH. intros a Ha. apply Hl. by right.
Qed.

Lemma restrict_to_prefix (o more : list Axis) :
  (∀ a, a ∈ more → a ∉ o) → restrict_to o (o ++ more) = o.
Proof.
  intros Hmore. unfold restrict_to. rewrite filter_app.
  rewrite filter_all_in by done. rewrite filter_none_in by done.
  by rewrite app_nil_r.
Qed.

Lemma append_new_axes_nil (o : list Axis) : append_new_axes [] o = o.
Proof.
  unfold append_new_axes. simpl. induction o as [|x o IH]; [done|].
  rewrite filter_cons_True by apply not_elem_of_nil. by f_equal.
Qed.

Lemma sorted_by_ndim_least ords v0 rest o0 :
  ords !! var_id v0 = Some o0 →
  (∀ w o, w ∈ rest → ords !! var_id w = Some o → (length o0 ≤ length o)%nat) →
  (∀ w, w ∈ rest → is_Some (ords !! var_id w)) →
  ∃ sorted, sorted_by_ndim ords (v0 :: rest) = Some (v0 :: sorted).
Proof.
  intros Ho0 Hle Hdom. unfold sorted_by_ndim.
  assert (∃ keyed,
            mapM (λ v, o ← ords !! var_id v; Some (length o, v)) rest
              = Some keyed ∧
            ∀ y, y ∈ keyed → (length o0 ≤ y.1)%nat) as (keyed & Hk & Hkeys).
  { clear Ho0. induction rest as [|w rest IH]; simpl.
    { exists []. split; [done|]. by intros y ?%elem_of_nil. }
    destruct (Hdom w ltac:(by left)) as [o Ho]. rewrite Ho. simpl.
    destruct IH as (keyed & -> & Hkeys).
    { intros w' o' Hw'. apply Hle. by right. }
    { intros w' Hw'. apply Hdom. by right. }
    simpl. exists ((length o, w) :: keyed). split; [done|].
    intros y [->|Hy]%elem_of_cons; [|by apply Hkeys].
    simpl. eapply Hle; [by left|done]. }
  simpl. rewrite Ho0. simpl. rewrite Hk. simpl.
  rewrite insert_by_key_least.
  - simpl. by eexists.
  - intros y Hy. simpl. apply Hkeys.
    assert (foldr insert_by_key [] keyed ≡ₚ keyed) as Hp.
    { clear. induction keyed as [|x keyed IH]; [done|]. simpl.
      rewrite insert_by_key_perm. by rewrite IH. }
    by rewrite <- Hp.
Qed.

(** X7.  On a list of Variables whose orders [_simplify_orders] leaves as
    they are, when the first Variable has no more axes than any other, the
    re-ordering of lines 129-133 leaves its order as it is: the stable sort
    keeps it first, and its axes open the global sequence. *)
Theorem fewest_axes_first_keeps_simplified_order v0 rest :
  wf_variables (v0 :: rest) → keeps_orders (v0 :: rest) →
  Forall (λ w, (ndim v0 ≤ ndim w)%nat) rest →
  simplified_order (v0 :: rest) v0 = Some (order v0) ∧
  final_order (v0 :: rest) v0 = Some (order v0).
Proof.
  intros Hwf Hkeep Hmin.
  destruct (_optimize_loop_structure_spec _ Hwf Hkeep)
    as (st & axes & ords' & stride_dicts & HI & Hsimp & Haxes & Hopt & Hper).
  assert (∀ v, v ∈ v0 :: rest → orders st !! var_id v = Some (order v))
    as Hown.
  { intros v Hv. by destruct (Hper v Hv) as (? & ? & ? & ? & -> & _). }
  destruct (Hper v0)
    as (o0 & _ & _ & Ho0 & -> & _ & _ & _ & _ & _ & Hfin); [by left|].
  unfold simplified_order, final_order. rewrite Hopt, Hsimp. simpl.
  split; [done|].
  destruct (sorted_by_ndim_least (orders st) v0 rest (order v0) Ho0)
    as (sorted & Hsorted).
  { intros w o Hw Ho. eapply Forall_forall in Hmin; [|exact Hw].
    rewrite (Hown w) in Ho by (by right). injection Ho as <-. done. }
  { intros w Hw. rewrite (Hown w) by (by right). by eexists. }
  unfold global_axes in Haxes. rewrite Hsorted in Haxes. simpl in Haxes.
  rewrite Ho0 in Haxes. simpl in Haxes. rewrite append_new_axes_nil in Haxes.
  apply accumulate_axes_extends in Haxes as (more & -> & Hmore).
  by rewrite Hfin, restrict_to_prefix.
Qed.

(** X7 on [ba] followed by [cab] and [ab]. *)
Lemma fewest_axes_first_keeps_simplified_order_witness :
  wf_variables [ba; cab; ab] ∧ keeps_orders [ba; cab; ab] ∧
  Forall (λ w, (ndim ba ≤ ndim w)%nat) [cab; ab] ∧
  simplified_order [ba; cab; ab] ba = Some (order ba) ∧
  final_order [ba; cab; ab] ba = Some (order ba).
Proof.
  assert (wf_variables [ba; cab; ab]) as Hwf by compute_done.
  assert (keeps_orders [ba; cab; ab]) as Hkeep.
  { split; [by eexists|]. repeat apply Forall_cons_2; [..|apply Forall_nil_2];
      vm_compute; reflexivity. }
  assert (Forall (λ w, (ndim ba ≤ ndim w)%nat) [cab; ab]) as Hmin
    by compute_done.
  split; [exact Hwf|]. split; [exact Hkeep|]. split; [exact Hmin|].
  exact (fewest_axes_first_keeps_simplified_order ba [cab; ab] Hwf Hkeep Hmin).
Defined.

(** The stride dictionary of a Variable: the stride of the axis at a
    position of its order is the product of the extents after it. *)
Lemma stride_dict_lookup vs :
  wf_variables vs → keeps_orders vs →
  ∃ ords' st stride_dicts,
    Inv st ∧
    _optimize_loop_structure vs = Some (ords', shape_dicts st, stride_dicts) ∧
    _simplify_orders vs = Some (orders st, shape_dicts st) ∧
    ∀ v, v ∈ vs →
      ∃ sd sh strides,
        orders st !! var_id v = Some (order v) ∧
        shape_dicts st !! var_id v = Some sd ∧
        sd.*1 ≡ₚ order v ∧
        mul sd.*2 = size v ∧
        mapM (getitem sd) (order v) = Some sh ∧
        stride_dicts !! var_id v = Some strides ∧
        ∀ i a, order v !! i = Some a →
               getitem strides a = Some (mul (drop (S i) sh)).
Proof.
  intros Hwf Hkeep.
  destruct (_optimize_loop_structure_spec vs Hwf Hkeep)
    as (st & axes & ords' & stride_dicts & HI & Hsimp & _ & Hopt & Hper).
  exists ords', st, stride_dicts. do 3 (split; [done|]). intros v Hv.
  destruct (Hper v Hv)
    as (o & sd & sh & Ho & -> & Hsd & Hkeys & Hmul & Hsh & Hst & _).
  eexists sd, sh, _. do 6 (split; [done|]).
  intros i a Hi.
  apply (getitem_zip _ _ i); [by eapply (inv_nodup _ HI)|done|].
  pose proof (lookup_lt_Some _ _ _ Hi). unfold ndim.
  rewrite list_lookup_fmap, lookup_seq_lt by lia. simpl.
  by rewrite Nat.add_1_r.
Qed.

Lemma flat_offset_suffix strides coord (o : list Axis) (sh : list Z)
    (sd : list (Axis * Z)) :
  mapM (getitem sd) o = Some sh →
  in_bounds sd coord →
  (∀ i a, o !! i = Some a → getitem strides a = Some (mul (drop (S i) sh))) →
  ∀ k, (k ≤ length o)%nat →
    ∃ off, flat_offset strides coord (drop (length o - k) o) = Some off ∧
           0 ≤ off < mul (drop (length o - k) sh).
Proof.
  intros Hsh Hb Hst. apply mapM_Some in Hsh.
  pose proof (Forall2_length _ _ _ Hsh) as Hlen.
  induction k as [|k IH]; intros Hk.
  - rewrite Nat.sub_0_r, !drop_ge by lia. exists 0. split; [done|].
    unfold mul. simpl. lia.
  - destruct IH as (off & Hoff & Hrange); [lia|].
    set (j := (length o - S k)%nat).
    assert (length o - k = S j)%nat as Hj by (unfold j; lia).
    rewrite Hj in *.
    destruct (lookup_lt_is_Some_2 o j) as [a Ha]; [unfold j; lia|].
    destruct (lookup_lt_is_Some_2 sh j) as [e He]; [unfold j; lia|].
    rewrite (drop_S _ _ _ Ha), (drop_S _ _ _ He). simpl.
    rewrite (Hst _ _ Ha). simpl. rewrite Hoff. simpl.
    eexists. split; [done|].
    pose proof (Forall2_lookup_lr _ _ _ _ _ _ Hsh Ha He) as Hg.
    apply getitem_elem_of in Hg.
    eapply Forall_forall in Hb; [|exact Hg]. simpl in Hb. nia.
Qed.

Lemma mapM_getitem_perm (sd : list (Axis * Z)) (o : list Axis) sh :
  NoDup o → sd.*1 ≡ₚ o → mapM (getitem sd) o = Some sh → sh ≡ₚ sd.*2.
Proof.
  intros Hnd Hkeys Hsh. apply mapM_Some in Hsh.
  pose proof (Forall2_length _ _ _ Hsh) as Hlen.
  assert (NoDup sd.*1) as Hndk by (by rewrite Hkeys).
  assert (zip o sh ≡ₚ sd) as Hp.
  { apply NoDup_Permutation.
    - apply (NoDup_fmap_1 fst). by rewrite fst_zip by lia.
    - by apply NoDup_fmap_1 in Hndk.
    - intros [a n]. split.
      + intros (i & Hi)%list_elem_of_lookup_1.
        apply lookup_zip_with_Some in Hi as (a' & n' & [= <- <-] & Ha & Hn).
        apply getitem_elem_of.
        apply (Forall2_lookup_lr _ _ _ _ _ _ Hsh Ha Hn).
      + intros Hin.
        assert (a ∈ o) as (i & Hi)%list_elem_of_lookup_1.
        { rewrite <- Hkeys. apply list_elem_of_fmap. by exists (a, n). }
        destruct (Forall2_lookup_l _ _ _ _ _ Hsh Hi) as (n' & Hn' & Hg).
        rewrite (elem_of_getitem _ _ _ Hndk Hin) in Hg. injection Hg as <-.
        apply list_elem_of_lookup_2 with i.
        apply lookup_zip_with_Some. by exists a, n. }
  rewrite <- Hp. by rewrite snd_zip by lia.
Qed.

(** X8.  On a list of Variables whose orders [_simplify_orders] leaves as
    they are, the strides [_optimize_loop_structure] returns for a Variable
    address its buffer: for coordinates within the extents of its returned
    shape dictionary, the sum of coordinate times stride over the axes of its
    order is defined, is not negative and is below the element count of the
    Variable. *)
Theorem strides_address_within_buffer vs :
  wf_variables vs → keeps_orders vs →
  ∃ ords' sds stride_dicts,
    _optimize_loop_structure vs = Some (ords', sds, stride_dicts) ∧
    ∀ v, v ∈ vs →
      ∃ sd strides,
        sds !! var_id v = Some sd ∧
        stride_dicts !! var_id v = Some strides ∧
        ∀ coord, in_bounds sd coord →
          ∃ off, flat_offset strides coord (order v) = Some off ∧
                 0 ≤ off < size v.
Proof.
  intros Hwf Hkeep.
  destruct (stride_dict_lookup vs Hwf Hkeep)
    as (ords' & st & stride_dicts & HI & Hopt & Hsimp & Hper).
  exists ords', (shape_dicts st), stride_dicts. split; [done|].
  intros v Hv.
  destruct (Hper v Hv)
    as (sd & sh & strides & Ho & Hsd & Hk & Hmul & Hsh & Hst & Hrm).
  exists sd, strides. do 2 (split; [done|]). intros coord Hb.
  destruct (flat_offset_suffix strides coord (order v) sh sd Hsh Hb Hrm
              (length (order v))) as (off & Hoff & Hrange); [lia|].
  rewrite Nat.sub_diag, !drop_0 in *. exists off. split; [done|].
  rewrite <- Hmul.
  rewrite <- (mul_perm _ _ (mapM_getitem_perm sd (order v) sh
                              (inv_nodup _ HI _ _ Ho) Hk Hsh)).
  done.
Qed.

(** X8 on three tensors that share axes in different orders. *)
Lemma strides_address_within_buffer_witness :
  wf_variables [ab; ba; cab] ∧ keeps_orders [ab; ba; cab] ∧
  ∃ ords' sds stride_dicts,
    _optimize_loop_structure [ab; ba; cab] = Some (ords', sds, stride_dicts) ∧
    ∀ v, v ∈ [ab; ba; cab] →
      ∃ sd strides,
        sds !! var_id v = Some sd ∧
        stride_dicts !! var_id v = Some strides ∧
        ∀ coord, in_bounds sd coord →
          ∃ off, flat_offset strides coord (order v) = Some off ∧
                 0 ≤ off < size v.
Proof.
  assert (wf_variables [ab; ba; cab]) as Hwf by compute_done.
  assert (keeps_orders [ab; ba; cab]) as Hkeep.
  { split; [by eexists|]. repeat apply Forall_cons_2; [..|apply Forall_nil_2];
      vm_compute; reflexivity. }
  split; [exact Hwf|]. split; [exact Hkeep|].
  exact (strides_address_within_buffer [ab; ba; cab] Hwf Hkeep).
Defined.

Lemma flat_offset_suffix_inj strides coord coord' (o : list Axis)
    (sh : list Z) (sd : list (Axis * Z)) :
  mapM (getitem sd) o = Some sh →
  in_bounds sd coord → in_bounds sd coord' →
  (∀ i a, o !! i = Some a → getitem strides a = Some (mul (drop (S i) sh))) →
  ∀ k, (k ≤ length o)%nat →
    flat_offset strides coord (drop (length o - k) o)
    = flat_offset strides coord' (drop (length o - k) o) →
    ∀ a, a ∈ drop (length o - k) o → coord a = coord' a.
Proof.
  intros Hsh Hb Hb' Hst.
  pose proof (flat_offset_suffix strides coord o sh sd Hsh Hb Hst) as Hr.
  pose proof (flat_offset_suffix strides coord' o sh sd Hsh Hb' Hst) as Hr'.
  apply mapM_Some in Hsh.
  pose proof (Forall2_length _ _ _ Hsh) as Hlen.
  induction k as [|k IH]; intros Hk.
  - rewrite Nat.sub_0_r, !drop_ge by lia. by intros _ a ?%elem_of_nil.
  - destruct (Hr k) as (off & Hoff & Hrange); [lia|].
    destruct (Hr' k) as (off' & Hoff' & Hrange'); [lia|].
    specialize (IH ltac:(lia)).
    set (j := (length o - S k)%nat).
    assert (length o - k = S j)%nat as Hj by (unfold j; lia).
    rewrite Hj in *.
    destruct (lookup_lt_is_Some_2 o j) as [a Ha]; [unfold j; lia|].
    destruct (lookup_lt_is_Some_2 sh j) as [e He]; [unfold j; lia|].
    rewrite (drop_S _ _ _ Ha). simpl.
    rewrite (Hst _ _ Ha). simpl. rewrite Hoff, Hoff'. simpl.
    intros [= Heq].
    pose proof (Forall2_lookup_lr _ _ _ _ _ _ Hsh Ha He) as Hg.
    apply getitem_elem_of in Hg.
    pose proof (proj1 (Forall_forall _ _) Hb _ Hg) as Hc.
    pose proof (proj1 (Forall_forall _ _) Hb' _ Hg) as Hc'.
    simpl in Hc, Hc'.
    assert (coord a = coord' a) as Hca.
    { destruct (Z.lt_trichotomy (coord a) (coord' a)) as [?|[?|?]];
        [nia|done|nia]. }
    assert (off = off') as -> by (rewrite Hca in Heq; lia).
    intros b [->|Hin]%elem_of_cons; [done|].
    apply IH; [|done]. by rewrite Hoff, Hoff'.
Qed.

(** X9.  On a list of Variables whose orders [_simplify_orders] leaves as
    they are, with the strides [_optimize_loop_structure] returns, two
    elements of a Variable have the same flat offset only when they have the
    same coordinate along every axis of its order. *)
Theorem strides_address_distinct_elements vs :
  wf_variables vs → keeps_orders vs →
  ∃ ords' sds stride_dicts,
    _optimize_loop_structure vs = Some (ords', sds, stride_dicts) ∧
    ∀ v, v ∈ vs →
      ∃ sd strides,
        sds !! var_id v = Some sd ∧
        stride_dicts !! var_id v = Some strides ∧
        ∀ coord coord', in_bounds sd coord → in_bounds sd coord' →
          flat_offset strides coord (order v)
          = flat_offset strides coord' (order v) →
          ∀ a, a ∈ order v → coord a = coord' a.
Proof.
  intros Hwf Hkeep.
  destruct (stride_dict_lookup vs Hwf Hkeep)
    as (ords' & st & stride_dicts & HI & Hopt & Hsimp & Hper).
  exists ords', (shape_dicts st), stride_dicts. split; [done|].
  intros v Hv.
  destruct (Hper v Hv)
    as (sd & sh & strides & Ho & Hsd & Hk & Hmul & Hsh & Hst & Hrm).
  exists sd, strides. do 2 (split; [done|]).
  intros coord coord' Hb Hb' Heq a Ha.
  apply (flat_offset_suffix_inj strides coord coord' (order v) sh sd Hsh Hb Hb'
           Hrm (length (order v))); [lia| |]; by rewrite Nat.sub_diag, !drop_0.
Qed.

(** X9 on three tensors that share axes in different orders. *)
Lemma strides_address_distinct_elements_witness :
  wf_variables [ab; ba; cab] ∧ keeps_orders [ab; ba; cab] ∧
  ∃ ords' sds stride_dicts,
    _optimize_loop_structure [ab; ba; cab] = Some (ords', sds, stride_dicts) ∧
    ∀ v, v ∈ [ab; ba; cab] →
      ∃ sd strides,
        sds !! var_id v = Some sd ∧
        stride_dicts !! var_id v = Some strides ∧
        ∀ coord coord', in_bounds sd coord → in_bounds sd coord' →
          flat_offset strides coord (order v)
          = flat_offset strides coord' (order v) →
          ∀ a, a ∈ order v → coord a = coord' a.
Proof.
  assert (wf_variables [ab; ba; cab]) as Hwf by compute_done.
  assert (keeps_orders [ab; ba; cab]) as Hkeep.
  { split; [by eexists|]. repeat apply Forall_cons_2; [..|apply Forall_nil_2];
      vm_compute; reflexivity. }
  split; [exact Hwf|]. split; [exact Hkeep|].
  exact (strides_address_distinct_elements [ab; ba; cab] Hwf Hkeep).
Defined.

Lemma dict_comp_from_inv {T} (f : variable → option T) vs acc d :
  dict_comp_from f vs acc = Some d → ∀ v, v ∈ vs → is_Some (f v).
Proof.
  revert acc. induction vs as [|v0 vs IH]; intros acc; simpl;
    [by intros _ v ?%elem_of_nil|].
  destruct (f v0) as [x|] eqn:Hx; [|done]. simpl.
  intros Hd v [->|Hv]%elem_of_cons; [by eexists|by eapply IH].
Qed.

Lemma dict_comp_from_None {T} (f : variable → option T) vs acc v :
  v ∈ vs → f v = None → dict_comp_from f vs acc = None.
Proof.
  revert acc. induction vs as [|v0 vs IH]; intros acc; simpl;
    [by intros ?%elem_of_nil|].
  intros [->|Hv]%elem_of_cons Hf; [by rewrite Hf|].
  destruct (f v0); [|done]. simpl. by apply IH.
Qed.

(** X21.  When [_simplify_orders] leaves a Variable of the list fewer axes
    than it came with (an axis of it was dropped or merged),
    [_optimize_loop_structure] raises: line 125 makes one stride per axis of
    the Variable as it came, [range(v.ndim)], and line 126 is given more
    strides than axes. *)
Theorem loop_structure_raises_when_shortened vs v o :
  wf_variables vs → v ∈ vs →
  simplified_order vs v = Some o → length o ≠ ndim v →
  _optimize_loop_structure vs = None.
Proof.
  intros Hwf Hv Ho Hlen. unfold simplified_order in Ho.
  unfold _optimize_loop_structure.
  destruct (_simplify_orders vs) as [[ords sds]|]; [|done]. simpl in *.
  destruct (dict_comp (shapes_of ords sds) vs) as [shapes|]; [|done]. simpl.
  destruct (dict_comp (strides_of shapes) vs) as [strides|] eqn:Hst; [|done].
  simpl.
  assert (dict_comp (stride_dict_of ords strides) vs = None) as ->; [|done].
  apply (dict_comp_from_None _ _ _ v Hv).
  destruct (dict_comp_spec (strides_of shapes) vs Hwf
              (dict_comp_from_inv _ _ _ _ Hst)) as (d & Hd & Hlook).
  unfold dict_comp in Hst, Hd. rewrite Hst in Hd. injection Hd as <-.
  unfold stride_dict_of. rewrite Ho, (Hlook v Hv). simpl.
  unfold strides_of. destruct (shapes !! var_id v) as [sh|]; [|done]. simpl.
  unfold AxisKeyDict_new. rewrite decide_False; [done|].
  by rewrite length_fmap, length_seq.
Qed.

(** X21 on the tensors of the docstring: the axes H and W of [hw] are
    merged. *)
Lemma loop_structure_raises_when_shortened_witness :
  wf_variables [c; hw; nhwc] ∧
  simplified_order [c; hw; nhwc] hw = Some [AxisX 0] ∧
  _optimize_loop_structure [c; hw; nhwc] = None.
Proof.
  assert (wf_variables [c; hw; nhwc]) as Hwf by compute_done.
  assert (hw ∈ [c; hw; nhwc]) as Hin by (right; left).
  assert (simplified_order [c; hw; nhwc] hw = Some [AxisX 0]) as Ho
    by (vm_compute; reflexivity).
  split; [exact Hwf|]. split; [exact Ho|].
  apply (loop_structure_raises_when_shortened [c; hw; nhwc] hw [AxisX 0]
           Hwf Hin Ho).
  vm_compute. lia.
Defined.

(** X10.  With the uniforms [W] and [H] of lines 176-177, for a positive
    [y.size] the [W] by [H] grid is tight: it has at least one column and
    one row, its last row is not empty ([W * (H - 1)] is below [y.size]), it
    has fewer than [y.size + 1024] pixels, and it has [y.size] pixels when
    [y.size] is below 1024 or a multiple of 1024. *)
Theorem texture_grid_is_tight (y_size : Z) :
  0 < y_size →
  1 ≤ uniform_W y_size ∧ 1 ≤ uniform_H y_size ∧
  uniform_W y_size * (uniform_H y_size - 1) < y_size ∧
  uniform_W y_size * uniform_H y_size < y_size + 1024 ∧
  (y_size < 1024 ∨ y_size `mod` 1024 = 0 →
   uniform_W y_size * uniform_H y_size = y_size).
Proof.
  intros Hpos. unfold uniform_W, uniform_H.
  pose proof (Z.div_mod (y_size + 1024 - 1) 1024 ltac:(lia)) as Hdm.
  pose proof (Z.mod_pos_bound (y_size + 1024 - 1) 1024 ltac:(lia)) as Hb.
  destruct (decide (y_size < 1024)) as [Hlt|Hge].
  - assert ((y_size + 1024 - 1) `div` 1024 = 1) as Hone.
    { symmetry. apply (Z.div_unique _ _ 1 (y_size - 1)); lia. }
    rewrite Hone. lia.
  - do 4 (split; [lia|]). intros [?|Hmod]; [lia|].
    pose proof (Z.div_mod y_size 1024 ltac:(lia)) as Hy.
    rewrite Hmod in Hy.
    assert ((y_size + 1024 - 1) `div` 1024 = y_size `div` 1024) as ->; [|lia].
    symmetry. apply (Z.div_unique _ _ _ 1023); lia.
Qed.

(** X10 for 2500 elements: 1024 by 3, with 572 pixels to spare. *)
Lemma texture_grid_is_tight_witness :
  0 < 2500 ∧
  1 ≤ uniform_W 2500 ∧ 1 ≤ uniform_H 2500 ∧
  uniform_W 2500 * (uniform_H 2500 - 1) < 2500 ∧
  uniform_W 2500 * uniform_H 2500 < 2500 + 1024 ∧
  (2500 < 1024 ∨ 2500 `mod` 1024 = 0 →
   uniform_W 2500 * uniform_H 2500 = 2500).
Proof.
  assert (0 < 2500) as Hpos by lia.
  split; [exact Hpos|].
  exact (texture_grid_is_tight 2500 Hpos).
Defined.

End ElementwiseAddSpec.

(** * Properties of the channel-mode conversion rule *)

Module InsertChannelModeConversionSpec.
Import InsertChannelModeConversion.

(** Unfolding of the state and exception monad. *)
Ltac unfold_M :=
  unfold mbind, M_bind, mret, M_ret, get_store, put_store, lift, raise in *.

(** ** The primitives *)

(** The call of a conversion class adds one Variable and one Operator. *)
Lemma convert_call_some c x s r :
  convert_call c x s = Some r → ∃ vx, variables s !! x = Some vx ∧
    r = ((length (variables s), length (operators s)),
         mkStore (variables s ++ [mkVariable (shape vx) (order vx) (produced_mode c)])
                 (operators s ++ [mkOperator c [("x0"%string, x)] [("y"%string, length (variables s))]])).
Proof.
  unfold convert_call, Variable_new, ChannelMode_set, get_variable. unfold_M. simpl.
  destruct (variables s !! x) as [vx|] eqn:Hx; [|done].
  rewrite lookup_app_r by lia. rewrite Nat.sub_diag. simpl.
  intros [= <-]. exists vx. split; [done|].
  rewrite insert_app_r_alt by lia. rewrite Nat.sub_diag. done.
Qed.

(** ** Calls that return false *)

(** A call that returns false has found the mode equal to the target and has
    left the graph as it was. *)
Lemma _replace_input_false op var_name target s s' :
  _replace_input op var_name target s = Some (false, s') →
  s' = s ∧ ∃ o v, operators s !! op = Some o ∧
    dict_get (inputs o) var_name = Some v ∧ mode_of s v = Some target.
Proof.
  unfold _replace_input, op_input, ChannelMode_get, get_operator, get_variable, mode_of.
  unfold_M. simpl.
  destruct (operators s !! op) as [o|] eqn:Ho; [|done].
  destruct (dict_get (inputs o) var_name) as [v|] eqn:Hv; [|done].
  destruct (variables s !! v) as [x|] eqn:Hx; [|done].
  case_decide as Hm.
  - intros [= <-]. split; [done|]. exists o, v. rewrite Hx. simpl. by rewrite Hm.
  - intros H. exfalso.
    destruct (if decide (target = RGBA) then _ else _) as [[[v_new c] s1]|]; [|done].
    unfold replace_input, set_operator, get_operator in H. unfold_M. simpl in H.
    repeat case_match; simplify_eq.
Qed.

Lemma _replace_output_false op var_name target s s' :
  _replace_output op var_name target s = Some (false, s') →
  s' = s ∧ ∃ o v, operators s !! op = Some o ∧
    dict_get (outputs o) var_name = Some v ∧ mode_of s v = Some target.
Proof.
  unfold _replace_output, op_output, ChannelMode_get, get_operator, get_variable, mode_of.
  unfold_M. simpl.
  destruct (operators s !! op) as [o|] eqn:Ho; [|done].
  destruct (dict_get (outputs o) var_name) as [v|] eqn:Hv; [|done].
  destruct (variables s !! v) as [x|] eqn:Hx; [|done].
  case_decide as Hm.
  - intros [= <-]. split; [done|]. exists o, v. rewrite Hx. simpl. by rewrite Hm.
  - intros H. exfalso. unfold Variable_replace in H. unfold_M.
    repeat case_match; simplify_eq.
Qed.

(** ** The splice on an output *)

Lemma fmap_unchanged {A} (f : A → A) (l : list A) :
  Forall (λ x, f x = x) l → f <$> l = l.
Proof. induction 1 as [|x l Hx _ IH]; [done|]. by rewrite fmap_cons, Hx, IH. Qed.

Lemma not_referenced (d : list (string * nat)) (n y : nat) :
  Forall (λ e : string * nat, (e.2 < n)%nat) d → (n ≤ y)%nat → y ∉ d.*2.
Proof.
  intros Hd Hy (e & Heq & He)%list_elem_of_fmap.
  eapply Forall_forall in Hd; eauto. lia.
Qed.

Lemma rewire_all_id d y v : y ∉ d.*2 → rewire_all d y v = d.
Proof.
  unfold rewire_all. induction d as [|[k w] d IH]; [done|].
  rewrite !fmap_cons, not_elem_of_cons. simpl. intros [Hne Hd].
  rewrite decide_False by done. by rewrite IH.
Qed.

(** The entry that is taken out is the first one that refers to the
    Variable. *)
Lemma pop_reference_Some d v name rest :
  pop_reference d v = Some (name, rest) →
  ∃ d1 d2, d = d1 ++ (name, v) :: d2 ∧ rest = d1 ++ d2 ∧ v ∉ d1.*2.
Proof.
  revert name rest. induction d as [|[k u] d IH]; intros name rest; simpl;
    [done|].
  case_decide as Hu.
  - intros [= -> ->]. subst u. exists [], rest. split; [done|].
    split; [done|]. apply not_elem_of_nil.
  - destruct (pop_reference d v) as [[name' rest']|]; [|done]. simpl.
    intros [= -> <-].
    destruct (IH _ _ eq_refl) as (d1 & d2 & -> & -> & Hn).
    exists ((k, u) :: d1), d2. split; [done|]. split; [done|].
    rewrite fmap_cons. apply not_elem_of_cons. by split.
Qed.

(** A rewired dictionary: one entry for the old Variable has made room for
    an entry of the same name for the new one. *)
Lemma rewire_perm d v w d' :
  rewire d v w = Some d' →
  ∃ name rest, d ≡ₚ (name, v) :: rest ∧ d' ≡ₚ (name, w) :: rest.
Proof.
  unfold rewire.
  destruct (pop_reference d v) as [[name rest]|] eqn:Hpop; [|done]. simpl.
  intros [= <-].
  apply pop_reference_Some in Hpop as (d1 & d2 & -> & -> & _).
  exists name, (d1 ++ d2). split.
  - by rewrite Permutation_middle.
  - by rewrite Permutation_app_comm.
Qed.

Lemma rewire_values d v_old v_new d' :
  rewire d v_old v_new = Some d' →
  ∀ w, w ∈ d'.*2 → w = v_new ∨ w ∈ d.*2.
Proof.
  intros (name & rest & Hd & Hd')%rewire_perm w.
  rewrite Hd, Hd', !fmap_cons, !elem_of_cons. simpl. tauto.
Qed.

(** The graph after [_replace_output] has spliced a conversion. *)
Lemma _replace_output_true op var_name target s s' :
  wf_store s →
  _replace_output op var_name target s = Some (true, s') →
  ∃ o v x outs,
    operators s !! op = Some o ∧
    dict_get (outputs o) var_name = Some v ∧
    variables s !! v = Some x ∧
    channel_mode x ≠ target ∧
    rewire (outputs o) v (length (variables s)) = Some outs ∧
    s' = mkStore
           (variables s ++
              [mkVariable (shape x) (order x) target;
               mkVariable (shape x) (order x)
                          (produced_mode (spliced_class target))])
           (<[op := mkOperator (op_class o) (inputs o) outs]> (operators s) ++
              [mkOperator (spliced_class target)
                 [("x0"%string, length (variables s))]
                 [("y"%string, v)]]).
Proof.
  intros Hwf.
  unfold _replace_output, op_output, ChannelMode_get, get_operator, get_variable.
  unfold_M. simpl.
  destruct (operators s !! op) as [o|] eqn:Ho; [|done].
  destruct (dict_get (outputs o) var_name) as [v|] eqn:Hv; [|done].
  destruct (variables s !! v) as [x|] eqn:Hx; [|done].
  case_decide as Hm; [done|].
  unfold Variable_new, ChannelMode_set, replace_output, set_operator,
    get_operator, get_variable. unfold_M. simpl.
  rewrite Hx.
  rewrite lookup_app_r by lia. rewrite Nat.sub_diag. simpl.
  rewrite Ho.
  destruct (rewire (outputs o) v (length (variables s))) as [outs|] eqn:Hrw; [|done].
  rewrite insert_app_r_alt by lia. rewrite Nat.sub_diag. simpl.
  fold (spliced_class target).
  replace (if decide (target = RGBA) then convert_call ConvertRGBAtoR (length (variables s))
           else convert_call ConvertRtoRGBA (length (variables s)))
    with (convert_call (spliced_class target) (length (variables s)))
    by (unfold spliced_class; by case_decide).
  match goal with |- context [convert_call ?c ?a ?st] =>
    destruct (convert_call c a st) as [[[y cv] s1]|] eqn:Hcv; [|done] end.
  apply convert_call_some in Hcv as (vx & Hvx & Heq). simpl in *.
  rewrite lookup_app_r in Hvx by lia. rewrite Nat.sub_diag in Hvx. simpl in Hvx.
  injection Hvx as <-. injection Heq as -> -> ->.
  unfold Variable_replace. unfold_M. simpl.
  intros [= <-]. exists o, v, x, outs. repeat split; try done.
  f_equal.
  - by rewrite <- app_assoc.
  - rewrite fmap_app, length_app. simpl. f_equal.
    + apply fmap_unchanged, Forall_insert.
      * eapply Forall_impl; [exact Hwf|]. intros [c i u] Hr; simpl in *.
        apply Forall_app in Hr as [Hi Hu].
        rewrite !rewire_all_id; [done| |]; eapply not_referenced; eauto; lia.
      * pose proof (Forall_lookup_1 _ _ _ _ Hwf Ho) as Hr.
        apply Forall_app in Hr as [Hi Hu]. simpl.
        rewrite !rewire_all_id; [done| |].
        -- intros Hin. destruct (rewire_values _ _ _ _ Hrw _ Hin) as [?|Hold]; [lia|].
           revert Hold. eapply not_referenced; eauto; lia.
        -- eapply not_referenced; eauto; lia.
    + unfold rewire_all. simpl.
      rewrite decide_False by lia. by rewrite decide_True by lia.
Qed.

Lemma rewire_count d v w d' :
  rewire d v w = Some d' → w ≠ v →
  S (length (filter (λ e : string * nat, e.2 = v) d')) =
  length (filter (λ e : string * nat, e.2 = v) d).
Proof.
  intros (name & rest & Hd & Hd')%rewire_perm Hne.
  rewrite Hd, Hd', !filter_cons. simpl.
  rewrite decide_False by done. by rewrite decide_True by done.
Qed.

(** ** The pass *)

(** [any] is false when every call returned false; the graph is then as it
    was. *)
Lemma any_gen_all_false {A} (f : A → M bool) (P : A → Prop) l s s' :
  (∀ x s1, f x s = Some (false, s1) → s1 = s ∧ P x) →
  any_gen f l s = Some (false, s') → s' = s ∧ Forall P l.
Proof.
  intros Hf. induction l as [|x l IH]; simpl; unfold_M.
  - by intros [= <-].
  - destruct (f x s) as [[[] s1]|] eqn:Hx; [done| |done].
    apply Hf in Hx as [-> HP]. intros [-> Hl]%IH. by split; [|constructor].
Qed.

Lemma dict_get_key d name v : dict_get d name = Some v → name ∈ d.*1.
Proof.
  induction d as [|[k u] d IH]; simpl; [done|].
  case_decide as Hk; [subst; intros _; apply elem_of_cons; by left|].
  intros Hd. apply elem_of_cons. right. by apply IH.
Qed.

Lemma _replace_input_all_false op s s' :
  _replace_input_all op R s = Some (false, s') →
  s' = s ∧ ∃ o, operators s !! op = Some o ∧
    ∀ name v, dict_get (inputs o) name = Some v → mode_of s v = Some R.
Proof.
  unfold _replace_input_all, get_operator. unfold_M. simpl.
  destruct (operators s !! op) as [o|] eqn:Ho; [|done].
  intros H.
  eapply (any_gen_all_false _
    (λ name, ∃ v, dict_get (inputs o) name = Some v ∧ mode_of s v = Some R))
    in H as [-> Hall].
  - split; [done|]. exists o. split; [done|]. intros name v Hv.
    eapply Forall_forall in Hall; [|by eapply dict_get_key].
    destruct Hall as (v' & Hv' & Hm). congruence.
  - intros name s1 H1.
    apply _replace_input_false in H1 as (-> & o' & v & Ho' & Hv & Hm).
    split; [done|]. exists v. split; congruence.
Qed.

Lemma _replace_output_all_false op s s' :
  _replace_output_all op R s = Some (false, s') →
  s' = s ∧ ∃ o, operators s !! op = Some o ∧
    ∀ name v, dict_get (outputs o) name = Some v → mode_of s v = Some R.
Proof.
  unfold _replace_output_all, get_operator. unfold_M. simpl.
  destruct (operators s !! op) as [o|] eqn:Ho; [|done].
  intros H.
  eapply (any_gen_all_false _
    (λ name, ∃ v, dict_get (outputs o) name = Some v ∧ mode_of s v = Some R))
    in H as [-> Hall].
  - split; [done|]. exists o. split; [done|]. intros name v Hv.
    eapply Forall_forall in Hall; [|by eapply dict_get_key].
    destruct Hall as (v' & Hv' & Hm). congruence.
  - intros name s1 H1.
    apply _replace_output_false in H1 as (-> & o' & v & Ho' & Hv & Hm).
    split; [done|]. exists v. split; congruence.
Qed.

Lemma optimize_operator_false op flag s s' :
  optimize_operator op flag s = Some (false, s') →
  flag = false ∧ s' = s ∧ ∃ o, operators s !! op = Some o ∧ satisfied s o.
Proof.
  unfold optimize_operator, get_operator. unfold_M. simpl.
  destruct (operators s !! op) as [o|] eqn:Ho; [|done].
  unfold satisfied.
  destruct (op_class o) eqn:Hc.
  - intros [= -> <-]. do 2 (split; [done|]). exists o. by rewrite Hc.
  - destruct (_replace_input op "x0" RGBA s) as [[b1 s1]|] eqn:H1; [|done].
    destruct (_replace_output op "y" R s1) as [[b2 s2]|] eqn:H2; [|done].
    intros [= Hb <-].
    apply orb_false_elim in Hb as [[-> ->]%orb_false_elim ->].
    apply _replace_input_false in H1 as (-> & o1 & v1 & Ho1 & Hv1 & Hm1).
    apply _replace_output_false in H2 as (-> & o2 & v2 & Ho2 & Hv2 & Hm2).
    simplify_eq. do 2 (split; [done|]). exists o. rewrite Hc. eauto 10.
  - destruct (_replace_input op "x0" R s) as [[b1 s1]|] eqn:H1; [|done].
    destruct (_replace_output op "y" RGBA s1) as [[b2 s2]|] eqn:H2; [|done].
    intros [= Hb <-].
    apply orb_false_elim in Hb as [[-> ->]%orb_false_elim ->].
    apply _replace_input_false in H1 as (-> & o1 & v1 & Ho1 & Hv1 & Hm1).
    apply _replace_output_false in H2 as (-> & o2 & v2 & Ho2 & Hv2 & Hm2).
    simplify_eq. do 2 (split; [done|]). exists o. rewrite Hc. eauto 10.
  - destruct (_replace_input_all op R s) as [[b1 s1]|] eqn:H1; [|done].
    destruct (_replace_output_all op R s1) as [[b2 s2]|] eqn:H2; [|done].
    intros [= Hb <-].
    apply orb_false_elim in Hb as [[-> ->]%orb_false_elim ->].
    apply _replace_input_all_false in H1 as (-> & o1 & Ho1 & Hm1).
    apply _replace_output_all_false in H2 as (-> & o2 & Ho2 & Hm2).
    simplify_eq. do 2 (split; [done|]). exists o. rewrite Hc. eauto.
Qed.

Lemma optimize_loop_false ops flag s s' :
  optimize_loop ops flag s = Some (false, s') →
  flag = false ∧ s' = s ∧
  ∀ op, op ∈ ops → ∃ o, operators s !! op = Some o ∧ satisfied s o.
Proof.
  revert flag s. induction ops as [|op ops IH]; intros flag s; simpl; unfold_M.
  - intros [= -> <-]. split; [done|]. split; [done|]. by intros op ?%elem_of_nil.
  - destruct (optimize_operator op flag s) as [[flag1 s1]|] eqn:Hop; [|done].
    intros (-> & -> & Hall)%IH.
    apply optimize_operator_false in Hop as (-> & -> & Hsat).
    split; [done|]. split; [done|].
    intros op' [->|Hin]%elem_of_cons; [done|]. by apply Hall.
Qed.

(** C1.  When [optimize] returns the flag [False], the graph is the one it
    was given, and every listed Operator is satisfied in it: a generic one has
    all its inputs and outputs in mode R, a [ConvertRGBAtoR] has [x0] in RGBA
    and [y] in R, a [ConvertRtoRGBA] has [x0] in R and [y] in RGBA. *)
Theorem converged_pass_modes listed s s' :
  optimize listed s = Some (false, s') →
  s' = s ∧
  ∀ op, op ∈ listed → ∃ o, operators s' !! op = Some o ∧ satisfied s' o.
Proof.
  unfold optimize. intros (_ & -> & Hall)%optimize_loop_false. by split.
Qed.

(** C1 on a graph the rule leaves as it is. *)
Lemma converged_pass_modes_witness :
  optimize [0; 1; 2]%nat converged_store = Some (false, converged_store) ∧
  ∃ o, operators converged_store !! 1%nat = Some o ∧ satisfied converged_store o.
Proof.
  split; [reflexivity|].
  apply (converged_pass_modes [0; 1; 2]%nat converged_store converged_store
           eq_refl).
  compute_done.
Defined.

(** C9.  When [_replace_output] splices a conversion, the Operator writes a
    new Variable in place of the original one; the new Variable has the shape
    and the order of the original and the target mode, and the original
    Variable is left as it was. *)
Theorem output_splice_keeps_shape_and_order op var_name target s s' :
  wf_store s →
  _replace_output op var_name target s = Some (true, s') →
  ∃ o v x o' v_new x_new,
    operators s !! op = Some o ∧
    dict_get (outputs o) var_name = Some v ∧
    variables s !! v = Some x ∧
    variables s !! v_new = None ∧
    operators s' !! op = Some o' ∧
    rewire (outputs o) v v_new = Some (outputs o') ∧
    variables s' !! v_new = Some x_new ∧
    shape x_new = shape x ∧
    order x_new = order x ∧
    channel_mode x_new = target ∧
    variables s' !! v = Some x.
Proof.
  intros Hwf Hcall.
  apply _replace_output_true in Hcall
    as (o & v & x & outs & Ho & Hv & Hx & Hm & Hrw & ->); [|done].
  exists o, v, x, (mkOperator (op_class o) (inputs o) outs),
    (length (variables s)), (mkVariable (shape x) (order x) target).
  simpl. repeat split; try done.
  - apply lookup_ge_None. lia.
  - rewrite lookup_app_l by (rewrite length_insert; by eapply lookup_lt_Some).
    apply list_lookup_insert_eq. by eapply lookup_lt_Some.
  - rewrite lookup_app_r by lia. by rewrite Nat.sub_diag.
  - apply lookup_app_l_Some. done.
Qed.

(** C9 on the splice of the RGBA output of the first Operator. *)
Lemma output_splice_keeps_shape_and_order_witness :
  wf_store rgba_output_store ∧
  _replace_output 0 "y" R rgba_output_store
    = Some (true, rgba_output_store_spliced) ∧
  ∃ o v x o' v_new x_new,
    operators rgba_output_store !! 0%nat = Some o ∧
    dict_get (outputs o) "y" = Some v ∧
    variables rgba_output_store !! v = Some x ∧
    variables rgba_output_store !! v_new = None ∧
    operators rgba_output_store_spliced !! 0%nat = Some o' ∧
    rewire (outputs o) v v_new = Some (outputs o') ∧
    variables rgba_output_store_spliced !! v_new = Some x_new ∧
    shape x_new = shape x ∧
    order x_new = order x ∧
    channel_mode x_new = R ∧
    variables rgba_output_store_spliced !! v = Some x.
Proof.
  assert (wf_store rgba_output_store) as Hwf by compute_done.
  split; [exact Hwf|]. split; [reflexivity|].
  apply (output_splice_keeps_shape_and_order 0 "y" R rgba_output_store
           rgba_output_store_spliced Hwf).
  reflexivity.
Defined.

(** C7.  After [_replace_output] has spliced a conversion on the output [v]
    of an Operator, every consumer that referred to [v] still does; [v] is
    the output [y] of the new conversion node, whose input [x0] is the new
    Variable the Operator now writes; and the conversion node is the one
    Operator that refers to [v] as an output. *)
Theorem output_splice_reference_integrity op var_name target s s' o v :
  wf_store s →
  operators s !! op = Some o →
  dict_get (outputs o) var_name = Some v →
  sole_producer s v op →
  _replace_output op var_name target s = Some (true, s') →
  let conv := length (operators s) in
  let v_new := length (variables s) in
  (∀ c oc name, operators s !! c = Some oc →
     dict_get (inputs oc) name = Some v →
     ∃ oc', operators s' !! c = Some oc' ∧
            dict_get (inputs oc') name = Some v) ∧
  operators s' !! conv =
    Some (mkOperator (spliced_class target)
            [("x0"%string, v_new)] [("y"%string, v)]) ∧
  (∃ o', operators s' !! op = Some o' ∧
         rewire (outputs o) v v_new = Some (outputs o')) ∧
  sole_producer s' v conv.
Proof.
  intros Hwf Ho Hv Hsole Hcall conv v_new.
  apply _replace_output_true in Hcall
    as (o1 & v1 & x & outs & Ho1 & Hv1 & Hx & Hm & Hrw & ->); [|done].
  simplify_eq. simpl.
  pose proof (lookup_lt_Some _ _ _ Ho) as Hop.
  split; [|split; [|split]].
  - intros c oc name Hc Hin.
    pose proof (lookup_lt_Some _ _ _ Hc) as Hlt.
    destruct (decide (c = op)) as [->|Hne].
    + simplify_eq. eexists. split; [|].
      * rewrite lookup_app_l by (by rewrite length_insert).
        by apply list_lookup_insert_eq.
      * exact Hin.
    + exists oc. split; [|done].
      rewrite lookup_app_l by (by rewrite length_insert).
      by rewrite list_lookup_insert_ne.
  - rewrite lookup_app_r by (by rewrite length_insert).
    by rewrite length_insert, Nat.sub_diag.
  - eexists. split; [|].
    + rewrite lookup_app_l by (by rewrite length_insert).
      by apply list_lookup_insert_eq.
    + exact Hrw.
  - unfold sole_producer in *. simpl.
    rewrite fmap_app, list_fmap_insert, Hsole, length_app, length_insert.
    rewrite list_insert_insert_eq. simpl.
    assert (output_count v (mkOperator (op_class o) (inputs o) outs) = 0%nat)
      as ->.
    { assert (output_count v o = 1%nat) as Hone.
      { apply (f_equal (λ l, l !! op)) in Hsole.
        rewrite list_lookup_fmap, Ho in Hsole. simpl in Hsole.
        rewrite list_lookup_insert_eq in Hsole
          by (by rewrite length_replicate).
        by injection Hsole. }
      assert (v < length (variables s))%nat by (by eapply lookup_lt_Some).
      apply rewire_count in Hrw; [|lia].
      unfold output_count in *. simpl. lia. }
    unfold output_count at 1. simpl.
    rewrite filter_cons. simpl. rewrite decide_True by done. simpl.
    subst conv.
    rewrite Nat.add_1_r. rewrite replicate_S_end.
    rewrite insert_app_r_alt by (rewrite length_replicate; lia).
    rewrite length_replicate, Nat.sub_diag. simpl. f_equal.
    apply list_eq. intros i.
    destruct (decide (i = op)) as [->|Hne].
    + rewrite list_lookup_insert_eq by (by rewrite length_replicate).
      symmetry. by apply lookup_replicate_2.
    + by rewrite list_lookup_insert_ne.
Qed.

(** C7 on the same splice: the second Operator still reads Variable 1,
    which the conversion node, Operator 2, now produces. *)
Lemma output_splice_reference_integrity_witness :
  wf_store rgba_output_store ∧
  sole_producer rgba_output_store 1 0 ∧
  _replace_output 0 "y" R rgba_output_store
    = Some (true, rgba_output_store_spliced) ∧
  (∃ oc', operators rgba_output_store_spliced !! 1%nat = Some oc' ∧
          dict_get (inputs oc') "x0" = Some 1%nat) ∧
  sole_producer rgba_output_store_spliced 1 2.
Proof.
  assert (wf_store rgba_output_store) as Hwf by compute_done.
  assert (sole_producer rgba_output_store 1 0) as Hsole by reflexivity.
  pose proof (output_splice_reference_integrity 0 "y" R rgba_output_store
                rgba_output_store_spliced
                (mkOperator Generic [("x0"%string, 0%nat)] [("y"%string, 1%nat)])
                1%nat Hwf eq_refl eq_refl Hsole eq_refl)
    as (Hcons & _ & _ & Hprod).
  split; [exact Hwf|]. split; [exact Hsole|]. split; [reflexivity|].
  split; [|exact Hprod].
  exact (Hcons 1%nat
           (mkOperator Generic [("x0"%string, 1%nat)] [("y"%string, 2%nat)])
           "x0"%string eq_refl eq_refl).
Defined.

(** C3 fails on the code: one call of [optimize] on a generic Operator with
    two RGBA inputs converts the first only.  [any] stops at the first call
    of [_replace_input] that returns true, so after the pass the input [x1]
    is still the RGBA Variable, and no Operator but the generic one reads
    it. *)
Theorem single_pass_converts_first_input_only :
  ∃ s' o,
    optimize [0%nat] two_rgba_inputs_store = Some (true, s') ∧
    operators s' !! 0%nat = Some o ∧
    op_class o = Generic ∧
    dict_get (inputs o) "x1" = Some 1%nat ∧
    mode_of s' 1 = Some RGBA ∧
    filter (λ c : Operator, 1%nat ∈ (inputs c).*2) (operators s') = [o].
Proof.
  eexists _, _. split; [reflexivity|]. by vm_compute.
Qed.

(** ** Further properties of the splices and of the pass *)

Lemma dict_get_value d name v : dict_get d name = Some v → (name, v) ∈ d.
Proof.
  induction d as [|[k u] d IH]; simpl; [done|].
  case_decide as Hk.
  - intros [= ->]. subst. by left.
  - intros Hd. right. by apply IH.
Qed.

Lemma produced_inserted target : produced_mode (inserted_class target) = target.
Proof. unfold inserted_class. case_decide; [done|]. by destruct target. Qed.

(** The graph after [_replace_input] has spliced a conversion. *)
Lemma _replace_input_true op var_name target s s' :
  _replace_input op var_name target s = Some (true, s') →
  ∃ o v x ins,
    operators s !! op = Some o ∧
    dict_get (inputs o) var_name = Some v ∧
    variables s !! v = Some x ∧
    channel_mode x ≠ target ∧
    rewire (inputs o) v (length (variables s)) = Some ins ∧
    s' = input_spliced s op o v x ins target.
Proof.
  unfold _replace_input, op_input, ChannelMode_get, get_operator, get_variable.
  unfold_M. simpl.
  destruct (operators s !! op) as [o|] eqn:Ho; [|done].
  destruct (dict_get (inputs o) var_name) as [v|] eqn:Hv; [|done].
  destruct (variables s !! v) as [x|] eqn:Hx; [|done].
  case_decide as Hm; [done|].
  fold (inserted_class target).
  replace (if decide (target = RGBA) then convert_call ConvertRtoRGBA v
           else convert_call ConvertRGBAtoR v)
    with (convert_call (inserted_class target) v)
    by (unfold inserted_class; by case_decide).
  destruct (convert_call (inserted_class target) v s) as [[[y cv] s1]|] eqn:Hcv;
    [|done].
  apply convert_call_some in Hcv as (vx & Hvx & Heq). simplify_eq.
  unfold replace_input, set_operator, get_operator. unfold_M. simpl.
  rewrite lookup_app_l by (by eapply lookup_lt_Some). rewrite Ho.
  destruct (rewire (inputs o) v (length (variables s))) as [ins|] eqn:Hrw;
    [|done].
  intros [= <-]. exists o, v, x, ins. do 5 (split; [done|]).
  unfold input_spliced. rewrite produced_inserted. f_equal.
  rewrite insert_app_l by (by eapply lookup_lt_Some). done.
Qed.

(** *** [any] over calls that change nothing when they return false *)
Lemma any_gen_cases {A} (f : A → M bool) l s b s' :
  (∀ x s1, f x s = Some (false, s1) → s1 = s) →
  any_gen f l s = Some (b, s') →
  (b = false ∧ s' = s ∧ ∀ x, x ∈ l → f x s = Some (false, s)) ∨
  (b = true ∧ ∃ l1 x l2, l = l1 ++ x :: l2 ∧
     (∀ y, y ∈ l1 → f y s = Some (false, s)) ∧ f x s = Some (true, s')).
Proof.
  intros Hf. induction l as [|x l IH]; simpl; unfold_M.
  - intros [= <- <-]. left. do 2 (split; [done|]). by intros x ?%elem_of_nil.
  - destruct (f x s) as [[[] s1]|] eqn:Hx; [| |done].
    + intros [= <- <-]. right. split; [done|]. exists [], x, l.
      split; [done|]. split; [by intros y ?%elem_of_nil|done].
    + pose proof (Hf _ _ Hx) as ->.
      intros [(-> & -> & Hall)|(-> & l1 & z & l2 & -> & Hl1 & Hz)]%IH.
      * left. do 2 (split; [done|]).
        intros y [->|Hy]%elem_of_cons; [done|by apply Hall].
      * right. split; [done|]. exists (x :: l1), z, l2. split; [done|].
        split; [|done]. intros y [->|Hy]%elem_of_cons; [done|by apply Hl1].
Qed.

Lemma _replace_input_splice op var_name s b s' o :
  operators s !! op = Some o → op_class o ≠ Sgemm →
  _replace_input op var_name (wanted_input (op_class o)) s = Some (b, s') →
  (b = false ∧ s' = s) ∨ (b = true ∧ splice op s s').
Proof.
  intros Ho Hc Hcall. destruct b.
  - right. split; [done|].
    apply _replace_input_true in Hcall
      as (o' & v & x & ins & Ho' & Hv & Hx & Hm & Hrw & ->).
    simplify_eq. by eapply splice_input.
  - left. split; [done|]. by apply _replace_input_false in Hcall as [-> _].
Qed.

Lemma _replace_output_splice op var_name s b s' o :
  wf_store s →
  operators s !! op = Some o → op_class o ≠ Sgemm →
  _replace_output op var_name (wanted_output (op_class o)) s = Some (b, s') →
  (b = false ∧ s' = s) ∨ (b = true ∧ splice op s s').
Proof.
  intros Hwf Ho Hc Hcall. destruct b.
  - right. split; [done|].
    apply _replace_output_true in Hcall
      as (o' & v & x & outs & Ho' & Hv & Hx & Hm & Hrw & ->); [|done].
    simplify_eq. by eapply splice_output.
  - left. split; [done|]. by apply _replace_output_false in Hcall as [-> _].
Qed.

(** *** What a splice keeps *)

Lemma rewire_keys d v w d' : rewire d v w = Some d' → d'.*1 ≡ₚ d.*1.
Proof.
  intros (name & rest & Hd & Hd')%rewire_perm. by rewrite Hd, Hd'.
Qed.

Lemma rewire_bound d v w d' (n : nat) :
  rewire d v w = Some d' → (w < n)%nat →
  Forall (λ e : string * nat, (e.2 < n)%nat) d →
  Forall (λ e : string * nat, (e.2 < n)%nat) d'.
Proof.
  intros Hrw Hw Hd. apply Forall_forall. intros [k u] Hin.
  assert (u ∈ d'.*2) as Hu by (apply list_elem_of_fmap; by exists (k, u)).
  destruct (rewire_values _ _ _ _ Hrw _ Hu) as [->|Hold]; [done|].
  apply list_elem_of_fmap in Hold as ([k' u'] & -> & Hold).
  eapply Forall_forall in Hd; [|exact Hold]. done.
Qed.

Lemma wf_store_lookup s i o :
  wf_store s → operators s !! i = Some o →
  Forall (λ e : string * nat, (e.2 < length (variables s))%nat) (inputs o) ∧
  Forall (λ e : string * nat, (e.2 < length (variables s))%nat) (outputs o).
Proof.
  intros Hwf Ho. pose proof (Forall_lookup_1 _ _ _ _ Hwf Ho) as Hr.
  by apply Forall_app in Hr.
Qed.

Lemma splice_wf op s s' : wf_store s → splice op s s' → wf_store s'.
Proof.
  intros Hwf Hsp.
  assert (∀ (n m : nat) d, (n ≤ m)%nat →
            Forall (λ e : string * nat, (e.2 < n)%nat) d →
            Forall (λ e : string * nat, (e.2 < m)%nat) d) as Hmono.
  { intros n m d Hnm Hd. eapply Forall_impl; [exact Hd|].
    intros e. simpl. lia. }
  destruct Hsp as [o v x ins Ho Hc Hx Hm Hrw|o v x outs Ho Hc Hx Hm Hrw];
    destruct (wf_store_lookup _ _ _ Hwf Ho) as [Hi Hu];
    pose proof (lookup_lt_Some _ _ _ Hx) as Hv;
    unfold wf_store, input_spliced, output_spliced; simpl;
    rewrite length_app; simpl;
    (apply Forall_app; split;
     [apply Forall_insert;
       [eapply Forall_impl; [exact Hwf|]; intros o'; simpl;
        apply Hmono; lia|]
     |]).
  - simpl. apply Forall_app. split.
    + eapply rewire_bound; [exact Hrw|lia|]. eapply Hmono; [|exact Hi]. lia.
    + eapply Hmono; [|exact Hu]. lia.
  - repeat constructor; simpl; lia.
  - simpl. apply Forall_app. split.
    + eapply Hmono; [|exact Hi]. lia.
    + eapply rewire_bound; [exact Hrw|lia|]. eapply Hmono; [|exact Hu]. lia.
  - repeat constructor; simpl; lia.
Qed.

(** A splice adds Variables and one Operator, rewires [op], and leaves every
    other Operator and every Variable as it was. *)
Lemma splice_frame op s s' :
  splice op s s' →
  variables s `prefix_of` variables s' ∧
  length (operators s') = S (length (operators s)) ∧
  (op < length (operators s))%nat ∧
  (∀ i, i ≠ op → (i < length (operators s))%nat →
        operators s' !! i = operators s !! i) ∧
  (∃ o o', operators s !! op = Some o ∧ operators s' !! op = Some o' ∧
           op_class o ≠ Sgemm ∧ op_class o' = op_class o ∧
           (inputs o').*1 ≡ₚ (inputs o).*1 ∧
           (outputs o').*1 ≡ₚ (outputs o).*1).
Proof.
  intros [o v x ins Ho Hc Hx Hm Hrw|o v x outs Ho Hc Hx Hm Hrw];
    pose proof (lookup_lt_Some _ _ _ Ho) as Hop;
    unfold input_spliced, output_spliced; simpl;
    (split; [by eexists|]);
    (split; [rewrite length_app, length_insert; simpl; lia|]);
    (split; [done|]);
    (split; [intros i Hne Hi;
             rewrite lookup_app_l by (by rewrite length_insert);
             by rewrite list_lookup_insert_ne|]).
  - eexists o, _. split; [done|]. split.
    { rewrite lookup_app_l by (by rewrite length_insert).
      by apply list_lookup_insert_eq. }
    simpl. do 2 (split; [done|]). split; [by eapply rewire_keys|done].
  - eexists o, _. split; [done|]. split.
    { rewrite lookup_app_l by (by rewrite length_insert).
      by apply list_lookup_insert_eq. }
    simpl. do 3 (split; [done|]). by eapply rewire_keys.
Qed.

Lemma mode_of_prefix s s' v :
  variables s `prefix_of` variables s' → (v < length (variables s))%nat →
  mode_of s' v = mode_of s v.
Proof.
  intros [k Hk] Hv. unfold mode_of. by rewrite Hk, lookup_app_l.
Qed.

Lemma not_R_RGBA m : m ≠ R → m = RGBA.
Proof. by destruct m. Qed.

Lemma not_RGBA_R m : m ≠ RGBA → m = R.
Proof. by destruct m. Qed.

(** The conversion node of a splice is satisfied when it is made. *)
Lemma input_spliced_new_node s op o v x ins target :
  operators s !! op = Some o → variables s !! v = Some x →
  channel_mode x ≠ target →
  ∃ cv, operators (input_spliced s op o v x ins target)
          !! length (operators s) = Some cv ∧
        (op_class cv = ConvertRGBAtoR ∨ op_class cv = ConvertRtoRGBA) ∧
        satisfied (input_spliced s op o v x ins target) cv ∧
        Forall (λ e : string * nat,
                  mode_of (input_spliced s op o v x ins target) e.2
                  = Some (wanted_input (op_class cv))) (inputs cv) ∧
        Forall (λ e : string * nat,
                  mode_of (input_spliced s op o v x ins target) e.2
                  = Some (wanted_output (op_class cv))) (outputs cv).
Proof.
  intros Ho Hx Hm.
  pose proof (lookup_lt_Some _ _ _ Ho) as Hop.
  pose proof (lookup_lt_Some _ _ _ Hx) as Hv.
  assert (mode_of (input_spliced s op o v x ins target) v
          = Some (channel_mode x)) as Hmv.
  { unfold mode_of, input_spliced. simpl. by rewrite lookup_app_l, Hx. }
  assert (mode_of (input_spliced s op o v x ins target) (length (variables s))
          = Some target) as Hmn.
  { unfold mode_of, input_spliced. simpl.
    rewrite lookup_app_r by lia. by rewrite Nat.sub_diag. }
  eexists. split.
  { unfold input_spliced. simpl.
    rewrite lookup_app_r by (by rewrite length_insert).
    by rewrite length_insert, Nat.sub_diag. }
  unfold input_spliced in *. unfold satisfied, inserted_class. simpl.
  destruct target; simpl;
    [apply not_R_RGBA in Hm|apply not_RGBA_R in Hm];
    rewrite Hm in Hmv;
    (split; [auto|]); (split; [eauto 10|]);
    split; repeat constructor; simpl; by rewrite ?Hmv, ?Hmn.
Qed.

Lemma output_spliced_new_node s op o v x outs target :
  operators s !! op = Some o → variables s !! v = Some x →
  channel_mode x ≠ target →
  ∃ cv, operators (output_spliced s op o v x outs target)
          !! length (operators s) = Some cv ∧
        (op_class cv = ConvertRGBAtoR ∨ op_class cv = ConvertRtoRGBA) ∧
        satisfied (output_spliced s op o v x outs target) cv ∧
        Forall (λ e : string * nat,
                  mode_of (output_spliced s op o v x outs target) e.2
                  = Some (wanted_input (op_class cv))) (inputs cv) ∧
        Forall (λ e : string * nat,
                  mode_of (output_spliced s op o v x outs target) e.2
                  = Some (wanted_output (op_class cv))) (outputs cv).
Proof.
  intros Ho Hx Hm.
  pose proof (lookup_lt_Some _ _ _ Ho) as Hop.
  pose proof (lookup_lt_Some _ _ _ Hx) as Hv.
  assert (mode_of (output_spliced s op o v x outs target) v
          = Some (channel_mode x)) as Hmv.
  { unfold mode_of, output_spliced. simpl. by rewrite lookup_app_l, Hx. }
  assert (mode_of (output_spliced s op o v x outs target)
            (length (variables s))
          = Some target) as Hmn.
  { unfold mode_of, output_spliced. simpl.
    rewrite lookup_app_r by lia. by rewrite Nat.sub_diag. }
  eexists. split.
  { unfold output_spliced. simpl.
    rewrite lookup_app_r by (by rewrite length_insert).
    by rewrite length_insert, Nat.sub_diag. }
  unfold output_spliced in *. unfold satisfied, spliced_class. simpl.
  destruct target; simpl;
    [apply not_R_RGBA in Hm|apply not_RGBA_R in Hm];
    rewrite Hm in Hmv;
    (split; [auto|]); (split; [eauto 10|]);
    split; repeat constructor; simpl; by rewrite ?Hmv, ?Hmn.
Qed.

Lemma splice_new_node op s s' :
  splice op s s' →
  ∃ cv, operators s' !! length (operators s) = Some cv ∧
        (op_class cv = ConvertRGBAtoR ∨ op_class cv = ConvertRtoRGBA) ∧
        satisfied s' cv ∧
        Forall (λ e : string * nat,
                  mode_of s' e.2 = Some (wanted_input (op_class cv)))
               (inputs cv) ∧
        Forall (λ e : string * nat,
                  mode_of s' e.2 = Some (wanted_output (op_class cv)))
               (outputs cv).
Proof.
  intros [o v x ins Ho Hc Hx Hm Hrw|o v x outs Ho Hc Hx Hm Hrw].
  - by apply input_spliced_new_node.
  - by apply output_spliced_new_node.
Qed.

(** *** The number of references left to convert *)

Lemma rewire_filter_count (P : nat → Prop) `{!∀ u, Decision (P u)}
    d v w d' :
  rewire d v w = Some d' → P v → ¬ P w →
  S (length (filter (λ e : string * nat, P e.2) d')) =
  length (filter (λ e : string * nat, P e.2) d).
Proof.
  intros (name & rest & Hd & Hd')%rewire_perm Hv Hw.
  rewrite Hd, Hd', !filter_cons. simpl.
  rewrite decide_False by done. by rewrite decide_True by done.
Qed.

Lemma filter_mode_prefix s s' m (d : list (string * nat)) :
  variables s `prefix_of` variables s' →
  Forall (λ e : string * nat, (e.2 < length (variables s))%nat) d →
  filter (λ e : string * nat, mode_of s' e.2 ≠ Some m) d =
  filter (λ e : string * nat, mode_of s e.2 ≠ Some m) d.
Proof.
  intros Hp. induction 1 as [|e d He _ IH]; [done|].
  rewrite !filter_cons, IH, (mode_of_prefix s s') by done. done.
Qed.

Lemma filter_mode_nil s m (d : list (string * nat)) :
  Forall (λ e : string * nat, mode_of s e.2 = Some m) d →
  filter (λ e : string * nat, mode_of s e.2 ≠ Some m) d = [].
Proof.
  induction 1 as [|e d He _ IH]; [done|].
  by rewrite filter_cons, decide_False by (by intros ?).
Qed.

Lemma bad_refs_eq s o :
  op_class o ≠ Sgemm →
  bad_refs s o =
  (length (filter (λ e : string * nat,
                     mode_of s e.2 ≠ Some (wanted_input (op_class o)))
                  (inputs o)) +
   length (filter (λ e : string * nat,
                     mode_of s e.2 ≠ Some (wanted_output (op_class o)))
                  (outputs o)))%nat.
Proof. unfold bad_refs. by destruct (op_class o). Qed.

Lemma bad_refs_prefix s s' o :
  variables s `prefix_of` variables s' →
  Forall (λ e : string * nat, (e.2 < length (variables s))%nat)
         (inputs o ++ outputs o) →
  bad_refs s' o = bad_refs s o.
Proof.
  intros Hp [Hi Ho]%Forall_app. unfold bad_refs.
  destruct (op_class o); [done|..];
    by rewrite !(filter_mode_prefix s s') by done.
Qed.

Lemma sum_list_insert (l : list nat) i x y :
  l !! i = Some x →
  (sum_list (<[i := y]> l) + x = sum_list l + y)%nat.
Proof.
  revert i. induction l as [|z l IH]; intros [|i]; simpl; try done.
  - intros [= ->]. lia.
  - intros Hi. specialize (IH _ Hi). lia.
Qed.

Lemma splice_unsatisfied op s s' :
  wf_store s → splice op s s' → S (unsatisfied s') = unsatisfied s.
Proof.
  intros Hwf Hsp.
  destruct (splice_new_node _ _ _ Hsp) as (cv & Hcv & Hcls & _ & Hci & Hco).
  destruct (splice_frame _ _ _ Hsp)
    as (Hpre & Hlen & Hop & Hother & _).
  assert (bad_refs s' cv = 0%nat) as Hzero.
  { rewrite bad_refs_eq by (destruct Hcls as [-> | ->]; done).
    by rewrite !filter_mode_nil. }
  assert (∃ o o', operators s !! op = Some o ∧
            operators s' = <[op := o']> (operators s) ++ [cv] ∧
            S (bad_refs s' o') = bad_refs s o) as (o & o' & Ho & Hops & Hdec).
  { destruct Hsp as [o v x ins Ho Hc Hx Hm Hrw|o v x outs Ho Hc Hx Hm Hrw];
      destruct (wf_store_lookup _ _ _ Hwf Ho) as [Hi Hu];
      pose proof (lookup_lt_Some _ _ _ Hx) as Hv.
    - set (s1 := input_spliced s op o v x ins (wanted_input (op_class o))) in *.
      exists o, (mkOperator (op_class o) ins (outputs o)).
      split; [done|]. split.
      { unfold s1, input_spliced in *. simpl in *.
        rewrite lookup_app_r in Hcv by (by rewrite length_insert).
        rewrite length_insert, Nat.sub_diag in Hcv. by injection Hcv as <-. }
      rewrite !bad_refs_eq by done. cbn [op_class inputs outputs].
      pose proof (rewire_filter_count
                    (λ u, mode_of s1 u ≠ Some (wanted_input (op_class o)))
                    _ _ _ _ Hrw) as H1.
      cbv beta in H1.
      rewrite <- (filter_mode_prefix s s1 _ (inputs o)) by done.
      rewrite <- (filter_mode_prefix s s1 _ (outputs o)) by done.
      rewrite <- H1; [lia| |].
      + unfold mode_of, s1, input_spliced. simpl.
        rewrite lookup_app_l, Hx by done. simpl. congruence.
      + unfold mode_of, s1, input_spliced. simpl.
        rewrite lookup_app_r, Nat.sub_diag by lia. simpl. by intros [].
    - set (s1 := output_spliced s op o v x outs (wanted_output (op_class o)))
        in *.
      exists o, (mkOperator (op_class o) (inputs o) outs).
      split; [done|]. split.
      { unfold s1, output_spliced in *. simpl in *.
        rewrite lookup_app_r in Hcv by (by rewrite length_insert).
        rewrite length_insert, Nat.sub_diag in Hcv. by injection Hcv as <-. }
      rewrite !bad_refs_eq by done. cbn [op_class inputs outputs].
      pose proof (rewire_filter_count
                    (λ u, mode_of s1 u ≠ Some (wanted_output (op_class o)))
                    _ _ _ _ Hrw) as H1.
      cbv beta in H1.
      rewrite <- (filter_mode_prefix s s1 _ (inputs o)) by done.
      rewrite <- (filter_mode_prefix s s1 _ (outputs o)) by done.
      rewrite <- H1; [lia| |].
      + unfold mode_of, s1, output_spliced. simpl.
        rewrite lookup_app_l, Hx by done. simpl. congruence.
      + unfold mode_of, s1, output_spliced. simpl.
        rewrite lookup_app_r, Nat.sub_diag by lia. simpl. by intros []. }
  unfold unsatisfied. rewrite Hops, fmap_app, sum_list_with_app. simpl.
  rewrite Hzero, list_fmap_insert.
  assert (bad_refs s' <$> operators s = bad_refs s <$> operators s) as ->.
  { apply Forall_fmap_ext. eapply Forall_impl; [exact Hwf|].
    intros o1 Ho1. by apply bad_refs_prefix. }
  pose proof (sum_list_insert (bad_refs s <$> operators s) op (bad_refs s o)
                (bad_refs s' o')) as Hsum.
  rewrite list_lookup_fmap, Ho in Hsum. specialize (Hsum eq_refl). lia.
Qed.

Lemma _replace_input_all_splice op s b s' o :
  operators s !! op = Some o → op_class o = Generic →
  _replace_input_all op R s = Some (b, s') →
  (b = false ∧ s' = s) ∨ (b = true ∧ splice op s s').
Proof.
  intros Ho Hc. unfold _replace_input_all, get_operator. unfold_M. simpl.
  rewrite Ho. intros Hany.
  apply any_gen_cases in Hany
    as [(-> & -> & _)|(-> & l1 & name & l2 & _ & _ & Hcall)].
  - by left.
  - right. split; [done|].
    change R with (wanted_input Generic) in Hcall. rewrite <- Hc in Hcall.
    eapply _replace_input_splice in Hcall as [[? _]|[_ ?]];
      [done|done|done|by rewrite Hc].
  - intros name s1 H1. by apply _replace_input_false in H1 as [-> _].
Qed.

Lemma _replace_output_all_splice op s b s' o :
  wf_store s →
  operators s !! op = Some o → op_class o = Generic →
  _replace_output_all op R s = Some (b, s') →
  (b = false ∧ s' = s) ∨ (b = true ∧ splice op s s').
Proof.
  intros Hwf Ho Hc. unfold _replace_output_all, get_operator. unfold_M. simpl.
  rewrite Ho. intros Hany.
  apply any_gen_cases in Hany
    as [(-> & -> & _)|(-> & l1 & name & l2 & _ & _ & Hcall)].
  - by left.
  - right. split; [done|].
    change R with (wanted_output Generic) in Hcall. rewrite <- Hc in Hcall.
    eapply _replace_output_splice in Hcall as [[? _]|[_ ?]];
      [done|done|done|done|by rewrite Hc].
  - intros name s1 H1. by apply _replace_output_false in H1 as [-> _].
Qed.

Lemma two_calls op flag (b1 b2 : bool) s s1 s2 :
  (b1 = false ∧ s1 = s) ∨ (b1 = true ∧ splice op s s1) →
  (b2 = false ∧ s2 = s1) ∨ (b2 = true ∧ splice op s1 s2) →
  ∃ n, nsteps (splice op) n s s2 ∧ (n ≤ 2)%nat ∧
       flag || b1 || b2 = flag || bool_decide (0 < n)%nat.
Proof.
  intros [[-> ->]|[-> H1]] [[-> ->]|[-> H2]].
  - exists 0%nat. split; [constructor|]. split; [lia|]. by destruct flag.
  - exists 1%nat. split; [by apply nsteps_once|]. split; [lia|].
    by destruct flag.
  - exists 1%nat. split; [by apply nsteps_once|]. split; [lia|].
    by destruct flag.
  - exists 2%nat.
    split; [eapply nsteps_l; [exact H1|by apply nsteps_once]|].
    split; [lia|].
    by destruct flag.
Qed.

Lemma optimize_operator_splices op flag s b s' :
  wf_store s → optimize_operator op flag s = Some (b, s') →
  ∃ n, nsteps (splice op) n s s' ∧ (n ≤ 2)%nat ∧
       b = flag || bool_decide (0 < n)%nat.
Proof.
  intros Hwf. unfold optimize_operator, get_operator. unfold_M. simpl.
  destruct (operators s !! op) as [o|] eqn:Ho; [|done].
  assert (∀ s1, (s1 = s) ∨ (splice op s s1) →
            wf_store s1 ∧
            ∃ o1, operators s1 !! op = Some o1 ∧ op_class o1 = op_class o)
    as Hmid.
  { intros s1 [->|Hsp]; [split; [done|]; by exists o|].
    split; [by eapply splice_wf|].
    destruct (splice_frame _ _ _ Hsp)
      as (_ & _ & _ & _ & o0 & o1 & Ho0 & Ho1 & _ & Hc1 & _).
    simplify_eq. by exists o1. }
  destruct (op_class o) eqn:Hc.
  - intros [= <- <-]. exists 0%nat. split; [constructor|]. split; [lia|].
    by destruct flag.
  - destruct (_replace_input op "x0" RGBA s) as [[b1 s1]|] eqn:H1; [|done].
    destruct (_replace_output op "y" R s1) as [[b2 s2]|] eqn:H2; [|done].
    intros [= <- <-].
    change RGBA with (wanted_input ConvertRGBAtoR) in H1. rewrite <- Hc in H1.
    eapply _replace_input_splice in H1; [|done|by rewrite Hc].
    destruct (Hmid s1) as (Hwf1 & o1 & Ho1 & Hc1); [destruct H1; tauto|].
    change R with (wanted_output ConvertRGBAtoR) in H2. rewrite <- Hc1 in H2.
    eapply _replace_output_splice in H2; [|done|done|by rewrite Hc1].
    by eapply two_calls.
  - destruct (_replace_input op "x0" R s) as [[b1 s1]|] eqn:H1; [|done].
    destruct (_replace_output op "y" RGBA s1) as [[b2 s2]|] eqn:H2; [|done].
    intros [= <- <-].
    change R with (wanted_input ConvertRtoRGBA) in H1. rewrite <- Hc in H1.
    eapply _replace_input_splice in H1; [|done|by rewrite Hc].
    destruct (Hmid s1) as (Hwf1 & o1 & Ho1 & Hc1); [destruct H1; tauto|].
    change RGBA with (wanted_output ConvertRtoRGBA) in H2. rewrite <- Hc1 in H2.
    eapply _replace_output_splice in H2; [|done|done|by rewrite Hc1].
    by eapply two_calls.
  - destruct (_replace_input_all op R s) as [[b1 s1]|] eqn:H1; [|done].
    destruct (_replace_output_all op R s1) as [[b2 s2]|] eqn:H2; [|done].
    intros [= <- <-].
    eapply _replace_input_all_splice in H1; [|done..].
    destruct (Hmid s1) as (Hwf1 & o1 & Ho1 & Hc1); [destruct H1; tauto|].
    eapply _replace_output_all_splice in H2; [|done..].
    by eapply two_calls.
Qed.

Lemma nsteps_splices_mono (l k : list nat) n s s' :
  (∀ op, op ∈ l → op ∈ k) → nsteps (splices l) n s s' →
  nsteps (splices k) n s s'.
Proof.
  intros Hlk. induction 1 as [|n s s1 s2 (op & Hop & Hsp) _ IH]; [constructor|].
  econstructor; [|exact IH]. exists op. split; [by apply Hlk|done].
Qed.

Lemma nsteps_splice_splices op n s s' :
  nsteps (splice op) n s s' → nsteps (splices [op]) n s s'.
Proof.
  induction 1 as [|n s s1 s2 Hsp _ IH]; [constructor|].
  econstructor; [|exact IH]. exists op. split; [by left|done].
Qed.

Lemma nsteps_splices_wf listed n s s' :
  wf_store s → nsteps (splices listed) n s s' → wf_store s'.
Proof.
  intros Hwf Hn. induction Hn as [|n s s1 s2 (op & Hop & Hsp) _ IH]; [done|].
  apply IH. by eapply splice_wf.
Qed.

Lemma optimize_loop_splices ops flag s b s' :
  wf_store s → optimize_loop ops flag s = Some (b, s') →
  ∃ n, nsteps (splices ops) n s s' ∧ (n ≤ 2 * length ops)%nat ∧
       b = flag || bool_decide (0 < n)%nat.
Proof.
  revert flag s. induction ops as [|op ops IH]; intros flag s Hwf; simpl;
    unfold_M.
  - intros [= <- <-]. exists 0%nat. split; [constructor|]. split; [lia|].
    by destruct flag.
  - destruct (optimize_operator op flag s) as [[flag1 s1]|] eqn:Hop; [|done].
    intros Hloop.
    apply optimize_operator_splices in Hop as (n1 & Hn1 & Hle1 & ->); [|done].
    apply nsteps_splice_splices in Hn1.
    apply IH in Hloop as (n2 & Hn2 & Hle2 & ->);
      [|by eapply nsteps_splices_wf].
    exists (n1 + n2)%nat. split.
    + eapply nsteps_trans.
      * eapply nsteps_splices_mono; [|exact Hn1].
        intros ? ->%list_elem_of_singleton. by left.
      * eapply nsteps_splices_mono; [|exact Hn2]. intros ? ?. by right.
    + split; [lia|]. destruct flag; simpl; [done|].
      destruct n1, n2; done.
Qed.

Lemma nsteps_splices_count listed n s s' :
  wf_store s → nsteps (splices listed) n s s' →
  length (operators s') = (length (operators s) + n)%nat ∧
  (unsatisfied s' + n)%nat = unsatisfied s.
Proof.
  intros Hwf Hn.
  induction Hn as [|n s s1 s2 (op & Hop & Hsp) _ IH]; [split; lia|].
  destruct IH as [IH1 IH2]; [by eapply splice_wf|].
  pose proof (splice_unsatisfied _ _ _ Hwf Hsp).
  destruct (splice_frame _ _ _ Hsp) as (_ & Hlen & _). split; lia.
Qed.

Lemma rewire_Some_elem d v w d' : rewire d v w = Some d' → v ∈ d.*2.
Proof.
  intros (name & rest & Hd & _)%rewire_perm. rewrite Hd, fmap_cons. by left.
Qed.

Lemma splice_not_converted op s s' o :
  splice op s s' → operators s !! op = Some o → ¬ all_converted s o.
Proof.
  intros [o1 v x ins Ho Hc Hx Hm Hrw|o1 v x outs Ho Hc Hx Hm Hrw] Ho' [Hi Hu];
    simplify_eq; apply rewire_Some_elem in Hrw;
    apply list_elem_of_fmap in Hrw as ([k u] & -> & Hin).
  - eapply Forall_forall in Hi; [|exact Hin]. unfold mode_of in Hi.
    simpl in *. rewrite Hx in Hi. simpl in Hi. congruence.
  - eapply Forall_forall in Hu; [|exact Hin]. unfold mode_of in Hu.
    simpl in *. rewrite Hx in Hu. simpl in Hu. congruence.
Qed.

Lemma mode_of_prefix_Some s s' v m :
  variables s `prefix_of` variables s' → mode_of s v = Some m →
  mode_of s' v = Some m.
Proof.
  intros Hp Hm. rewrite (mode_of_prefix s s'); [done..|].
  unfold mode_of in Hm. destruct (variables s !! v) eqn:Hv; [|done].
  by eapply lookup_lt_Some.
Qed.

Lemma all_converted_prefix s s' o :
  variables s `prefix_of` variables s' → all_converted s o →
  all_converted s' o.
Proof.
  intros Hp [Hi Hu]. split; (eapply Forall_impl; [eassumption|]);
    intros e; by apply mode_of_prefix_Some.
Qed.

Lemma satisfied_prefix s s' o :
  variables s `prefix_of` variables s' → satisfied s o → satisfied s' o.
Proof.
  intros Hp. unfold satisfied. destruct (op_class o); [done|..].
  - intros [(x0 & ? & ?) (y & ? & ?)].
    split; eexists; (split; [done|]); by eapply mode_of_prefix_Some.
  - intros [(x0 & ? & ?) (y & ? & ?)].
    split; eexists; (split; [done|]); by eapply mode_of_prefix_Some.
  - intros [Hi Hu]. split; intros name v Hv;
      eapply mode_of_prefix_Some; eauto.
Qed.

(** What the splices of a pass keep. *)
Lemma nsteps_splices_frame listed n s s' :
  nsteps (splices listed) n s s' →
  variables s `prefix_of` variables s' ∧
  ∀ i o, operators s !! i = Some o →
    ∃ o', operators s' !! i = Some o' ∧
          op_class o' = op_class o ∧
          (inputs o').*1 ≡ₚ (inputs o).*1 ∧
          (outputs o').*1 ≡ₚ (outputs o).*1 ∧
          (i ∉ listed ∨ op_class o = Sgemm ∨ all_converted s o → o' = o).
Proof.
  induction 1 as [s|n s s1 s2 (op & Hop & Hsp) _ [IHp IH]].
  - split; [done|]. intros i o Ho. exists o. by repeat split.
  - destruct (splice_frame _ _ _ Hsp)
      as (Hpre & Hlen & Hlt & Hother & o0 & o1 & Ho0 & Ho1 & Hns & Hc & Hki & Hko).
    split; [by etrans|]. intros i o Ho.
    destruct (decide (i = op)) as [->|Hne].
    + simplify_eq. destruct (IH _ _ Ho1) as (o' & Ho' & Hc' & Hki' & Hko' & _).
      exists o'. split; [done|]. split; [congruence|].
      split; [by etrans|]. split; [by etrans|].
      intros [Hnl|[Hs|Hall]]; [done|done|].
      by destruct (splice_not_converted _ _ _ _ Hsp Ho0).
    + pose proof (lookup_lt_Some _ _ _ Ho) as Hi.
      rewrite <- (Hother i Hne Hi) in Ho.
      destruct (IH _ _ Ho) as (o' & Ho' & Hc' & Hki' & Hko' & Hsame).
      exists o'. do 4 (split; [done|]).
      intros [Hnl|[Hs|Hall]]; apply Hsame; [tauto|tauto|].
      right. right. by eapply all_converted_prefix.
Qed.

(** The conversion nodes a pass adds are satisfied when it ends. *)
Lemma nsteps_splices_new_nodes listed n s s' :
  wf_store s → nsteps (splices listed) n s s' →
  ∀ i o, (length (operators s) ≤ i)%nat → operators s' !! i = Some o →
    (op_class o = ConvertRGBAtoR ∨ op_class o = ConvertRtoRGBA) ∧
    satisfied s' o ∧ all_converted s' o.
Proof.
  intros Hwf Hn.
  induction Hn as [s|n s s1 s2 (op & Hop & Hsp) Hrest IH]; intros i o Hi Ho.
  - apply lookup_lt_Some in Ho. lia.
  - destruct (splice_frame _ _ _ Hsp) as (_ & Hlen & _).
    destruct (decide (i = length (operators s))) as [->|Hne].
    + destruct (splice_new_node _ _ _ Hsp) as (cv & Hcv & Hcls & Hsat & Hgood).
      destruct (nsteps_splices_frame _ _ _ _ Hrest) as [Hpre Hfr].
      destruct (Hfr _ _ Hcv) as (o' & Ho' & _ & _ & _ & Hsame).
      rewrite Hsame in Ho' by (right; right; exact Hgood). simplify_eq.
      split; [done|]. split; [by eapply satisfied_prefix|].
      by eapply all_converted_prefix.
    + apply (IH ltac:(by eapply splice_wf) i); [lia|done].
Qed.

(** *** Calls that find nothing to convert *)

Lemma _replace_input_noop op var_name target s o v :
  operators s !! op = Some o → dict_get (inputs o) var_name = Some v →
  mode_of s v = Some target →
  _replace_input op var_name target s = Some (false, s).
Proof.
  intros Ho Hv Hm.
  unfold _replace_input, op_input, ChannelMode_get, get_operator, get_variable,
    mode_of in *.
  unfold_M. simpl. rewrite Ho, Hv.
  destruct (variables s !! v) as [x|]; [|done]. simpl in Hm.
  injection Hm as ->. by rewrite decide_True.
Qed.

Lemma _replace_output_noop op var_name target s o v :
  operators s !! op = Some o → dict_get (outputs o) var_name = Some v →
  mode_of s v = Some target →
  _replace_output op var_name target s = Some (false, s).
Proof.
  intros Ho Hv Hm.
  unfold _replace_output, op_output, ChannelMode_get, get_operator,
    get_variable, mode_of in *.
  unfold_M. simpl. rewrite Ho, Hv.
  destruct (variables s !! v) as [x|]; [|done]. simpl in Hm.
  injection Hm as ->. by rewrite decide_True.
Qed.

Lemma any_gen_noop {A} (f : A → M bool) l s :
  (∀ x, x ∈ l → f x s = Some (false, s)) → any_gen f l s = Some (false, s).
Proof.
  induction l as [|x l IH]; intros Hl; simpl; unfold_M; [done|].
  rewrite (Hl x) by (by left). apply IH. intros y Hy. apply Hl. by right.
Qed.

Lemma dict_get_is_Some d name : name ∈ d.*1 → is_Some (dict_get d name).
Proof.
  induction d as [|[k u] d IH]; simpl; [by intros ?%elem_of_nil|].
  case_decide; [by eexists|].
  intros [?|?]%elem_of_cons; [done|by apply IH].
Qed.

Lemma optimize_operator_noop op flag s o :
  operators s !! op = Some o → satisfied s o →
  optimize_operator op flag s = Some (flag, s).
Proof.
  intros Ho Hsat. unfold optimize_operator, get_operator. unfold_M. simpl.
  rewrite Ho. unfold satisfied in Hsat.
  destruct (op_class o) eqn:Hc; [done|..].
  - destruct Hsat as [(x0 & Hx0 & Hm0) (y & Hy & Hmy)].
    rewrite (_replace_input_noop _ _ _ _ _ _ Ho Hx0 Hm0).
    rewrite (_replace_output_noop _ _ _ _ _ _ Ho Hy Hmy).
    by rewrite !orb_false_r.
  - destruct Hsat as [(x0 & Hx0 & Hm0) (y & Hy & Hmy)].
    rewrite (_replace_input_noop _ _ _ _ _ _ Ho Hx0 Hm0).
    rewrite (_replace_output_noop _ _ _ _ _ _ Ho Hy Hmy).
    by rewrite !orb_false_r.
  - destruct Hsat as [Hi Hu].
    unfold _replace_input_all, _replace_output_all, get_operator. unfold_M.
    simpl. rewrite Ho.
    rewrite any_gen_noop.
    2:{ intros name [v Hv]%dict_get_is_Some.
        eapply _replace_input_noop; eauto. }
    rewrite Ho. rewrite any_gen_noop.
    2:{ intros name [v Hv]%dict_get_is_Some.
        eapply _replace_output_noop; eauto. }
    by rewrite !orb_false_r.
Qed.

(** X13.  The converse of C1: on a graph where every listed Operator is
    satisfied, [optimize] raises no exception, returns the flag [False] and
    leaves the graph as it is. *)
Theorem satisfied_graph_is_fixpoint listed s :
  (∀ op, op ∈ listed → ∃ o, operators s !! op = Some o ∧ satisfied s o) →
  optimize listed s = Some (false, s).
Proof.
  unfold optimize. generalize false.
  induction listed as [|op listed IH]; intros flag Hall; simpl; unfold_M.
  - done.
  - destruct (Hall op) as (o & Ho & Hsat); [by left|].
    rewrite (optimize_operator_noop _ _ _ _ Ho Hsat).
    apply IH. intros op' Hop'. apply Hall. by right.
Qed.

(** X13 on a graph the rule leaves as it is. *)
Lemma satisfied_graph_is_fixpoint_witness :
  optimize [0; 1; 2]%nat converged_store = Some (false, converged_store).
Proof.
  apply (satisfied_graph_is_fixpoint [0; 1; 2]%nat converged_store).
  intros op Hop. apply list_elem_of_In in Hop. simpl in Hop.
  destruct Hop as [<-|[<-|[<-|[]]]]; eexists; (split; [reflexivity|]);
    unfold satisfied; simpl; try done;
    split; try (eexists; split; reflexivity);
    intros name v Hv; simpl in Hv; case_decide; by simplify_eq.
Defined.



(** X12.  When [_replace_output] splices a conversion, the references of
    the graph still point to Variables of the graph, and the conversion node,
    added at the end of the Operators, is satisfied: its input is in the mode
    it converts from and its output in the mode it converts to. *)
Theorem output_splice_conversion_satisfied op var_name target s s' :
  wf_store s →
  _replace_output op var_name target s = Some (true, s') →
  wf_store s' ∧
  ∃ cv, operators s' !! length (operators s) = Some cv ∧
        op_class cv = spliced_class target ∧
        satisfied s' cv.
Proof.
  intros Hwf Hcall.
  apply _replace_output_true in Hcall
    as (o & v & x & outs & Ho & Hv & Hx & Hm & Hrw & ->); [|done].
  fold (output_spliced s op o v x outs target).
  destruct (output_spliced_new_node s op o v x outs target Ho Hx Hm)
    as (cv & Hcv & _ & Hsat & _).
  split.
  - pose proof (lookup_lt_Some _ _ _ Hx) as Hlt.
    destruct (wf_store_lookup _ _ _ Hwf Ho) as [Hi Hu].
    unfold wf_store, output_spliced. simpl. rewrite length_app. simpl.
    assert (∀ d, Forall (λ e : string * nat,
                           (e.2 < length (variables s))%nat) d →
                 Forall (λ e : string * nat,
                           (e.2 < length (variables s) + 2)%nat) d) as Hmono.
    { intros d Hd. eapply Forall_impl; [exact Hd|]. intros e. simpl. lia. }
    apply Forall_app. split.
    + apply Forall_insert.
      * eapply Forall_impl; [exact Hwf|]. intros o'. simpl. apply Hmono.
      * simpl. apply Forall_app. split; [by apply Hmono|].
        eapply rewire_bound; [exact Hrw|lia|by apply Hmono].
    + repeat constructor; simpl; lia.
  - exists cv. split; [done|]. split; [|done].
    unfold output_spliced in Hcv. simpl in Hcv.
    rewrite lookup_app_r in Hcv by (by rewrite length_insert).
    rewrite length_insert, Nat.sub_diag in Hcv. by injection Hcv as <-.
Qed.

(** X12 on the splice of the RGBA output of the first Operator. *)
Lemma output_splice_conversion_satisfied_witness :
  wf_store rgba_output_store ∧
  _replace_output 0 "y" R rgba_output_store
    = Some (true, rgba_output_store_spliced) ∧
  wf_store rgba_output_store_spliced ∧
  ∃ cv, operators rgba_output_store_spliced !! 2%nat = Some cv ∧
        op_class cv = spliced_class R ∧
        satisfied rgba_output_store_spliced cv.
Proof.
  assert (wf_store rgba_output_store) as Hwf by compute_done.
  split; [exact Hwf|]. split; [reflexivity|].
  exact (output_splice_conversion_satisfied 0 "y" R rgba_output_store
           rgba_output_store_spliced Hwf eq_refl).
Defined.

(** X14.  The flag [optimize] returns tells whether the graph was changed:
    it is [False] exactly when the graph is the one given, and [True]
    exactly when Operators were added; one pass adds at most two conversion
    nodes per listed Operator. *)
Theorem pass_flag_reports_change listed s b s' :
  wf_store s →
  optimize listed s = Some (b, s') →
  (b = false ↔ s' = s) ∧
  (b = true ↔ (length (operators s) < length (operators s'))%nat) ∧
  (length (operators s) ≤ length (operators s')
   ≤ length (operators s) + 2 * length listed)%nat.
Proof.
  intros Hwf Hopt. unfold optimize in Hopt.
  pose proof Hopt as Hfalse.
  apply optimize_loop_splices in Hopt as (n & Hn & Hle & Hb); [|done].
  destruct (nsteps_splices_count _ _ _ _ Hwf Hn) as [Hlen _].
  simpl in Hb. split; [|split; [|lia]].
  - split.
    + intros ->. by apply optimize_loop_false in Hfalse as (_ & -> & _).
    + intros ->. destruct n; [done|lia].
  - rewrite Hb, bool_decide_eq_true. lia.
Qed.

(** X14 on one pass over the generic Operator with two RGBA inputs. *)
Lemma pass_flag_reports_change_witness :
  wf_store two_rgba_inputs_store ∧
  optimize [0%nat] two_rgba_inputs_store
    = Some (true, two_rgba_inputs_store_pass) ∧
  (true = false ↔ two_rgba_inputs_store_pass = two_rgba_inputs_store) ∧
  (true = true ↔ (length (operators two_rgba_inputs_store)
                  < length (operators two_rgba_inputs_store_pass))%nat) ∧
  (length (operators two_rgba_inputs_store)
   ≤ length (operators two_rgba_inputs_store_pass)
   ≤ length (operators two_rgba_inputs_store) + 2 * length [0%nat])%nat.
Proof.
  assert (wf_store two_rgba_inputs_store) as Hwf by compute_done.
  split; [exact Hwf|]. split; [reflexivity|].
  exact (pass_flag_reports_change [0%nat] two_rgba_inputs_store true
           two_rgba_inputs_store_pass Hwf eq_refl).
Defined.

(** X15.  Every conversion node a pass adds takes one reference off the
    count of the references that are not in the mode [optimize] asks for:
    the count goes down by the number of Operators added, so it goes down
    when the flag is [True]. *)
Theorem pass_decreases_unsatisfied_references listed s b s' :
  wf_store s →
  optimize listed s = Some (b, s') →
  (unsatisfied s' + (length (operators s') - length (operators s)))%nat
  = unsatisfied s ∧
  (b = true → (unsatisfied s' < unsatisfied s)%nat).
Proof.
  intros Hwf Hopt. unfold optimize in Hopt.
  apply optimize_loop_splices in Hopt as (n & Hn & Hle & Hb); [|done].
  destruct (nsteps_splices_count _ _ _ _ Hwf Hn) as [Hlen Hun].
  split; [lia|]. simpl in Hb. rewrite Hb, bool_decide_eq_true. lia.
Qed.

(** X15 on the same pass: two references to convert before, one after. *)
Lemma pass_decreases_unsatisfied_references_witness :
  wf_store two_rgba_inputs_store ∧
  optimize [0%nat] two_rgba_inputs_store
    = Some (true, two_rgba_inputs_store_pass) ∧
  unsatisfied two_rgba_inputs_store = 2%nat ∧
  unsatisfied two_rgba_inputs_store_pass = 1%nat ∧
  (unsatisfied two_rgba_inputs_store_pass
   < unsatisfied two_rgba_inputs_store)%nat.
Proof.
  assert (wf_store two_rgba_inputs_store) as Hwf by compute_done.
  split; [exact Hwf|]. split; [reflexivity|].
  do 2 (split; [reflexivity|]).
  by apply (pass_decreases_unsatisfied_references [0%nat]
              two_rgba_inputs_store true two_rgba_inputs_store_pass Hwf
              eq_refl).
Defined.

(** X16.  A pass of [optimize] only adds to the graph and rewires: the
    references still point to Variables of the graph; the Variables it was
    given are kept as they are (shape, order and mode); an Operator it was
    given keeps its position, its class and its parameter names, whose
    sequence may change (a rewired name becomes the last); and an Operator
    that is not listed, or is an [Sgemm], or has all its references in the
    modes asked for, is left as it is. *)
Theorem pass_keeps_existing_graph listed s b s' :
  wf_store s →
  optimize listed s = Some (b, s') →
  wf_store s' ∧
  variables s `prefix_of` variables s' ∧
  ∀ i o, operators s !! i = Some o →
    ∃ o', operators s' !! i = Some o' ∧
          op_class o' = op_class o ∧
          (inputs o').*1 ≡ₚ (inputs o).*1 ∧
          (outputs o').*1 ≡ₚ (outputs o).*1 ∧
          (i ∉ listed ∨ op_class o = Sgemm ∨ all_converted s o → o' = o).
Proof.
  intros Hwf Hopt. unfold optimize in Hopt.
  apply optimize_loop_splices in Hopt as (n & Hn & _); [|done].
  split; [by eapply nsteps_splices_wf|].
  by eapply nsteps_splices_frame.
Qed.

(** X16 on the same pass. *)
Lemma pass_keeps_existing_graph_witness :
  wf_store two_rgba_inputs_store ∧
  optimize [0%nat] two_rgba_inputs_store
    = Some (true, two_rgba_inputs_store_pass) ∧
  wf_store two_rgba_inputs_store_pass ∧
  variables two_rgba_inputs_store
    `prefix_of` variables two_rgba_inputs_store_pass.
Proof.
  assert (wf_store two_rgba_inputs_store) as Hwf by compute_done.
  split; [exact Hwf|]. split; [reflexivity|].
  destruct (pass_keeps_existing_graph [0%nat] two_rgba_inputs_store true
              two_rgba_inputs_store_pass Hwf eq_refl) as (Hwf' & Hpre & _).
  by split.
Defined.

(** X17.  Every Operator a pass of [optimize] adds is a conversion node,
    [ConvertRGBAtoR] or [ConvertRtoRGBA], and is satisfied in the graph the
    pass returns. *)
Theorem pass_adds_satisfied_conversions listed s b s' :
  wf_store s →
  optimize listed s = Some (b, s') →
  ∀ i o, (length (operators s) ≤ i)%nat → operators s' !! i = Some o →
    (op_class o = ConvertRGBAtoR ∨ op_class o = ConvertRtoRGBA) ∧
    satisfied s' o.
Proof.
  intros Hwf Hopt i o Hi Ho. unfold optimize in Hopt.
  apply optimize_loop_splices in Hopt as (n & Hn & _); [|done].
  destruct (nsteps_splices_new_nodes _ _ _ _ Hwf Hn i o Hi Ho)
    as (Hc & Hsat & _).
  by split.
Qed.

(** X17 on the same pass. *)
Lemma pass_adds_satisfied_conversions_witness :
  wf_store two_rgba_inputs_store ∧
  optimize [0%nat] two_rgba_inputs_store
    = Some (true, two_rgba_inputs_store_pass) ∧
  ∃ o, operators two_rgba_inputs_store_pass !! 1%nat = Some o ∧
       (op_class o = ConvertRGBAtoR ∨ op_class o = ConvertRtoRGBA) ∧
       satisfied two_rgba_inputs_store_pass o.
Proof.
  assert (wf_store two_rgba_inputs_store) as Hwf by compute_done.
  split; [exact Hwf|]. split; [reflexivity|].
  eexists. split; [reflexivity|].
  apply (pass_adds_satisfied_conversions [0%nat] two_rgba_inputs_store true
           two_rgba_inputs_store_pass Hwf eq_refl 1%nat); [simpl; lia|].
  reflexivity.
Defined.

Lemma optimize_unsatisfied listed s b s' :
  wf_store s → optimize listed s = Some (b, s') →
  wf_store s' ∧
  (unsatisfied s' + (if b then 1 else 0) ≤ unsatisfied s)%nat.
Proof.
  intros Hwf Hopt. unfold optimize in Hopt.
  apply optimize_loop_splices in Hopt as (n & Hn & Hle & Hb); [|done].
  destruct (nsteps_splices_count _ _ _ _ Hwf Hn) as [Hlen Hun].
  split; [by eapply nsteps_splices_wf|].
  simpl in Hb. destruct b; [|lia].
  symmetry in Hb. apply bool_decide_eq_true in Hb. lia.
Qed.

(** X18.  Repeating the rule ends: the number of passes in a row that
    return the flag [True], whatever Operators are listed for each, is at
    most the number of references of the first graph that are not in the mode
    [optimize] asks for. *)
Theorem repeated_passes_bounded n s s' :
  wf_store s → true_passes n s s' →
  (n + unsatisfied s' ≤ unsatisfied s)%nat.
Proof.
  intros Hwf Hp. induction Hp as [s|n listed s s1 s2 Hopt _ IH]; [lia|].
  apply optimize_unsatisfied in Hopt as [Hwf1 Hle]; [|done].
  specialize (IH Hwf1). lia.
Qed.

(** X18 on the same pass. *)
Lemma repeated_passes_bounded_witness :
  wf_store two_rgba_inputs_store ∧
  true_passes 1 two_rgba_inputs_store two_rgba_inputs_store_pass ∧
  (1 + unsatisfied two_rgba_inputs_store_pass
   ≤ unsatisfied two_rgba_inputs_store)%nat.
Proof.
  assert (wf_store two_rgba_inputs_store) as Hwf by compute_done.
  assert (true_passes 1 two_rgba_inputs_store two_rgba_inputs_store_pass)
    as Hp.
  { apply (true_passes_S 0 [0%nat] _ two_rgba_inputs_store_pass);
      [reflexivity|constructor]. }
  split; [exact Hwf|]. split; [exact Hp|].
  exact (repeated_passes_bounded 1 two_rgba_inputs_store
           two_rgba_inputs_store_pass Hwf Hp).
Defined.

(** X19.  When [_replace_input_all] returns [True], it has spliced one
    conversion, on the first input of the Operator, in the sequence of its
    parameter names, whose Variable is not in the target mode: the inputs
    before it are in the target mode, and the graph is the one the call of
    [_replace_input] for that name gives on the graph [_replace_input_all]
    was given; the inputs after it are not looked at. *)
Theorem replace_input_all_converts_first_offender op target s s' :
  _replace_input_all op target s = Some (true, s') →
  ∃ o names1 name names2 v,
    operators s !! op = Some o ∧
    (inputs o).*1 = names1 ++ name :: names2 ∧
    (∀ n, n ∈ names1 →
          ∃ w, dict_get (inputs o) n = Some w ∧ mode_of s w = Some target) ∧
    dict_get (inputs o) name = Some v ∧
    mode_of s v ≠ Some target ∧
    _replace_input op name target s = Some (true, s').
Proof.
  unfold _replace_input_all, get_operator. unfold_M. simpl.
  destruct (operators s !! op) as [o|] eqn:Ho; [|done].
  intros Hany.
  apply any_gen_cases in Hany
    as [(? & _)|(_ & l1 & name & l2 & Hnames & Hl1 & Hcall)]; [done| |].
  - pose proof Hcall as Htrue.
    apply _replace_input_true in Htrue
      as (o' & v & x & ins & Ho' & Hv & Hx & Hm & _).
    simplify_eq. exists o, l1, name, l2, v. do 2 (split; [done|]).
    split; [|split; [done|split; [|done]]].
    + intros n Hn. apply Hl1 in Hn.
      apply _replace_input_false in Hn as (_ & o' & w & Ho' & Hw & Hmw).
      simplify_eq. by exists w.
    + unfold mode_of. rewrite Hx. simpl. congruence.
  - intros name s1 H1. by apply _replace_input_false in H1 as [-> _].
Qed.

(** X19 on the graph after the first pass: the conversion is spliced on
    [x1], which is by then the first input name. *)
Lemma replace_input_all_converts_first_offender_witness :
  ∃ s', _replace_input_all 0 R two_rgba_inputs_store_pass = Some (true, s') ∧
  ∃ o names1 name names2 v,
    operators two_rgba_inputs_store_pass !! 0%nat = Some o ∧
    (inputs o).*1 = names1 ++ name :: names2 ∧
    (∀ n, n ∈ names1 →
          ∃ w, dict_get (inputs o) n = Some w ∧
               mode_of two_rgba_inputs_store_pass w = Some R) ∧
    dict_get (inputs o) name = Some v ∧
    mode_of two_rgba_inputs_store_pass v ≠ Some R ∧
    _replace_input 0 name R two_rgba_inputs_store_pass = Some (true, s').
Proof.
  eexists. split; [reflexivity|].
  apply (replace_input_all_converts_first_offender 0 R
           two_rgba_inputs_store_pass).
  reflexivity.
Defined.

(** X20.  When [_replace_output_all] returns [True], it has spliced one
    conversion, on the first output of the Operator, in the sequence of its
    parameter names, whose Variable is not in the target mode: the outputs
    before it are in the target mode, and the graph is the one the call of
    [_replace_output] for that name gives on the graph
    [_replace_output_all] was given; the outputs after it are not looked
    at. *)
Theorem replace_output_all_converts_first_offender op target s s' :
  wf_store s →
  _replace_output_all op target s = Some (true, s') →
  ∃ o names1 name names2 v,
    operators s !! op = Some o ∧
    (outputs o).*1 = names1 ++ name :: names2 ∧
    (∀ n, n ∈ names1 →
          ∃ w, dict_get (outputs o) n = Some w ∧ mode_of s w = Some target) ∧
    dict_get (outputs o) name = Some v ∧
    mode_of s v ≠ Some target ∧
    _replace_output op name target s = Some (true, s').
Proof.
  intros Hwf. unfold _replace_output_all, get_operator. unfold_M. simpl.
  destruct (operators s !! op) as [o|] eqn:Ho; [|done].
  intros Hany.
  apply any_gen_cases in Hany
    as [(? & _)|(_ & l1 & name & l2 & Hnames & Hl1 & Hcall)]; [done| |].
  - pose proof Hcall as Htrue.
    apply _replace_output_true in Htrue
      as (o' & v & x & outs & Ho' & Hv & Hx & Hm & _); [|done].
    simplify_eq. exists o, l1, name, l2, v. do 2 (split; [done|]).
    split; [|split; [done|split; [|done]]].
    + intros n Hn. apply Hl1 in Hn.
      apply _replace_output_false in Hn as (_ & o' & w & Ho' & Hw & Hmw).
      simplify_eq. by exists w.
    + unfold mode_of. rewrite Hx. simpl. congruence.
  - intros name s1 H1. by apply _replace_output_false in H1 as [-> _].
Qed.

(** X20 on the RGBA output of the first Operator. *)
Lemma replace_output_all_converts_first_offender_witness :
  wf_store rgba_output_store ∧
  _replace_output_all 0 R rgba_output_store
    = Some (true, rgba_output_store_spliced) ∧
  ∃ o names1 name names2 v,
    operators rgba_output_store !! 0%nat = Some o ∧
    (outputs o).*1 = names1 ++ name :: names2 ∧
    (∀ n, n ∈ names1 →
          ∃ w, dict_get (outputs o) n = Some w ∧
               mode_of rgba_output_store w = Some R) ∧
    dict_get (outputs o) name = Some v ∧
    mode_of rgba_output_store v ≠ Some R ∧
    _replace_output 0 name R rgba_output_store
      = Some (true, rgba_output_store_spliced).
Proof.
  assert (wf_store rgba_output_store) as Hwf by compute_done.
  split; [exact Hwf|]. split; [reflexivity|].
  exact (replace_output_all_converts_first_offender 0 R rgba_output_store
           rgba_output_store_spliced Hwf eq_refl).
Defined.

End InsertChannelModeConversionSpec.
